(** * flagr: layered flag resolution over the standard [flag] package

    A shallow embedding of [flagr.go] (the [Set] registry, the generic
    [value] and [slice] boxes, the visiting methods and [Parse]) and of
    the [env] parser, with the properties of the resolution protocol
    proved about them.

    Conventions of the embedding.
    - A Go function returning [(T, error)] returns a [result T]; a method
      with a pointer receiver, or one that writes through a pointer it
      holds, takes the pointee and returns the updated pointee.
    - A [*Flag] is represented by the flag's name: [FlagSet.Var] stores
      one [Flag] per name, never replaces it, and [actual] holds the very
      pointers of [formal].
    - A callback or parser handed over by the caller is a state
      transformer on a pair [(x, set)]: [x] stands for the variables the
      closure captures, [set] for the registry it points to.
    - Every name of a registry has a [Getter] object of its own.  In Go
      a [Getter] is a pointer, and one added under two names is shared by
      them; such a registry is outside the embedding, and no property
      below says what the value of a flag is after a call that sets
      another flag. *)

From Stdlib Require Import String Ascii List ZArith Lia.
From stdpp Require Import base option list gmap sets strings sorting pretty.

Set Default Proof Using "Type".

(** ** Go values shared by all packages *)

(** Error values.  A [fmt.Errorf] call keeps its format and arguments
    apart instead of rendering the message: [Errorf] when no argument is
    an error, [Errorw] when one is ([cause], the operand of [%w] or
    [%v]). *)
Inductive error : Type :=
| ErrHelp
| ErrorsNew (text : string)
| Errorf (format : string) (args : list string)
| Errorw (format : string) (args : list string) (cause : error).

Inductive result (T : Type) : Type :=
| Ok (v : T)
| Err (e : error).
Arguments Ok {T} v.
Arguments Err {T} e.

(** How a call ends: it returns, the process exits ([os.Exit]), or it
    panics. *)
Inductive outcome (A : Type) : Type :=
| Returned (a : A)
| Exited (code : Z)
| Panicked (e : error).
Arguments Returned {A} a.
Arguments Exited {A} code.
Arguments Panicked {A} e.

(** How a call with a loop that need not end ends. *)
Inductive ending (A : Type) : Type :=
| Ends (o : outcome A)
| Loops.
Arguments Ends {A} o.
Arguments Loops {A}.

(** [reflect.TypeOf(x).Kind() == reflect.Bool], per element type. *)
Class GoKind (T : Type) : Type := kindIsBool : bool.
#[export] Instance bool_kind : GoKind bool := true.
#[export] Instance string_kind : GoKind string := false.
#[export] Instance Z_kind : GoKind Z := false.

(** ** Typed values: [ValParser], [ValSetter], [value] *)

Definition ValParser (T : Type) : Type := string -> result T.

(** A setter writes through its pointer argument: it takes the pointee,
    and returns the pointee after the call and the error. *)
Definition ValSetter (T : Type) : Type := T -> string -> T * option error.

Definition set {T : Type} (parse : ValParser T) : ValSetter T :=
  fun t s =>
    match parse s with
    | Err e => (t, Some e)
    | Ok v => (v, None)
    end.

Definition SetterFrom {T : Type} (parser : ValParser T) : ValSetter T :=
  set parser.

Record value (T : Type) : Type := mkValue {
  value_Value : T;
  value_Setter : ValSetter T
}.
Arguments mkValue {T} _ _.
Arguments value_Value {T} _.
Arguments value_Setter {T} _.

Definition Var {T : Type} (val : T) (setter : ValSetter T) : value T :=
  {| value_Value := val; value_Setter := setter |}.

(** [new(T)] is the zero value of [T], passed as [zero]. *)
Definition MustVar {T : Type} (zero : T) (defaultValue : string)
    (setter : ValSetter T) : outcome (value T) :=
  match setter zero defaultValue with
  | (_, Some err) =>
      Panicked (Errorw "flag: invalid default value %q: %w" [defaultValue] err)
  | (v, None) => Returned {| value_Value := v; value_Setter := setter |}
  end.

Definition value_Val {T : Type} (v : value T) : T := value_Value v.

Definition value_Set {T : Type} (v : value T) (s : string) : value T * option error :=
  let '(t, err) := value_Setter v (value_Value v) s in
  ({| value_Value := t; value_Setter := value_Setter v |}, err).

Definition value_IsBoolFlag {T : Type} `{GoKind T} (v : value T) : bool :=
  kindIsBool (T := T).

(** ** Accumulating values: [slice] *)

(** The sequence a [slice] holds, as a list.  [Mem] below has the same
    methods over backing arrays, and [MemTheory.slice_Set_refines] relates
    the two. *)
Record slice (T : Type) : Type := mkSlice {
  slice_Value : list T;
  slice_Parse : ValParser T;
  slice_written : bool
}.
Arguments mkSlice {T} _ _ _.
Arguments slice_Value {T} _.
Arguments slice_Parse {T} _.
Arguments slice_written {T} _.

Definition Slice {T : Type} (defaultValue : list T) (parse : ValParser T) : slice T :=
  let vcopy := defaultValue in
  {| slice_Value := vcopy; slice_Parse := parse; slice_written := false |}.

(** The loop of [MustSlice]: the first default that does not parse
    panics. *)
Fixpoint MustSlice_loop {T : Type} (parse : ValParser T) (defaults : list string)
    : outcome (list T) :=
  match defaults with
  | [] => Returned []
  | def :: rest =>
      match parse def with
      | Err err => Panicked (Errorw "flag: invalid default value %q: %w" [def] err)
      | Ok v =>
          match MustSlice_loop parse rest with
          | Returned vs => Returned (v :: vs)
          | Exited c => Exited c
          | Panicked e => Panicked e
          end
      end
  end.

Definition MustSlice {T : Type} (defaults : list string) (parse : ValParser T)
    : outcome (slice T) :=
  match MustSlice_loop parse defaults with
  | Returned vcopy =>
      Returned {| slice_Value := vcopy; slice_Parse := parse; slice_written := false |}
  | Exited c => Exited c
  | Panicked e => Panicked e
  end.

Definition slice_Val {T : Type} (s : slice T) : list T := slice_Value s.

Definition slice_Set {T : Type} (f : slice T) (s : string) : slice T * option error :=
  let f :=
    if negb (slice_written f)
    then {| slice_Value := take 0 (slice_Value f);
            slice_Parse := slice_Parse f;
            slice_written := true |}
    else f in
  match slice_Parse f s with
  | Err err => (f, Some err)
  | Ok v =>
      ({| slice_Value := slice_Value f ++ [v];
          slice_Parse := slice_Parse f;
          slice_written := slice_written f |}, None)
  end.

Definition slice_IsBoolFlag {T : Type} `{GoKind T} (s : slice T) : bool :=
  kindIsBool (T := T).

(** Stock parsers that need no numeric library. *)
Definition parseString (s : string) : result string := Ok s.

(** [strconv.ParseBool]. *)
Definition ParseBool (str : string) : result bool :=
  if decide (str ∈ ["1"; "t"; "T"; "TRUE"; "true"; "True"]) then Ok true
  else if decide (str ∈ ["0"; "f"; "F"; "FALSE"; "false"; "False"]) then Ok false
  else Err (Errorw "strconv.%s: parsing %s: %v" ["ParseBool"; str]
             (ErrorsNew "invalid syntax")).

Definition Bool (defaultValue : bool) : value bool := Var defaultValue (set ParseBool).
Definition Bools (defaults : list bool) : slice bool := Slice defaults ParseBool.
Definition String_ (defaultValue : string) : value string := Var defaultValue (set parseString).
Definition Strings (defaults : list string) : slice string := Slice defaults parseString.

(** Setting a flag several times, as repeated occurrences do. *)
Fixpoint slice_SetAll {T : Type} (f : slice T) (raws : list string)
    : slice T * option error :=
  match raws with
  | [] => (f, None)
  | s :: rest =>
      match slice_Set f s with
      | (f', Some err) => (f', Some err)
      | (f', None) => slice_SetAll f' rest
      end
  end.

(** ** Slices over backing arrays

    The same [slice] where a Go slice is what it is at run time: a header
    [(array, offset, len, cap)] into a backing array that other headers
    may share.  The heap maps the address of each backing array to its
    elements.  [MemTheory.slice_Set_refines] shows that the list-valued
    [slice] above is what these methods compute. *)
Module Mem.
Section Backing.
Context {T : Type}.
(** The zero value of [T] (what [make] fills an array with) and the
    capacity [runtime.growslice] picks from the old capacity and the
    length needed. *)
Variable zero : T.
Variable growslice : nat -> nat -> nat.

Record sliceHdr : Type := mkHdr {
  arr : nat;
  off : nat;
  len : nat;
  cap : nat
}.

Abbreviation heap := (gmap nat (list T)).

(** The elements a header denotes. *)
Definition elems (h : heap) (s : sliceHdr) : list T :=
  take (len s) (drop (off s) (default [] (h !! arr s))).

(** [a[i] = v] on the backing array at address [a]; out of range nothing
    is written (Go panics there, and writes nothing either). *)
Definition store (a i : nat) (v : T) (h : heap) : heap :=
  alter (fun l => <[i := v]> l) a h.

(** [make(S, n)]: a new backing array. *)
Definition make (n : nat) (h : heap) : sliceHdr * heap :=
  let a := fresh (dom h) in
  ({| arr := a; off := 0; len := n; cap := n |}, <[a := replicate n zero]> h).

(** [copy(dst, src)]: the first [min(len(dst), len(src))] elements. *)
Definition copy (dst src : sliceHdr) (h : heap) : heap :=
  let data := take (min (len dst) (len src)) (elems h src) in
  alter (fun l => take (off dst) l ++ data ++ drop (off dst + length data) l)
        (arr dst) h.

(** [s[:0]] *)
Definition reslice0 (s : sliceHdr) : sliceHdr :=
  {| arr := arr s; off := off s; len := 0; cap := cap s |}.

(** [append(s, v)]: in place while the capacity allows, else into a new
    backing array. *)
Definition append (s : sliceHdr) (v : T) (h : heap) : sliceHdr * heap :=
  if decide (len s < cap s) then
    ({| arr := arr s; off := off s; len := S (len s); cap := cap s |},
     store (arr s) (off s + len s) v h)
  else
    let a := fresh (dom h) in
    let c := growslice (cap s) (S (len s)) in
    ({| arr := a; off := 0; len := S (len s); cap := c |},
     <[a := elems h s ++ [v] ++ replicate (c - S (len s)) zero]> h).

Record slice : Type := mkSlice {
  Value : sliceHdr;
  Parse : ValParser T;
  written : bool
}.

Definition Slice (defaultValue : sliceHdr) (parse : ValParser T) (h : heap)
    : slice * heap :=
  let '(vcopy, h) := make (len defaultValue) h in
  let h := copy vcopy defaultValue h in
  ({| Value := vcopy; Parse := parse; written := false |}, h).

Definition slice_Set (f : slice) (s : string) (h : heap)
    : slice * heap * option error :=
  let f :=
    if negb (written f)
    then {| Value := reslice0 (Value f); Parse := Parse f; written := true |}
    else f in
  match Parse f s with
  | Err err => (f, h, Some err)
  | Ok v =>
      let '(hdr, h) := append (Value f) v h in
      ({| Value := hdr; Parse := Parse f; written := written f |}, h, None)
  end.

(** What the program does between declaring the flag and reading it: the
    caller writes into a backing array it holds, or the flag is set. *)
Inductive event : Type :=
| CallerStore (a i : nat) (v : T)
| FlagSet (raw : string).

Definition step (st : slice * heap) (ev : event) : slice * heap :=
  match ev with
  | CallerStore a i v => (st.1, store a i v st.2)
  | FlagSet raw => (slice_Set st.1 raw st.2).1
  end.

Definition run (evs : list event) (st : slice * heap) : slice * heap :=
  foldl step st evs.

(** The caller's part and the flag's part of a sequence of events. *)
Definition callerOnly (evs : list event) (h : heap) : heap :=
  foldl (fun h ev => match ev with CallerStore a i v => store a i v h | FlagSet _ => h end)
        h evs.

Definition rawsOf (evs : list event) : list string :=
  omap (fun ev => match ev with FlagSet raw => Some raw | CallerStore _ _ _ => None end) evs.

(** An event of the caller touches only arrays allocated before the
    flag was declared. *)
Definition callerEvent (h0 : heap) (ev : event) : Prop :=
  match ev with
  | CallerStore a _ _ => a ∈ dom h0
  | FlagSet _ => True
  end.

(** A header that lies within its backing array. *)
Definition valid (h : heap) (s : sliceHdr) : Prop :=
  exists l, h !! arr s = Some l /\ off s + cap s <= length l /\ off s + len s <= length l.
End Backing.
End Mem.

(** The list-valued box a [Mem.slice] stands for in a heap. *)
Definition Mem_abs {T : Type} (h : gmap nat (list T)) (f : Mem.slice) : slice T :=
  {| slice_Value := Mem.elems h (Mem.Value f);
     slice_Parse := Mem.Parse f;
     slice_written := Mem.written f |}.

(** ** The [Getter] interface

    A [Getter] in the registry is an object: the receiver's state and its
    methods.  [Get]/[Val] hand out the pointer to the state and [String]
    renders it; neither is needed below. *)
Record Getter : Type := mkGetter {
  recv : Type;
  self : recv;
  recv_Set : recv -> string -> recv * option error;
  recv_IsBoolFlag : recv -> bool
}.

Definition Getter_Set (g : Getter) (s : string) : Getter * option error :=
  let '(r, err) := recv_Set g (self g) s in
  ({| recv := recv g; self := r; recv_Set := recv_Set g;
      recv_IsBoolFlag := recv_IsBoolFlag g |}, err).

Definition Getter_IsBoolFlag (g : Getter) : bool := recv_IsBoolFlag g (self g).

Definition value_Getter {T : Type} `{GoKind T} (v : value T) : Getter :=
  {| recv := value T; self := v; recv_Set := value_Set;
     recv_IsBoolFlag := value_IsBoolFlag |}.

Definition slice_Getter {T : Type} `{GoKind T} (s : slice T) : Getter :=
  {| recv := slice T; self := s; recv_Set := slice_Set;
     recv_IsBoolFlag := slice_IsBoolFlag |}.

(** ** The standard library's [flag.FlagSet], as [flagr] relies on it

    The maps [formal] and [actual], [Var], [Set], the two walks and
    [Parse] with its tokenizer [parseOne].  What is printed (usage, error
    messages on the output) is left out. *)

(** [ErrorHandling] is an [int]: the three policies the package defines
    (0, 1 and 2), and with [OtherHandling] every other value, which
    [NewFlagSet] and [Init] take as well. *)
Inductive ErrorHandling : Type :=
| ContinueOnError
| ExitOnError
| PanicOnError
| OtherHandling (n : Z).


(** A [Flag] is stored under its [Name], which is therefore the key and
    not a field. *)
Record Flag : Type := mkFlag {
  Usage : string;
  Value : Getter
}.

(** [undef] maps a name that was set before any flag of that name was
    defined to the position of the caller that set it. *)
Record FlagSet : Type := mkFlagSet {
  Name : string;
  parsed : bool;
  actual : gset string;
  formal : gmap string Flag;
  args : list string;
  errorHandling : ErrorHandling;
  undef : gmap string string
}.

Definition with_args (f : FlagSet) (a : list string) : FlagSet :=
  {| Name := Name f; parsed := parsed f; actual := actual f; formal := formal f;
     args := a; errorHandling := errorHandling f; undef := undef f |}.

Definition with_formal (f : FlagSet) (m : gmap string Flag) : FlagSet :=
  {| Name := Name f; parsed := parsed f; actual := actual f; formal := m;
     args := args f; errorHandling := errorHandling f; undef := undef f |}.

Definition with_actual (f : FlagSet) (a : gset string) : FlagSet :=
  {| Name := Name f; parsed := parsed f; actual := a; formal := formal f;
     args := args f; errorHandling := errorHandling f; undef := undef f |}.

Definition with_undef (f : FlagSet) (u : gmap string string) : FlagSet :=
  {| Name := Name f; parsed := parsed f; actual := actual f; formal := formal f;
     args := args f; errorHandling := errorHandling f; undef := u |}.

Definition NewFlagSet (name : string) (errorHandling : ErrorHandling) : FlagSet :=
  {| Name := name; parsed := false; actual := ∅; formal := ∅; args := [];
     errorHandling := errorHandling; undef := ∅ |}.

(** [sortFlags]: the flags of a map in lexicographical order of their
    names ([String.le] compares byte by byte, as Go does). *)
Definition sortFlags (flags : gset string) : list string :=
  merge_sort String.le (elements flags).

(** [VisitAll] and [Visit] walk a sorted copy of the map, taken when they
    are called; [w] is whatever the callback can reach. *)
Definition FlagSet_VisitAll {W : Type} (f : FlagSet) (fn : string -> W -> W) (w : W) : W :=
  foldl (fun w flag => fn flag w) w (sortFlags (dom (formal f))).

Definition FlagSet_Visit {W : Type} (f : FlagSet) (fn : string -> W -> W) (w : W) : W :=
  foldl (fun w flag => fn flag w) w (sortFlags (actual f)).

Definition FlagSet_Lookup (f : FlagSet) (name : string) : option Flag :=
  formal f !! name.

(** [flag.Value.Set(value)] on the flag stored under [name]; the flag
    keeps what the setter wrote, also when it fails. *)
Definition Flag_Value_Set (f : FlagSet) (name : string) (flag : Flag) (value : string)
    : FlagSet * option error :=
  let '(v, err) := Getter_Set (Value flag) value in
  (with_formal f (<[name := {| Usage := Usage flag; Value := v |}]> (formal f)), err).

(** What [runtime.Caller] gives [FlagSet.Set] for its caller, which here
    is always [Set.Set]: the file, with the directory it was built in,
    and the line of the call. *)
Definition Set_caller : string := "flagr.go:168".

Definition FlagSet_Set (f : FlagSet) (name value : string) : FlagSet * option error :=
  match formal f !! name with
  | None =>
      (with_undef f (<[name := Set_caller]> (undef f)),
       Some (Errorf "no such flag -%v" [name]))
  | Some flag =>
      match Flag_Value_Set f name flag value with
      | (f, Some err) => (f, Some err)
      | (f, None) => (with_actual f ({[name]} ∪ actual f), None)
      end
  end.

Definition HasPrefix_minus (name : string) : bool :=
  match name with
  | String c _ => Ascii.eqb c "-"
  | EmptyString => false
  end.

Fixpoint Contains_eq (name : string) : bool :=
  match name with
  | String c rest => Ascii.eqb c "=" || Contains_eq rest
  | EmptyString => false
  end.

Definition FlagSet_Var (f : FlagSet) (value : Getter) (name usage : string)
    : outcome FlagSet :=
  if HasPrefix_minus name then Panicked (Errorf "flag %q begins with -" [name])
  else if Contains_eq name then Panicked (Errorf "flag %q contains =" [name])
  else
    match formal f !! name with
    | Some _ =>
        if bool_decide (Name f = "") then Panicked (Errorf "flag redefined: %s" [name])
        else Panicked (Errorf "%s flag redefined: %s" [Name f; name])
    | None =>
        match undef f !! name with
        | Some pos =>
            Panicked (Errorf "flag %s set at %s before being defined" [name; pos])
        | None =>
            Returned
              (with_formal f (<[name := {| Usage := usage; Value := value |}]> (formal f)))
        end
    end.

(** The first ['='] of a string: what is before it and what is after. *)
Fixpoint cutEq (s : string) : option (string * string) :=
  match s with
  | EmptyString => None
  | String c rest =>
      if Ascii.eqb c "=" then Some (EmptyString, rest)
      else match cutEq rest with
           | Some (before, after) => Some (String c before, after)
           | None => None
           end
  end.

(** The first half of [parseOne]: what the next argument is. *)
Inductive token : Type :=
| NotAFlag
| Terminator
| BadSyntax
| FlagTok (name : string) (hasValue : bool) (value : string).

Definition tokenOf (s : string) : token :=
  match s with
  | String c0 (String c1 r1 as t1) =>
      if negb (Ascii.eqb c0 "-") then NotAFlag
      else if Ascii.eqb c1 "-" && bool_decide (r1 = "") then Terminator
      else
        let name := if Ascii.eqb c1 "-" then r1 else t1 in
        match name with
        | EmptyString => BadSyntax
        | String n0 nrest =>
            if Ascii.eqb n0 "-" || Ascii.eqb n0 "=" then BadSyntax
            else match cutEq nrest with
                 | Some (before, after) => FlagTok (String n0 before) true after
                 | None => FlagTok name false ""
                 end
        end
  | _ => NotAFlag
  end.

(** [parseOne] returns [seen] and the error. *)
Definition FlagSet_parseOne (f : FlagSet) : FlagSet * bool * option error :=
  match args f with
  | [] => (f, false, None)
  | s :: rest =>
      match tokenOf s with
      | NotAFlag => (f, false, None)
      | Terminator => (with_args f rest, false, None)
      | BadSyntax => (f, false, Some (Errorf "bad flag syntax: %s" [s]))
      | FlagTok name hasValue value =>
          let f := with_args f rest in
          match formal f !! name with
          | None =>
              if bool_decide (name = "help") || bool_decide (name = "h")
              then (f, false, Some ErrHelp)
              else (f, false, Some (Errorf "flag provided but not defined: -%s" [name]))
          | Some flag =>
              let '(f, failure) :=
                if Getter_IsBoolFlag (Value flag) then
                  if hasValue then
                    match Flag_Value_Set f name flag value with
                    | (f, Some err) =>
                        (f, Some (Errorw "invalid boolean value %q for -%s: %v" [value; name] err))
                    | (f, None) => (f, None)
                    end
                  else
                    match Flag_Value_Set f name flag "true" with
                    | (f, Some err) =>
                        (f, Some (Errorw "invalid boolean flag %s: %v" [name] err))
                    | (f, None) => (f, None)
                    end
                else
                  let '(hasValue, value, f) :=
                    match hasValue, args f with
                    | false, next :: more => (true, next, with_args f more)
                    | _, _ => (hasValue, value, f)
                    end in
                  if negb hasValue
                  then (f, Some (Errorf "flag needs an argument: -%s" [name]))
                  else
                    match Flag_Value_Set f name flag value with
                    | (f, Some err) =>
                        (f, Some (Errorw "invalid value %q for flag -%s: %v" [value; name] err))
                    | (f, None) => (f, None)
                    end in
              match failure with
              | Some err => (f, false, Some err)
              | None => (with_actual f ({[name]} ∪ actual f), true, None)
              end
          end
      end
  end.

(** The loop of [FlagSet.Parse].  Its [switch] over the policy has a case
    for each of the three constants and no default: under any other
    policy the loop goes on after an error.  A turn that sees a flag
    consumes an argument, and so does one that fails, but for the one
    that fails on the syntax of the argument: under a policy that is none
    of the three this turn repeats for ever.  The result is [None] when
    [fuel] is used up; with more fuel than there are arguments this is
    the loop that does not end ([FlagSet_parseLoop_loops]). *)
Fixpoint FlagSet_parseLoop (fuel : nat) (f : FlagSet)
    : FlagSet * option (outcome (option error)) :=
  match fuel with
  | 0 => (f, None)
  | S fuel =>
      let '(f, seen, err) := FlagSet_parseOne f in
      if seen then FlagSet_parseLoop fuel f
      else
        match err with
        | None => (f, Some (Returned None))
        | Some err =>
            match errorHandling f with
            | ContinueOnError => (f, Some (Returned (Some err)))
            | ExitOnError =>
                (f, Some (Exited (match err with ErrHelp => 0 | _ => 2 end)))
            | PanicOnError => (f, Some (Panicked err))
            | OtherHandling _ => FlagSet_parseLoop fuel f
            end
        end
  end.

Definition FlagSet_Parse (f : FlagSet) (arguments : list string)
    : FlagSet * ending (option error) :=
  let f := {| Name := Name f; parsed := true; actual := actual f; formal := formal f;
              args := arguments; errorHandling := errorHandling f; undef := undef f |} in
  match FlagSet_parseLoop (S (length arguments)) f with
  | (f, Some o) => (f, Ends o)
  | (f, None) => (f, Loops)
  end.

(** The names [Parse] binds, one per turn of its loop that sees a flag,
    in the order of the arguments. *)
Fixpoint boundNames (fuel : nat) (f : FlagSet) : list string :=
  match fuel with
  | 0 => []
  | S fuel =>
      match FlagSet_parseOne f, args f with
      | (f', true, _), s :: _ =>
          match tokenOf s with
          | FlagTok name _ _ => name :: boundNames fuel f'
          | _ => boundNames fuel f'
          end
      | (f', false, Some _), _ =>
          match errorHandling f' with
          | OtherHandling _ => boundNames fuel f'
          | _ => []
          end
      | _, _ => []
      end
  end.

(** [FlagSet.Init(name, errorHandling)]. *)
Definition FlagSet_Init (f : FlagSet) (name : string) (errorHandling : ErrorHandling)
    : FlagSet :=
  {| Name := name; parsed := parsed f; actual := actual f; formal := formal f;
     args := args f; errorHandling := errorHandling; undef := undef f |}.

(** ** [flagr.Set]

    A nil [fs] and a nil [provideMap] read like empty ones, and [init]
    replaces them by empty ones before any write; the record holds the
    maps themselves, so that the zero [Set] is [zeroSet] and [init] has
    nothing left to do. *)
Definition Source : Type := string.

Definition SourceDefaultVal : Source := "default".
Definition SourceFlags : Source := "flags".

Record Set' : Type := mkSet {
  fs : FlagSet;
  provideMap : gmap string Source
}.

Definition zeroSet : Set' :=
  {| fs := NewFlagSet "" ContinueOnError; provideMap := ∅ |}.

Definition NewSet (name : string) (errorHandling : ErrorHandling) : Set' :=
  {| fs := NewFlagSet name errorHandling; provideMap := ∅ |}.

Definition with_fs (set : Set') (f : FlagSet) : Set' :=
  {| fs := f; provideMap := provideMap set |}.

Definition with_provideMap (set : Set') (m : gmap string Source) : Set' :=
  {| fs := fs set; provideMap := m |}.

(** The callback of a visit and [Parser]: closures over [x] and the set.
    A [Parser] returns; a [Pass] is a parser with the way its call ends,
    which may also be a panic or an exit, and [returning] makes a pass of
    a parser that returns. *)
Definition Callback (X : Type) : Type := string -> X * Set' -> X * Set' * option error.
Definition Parser (X : Type) : Type := X * Set' -> X * Set' * option error.
Definition Pass (X : Type) : Type := X * Set' -> X * Set' * outcome (option error).

Definition returning {X : Type} (parser : Parser X) : Pass X :=
  fun w => let '(w, err) := parser w in (w, Returned err).

(** The closure both [VisitAll] and [Visit] hand to the flag set; it
    captures [visitErr]. *)
Definition visitClosure {X : Type} (fn : Callback X)
    : string -> X * Set' * option error -> X * Set' * option error :=
  fun f '(w, visitErr) =>
    match visitErr with
    | Some _ => (w, visitErr)
    | None => fn f w
    end.

Definition Set_VisitAll {X : Type} (fn : Callback X) (w : X * Set')
    : X * Set' * option error :=
  FlagSet_VisitAll (fs w.2) (visitClosure fn) (w, None).

Definition Set_Visit {X : Type} (fn : Callback X) (w : X * Set')
    : X * Set' * option error :=
  FlagSet_Visit (fs w.2) (visitClosure fn) (w, None).

Definition Set_VisitRemaining {X : Type} (fn : Callback X) (w : X * Set')
    : X * Set' * option error :=
  let visited : gset string := ∅ in
  let '(visited, set, _) :=
    Set_Visit (fun f '(visited, set) => ({[f]} ∪ visited, set, None)) (visited, w.2) in
  Set_VisitAll
    (fun f w => if decide (f ∈ visited) then (w, None) else fn f w)
    (w.1, set).

Definition Set_Lookup (set : Set') (name : string) : option Flag :=
  FlagSet_Lookup (fs set) name.

Definition Set_Set (src : Source) (name value : string) (set : Set')
    : Set' * option error :=
  match FlagSet_Set (fs set) name value with
  | (f, Some err) => (with_fs set f, Some err)
  | (f, None) => (with_provideMap (with_fs set f) (<[name := src]> (provideMap set)), None)
  end.

(** The two walks of [Parse] that stamp the provenance. *)
Definition stampProvenance (set : Set') : Set' :=
  let set :=
    FlagSet_VisitAll (fs set)
      (fun f set => with_provideMap set (<[f := SourceDefaultVal]> (provideMap set))) set in
  FlagSet_Visit (fs set)
    (fun f set => with_provideMap set (<[f := SourceFlags]> (provideMap set))) set.

(** The loop of [Parse] over [extraParsers].  The [switch] over the
    policy has no default: under a policy that is none of the three
    constants the error is dropped and the loop goes on.  A parser that
    panics or exits ends [Parse] that way. *)
Fixpoint runParsers {X : Type} (extraParsers : list (Pass X)) (w : X * Set')
    : X * Set' * outcome (option error) :=
  match extraParsers with
  | [] => (w, Returned None)
  | parser :: rest =>
      match parser w with
      | (w, Returned (Some err)) =>
          match errorHandling (fs w.2) with
          | ContinueOnError => (w, Returned (Some err))
          | ExitOnError => (w, Exited 2)
          | PanicOnError => (w, Panicked err)
          | OtherHandling _ => runParsers rest w
          end
      | (w, Returned None) => runParsers rest w
      | (w, Exited code) => (w, Exited code)
      | (w, Panicked p) => (w, Panicked p)
      end
  end.

Definition Set_Parse {X : Type} (arguments : list string) (extraParsers : list (Pass X))
    (w : X * Set') : X * Set' * ending (option error) :=
  match FlagSet_Parse (fs w.2) arguments with
  | (f, Ends (Returned None)) =>
      let r := runParsers extraParsers (w.1, stampProvenance (with_fs w.2 f)) in
      (r.1, Ends r.2)
  | (f, failure) => ((w.1, with_fs w.2 f), failure)
  end.

Definition Set_Init (set : Set') (name : string) (errorHandling : ErrorHandling) : Set' :=
  with_fs set (FlagSet_Init (fs set) name errorHandling).

Definition Add (set : Set') (name : string) (value : Getter) (usage : string)
    : outcome Set' :=
  match FlagSet_Var (fs set) value name usage with
  | Returned f => Returned (with_fs set f)
  | Exited c => Exited c
  | Panicked e => Panicked e
  end.

(** Declaring a list of flags on the zero [Set], one [Add] each. *)
Fixpoint declare (set : Set') (decls : list (string * Getter)) : outcome Set' :=
  match decls with
  | [] => Returned set
  | (name, value) :: rest =>
      match Add set name value "" with
      | Returned set => declare set rest
      | stop => stop
      end
  end.

(** ** Package [env] *)

(** [strings.Split(s, sep)] for a separator that is not empty, the only
    way [env] calls it: [skip] counts the bytes of a separator still to
    pass over, [cur] is the piece read so far. *)
Fixpoint Split_go (sep : string) (skip : nat) (cur s : string) : list string :=
  match s with
  | EmptyString => [cur]
  | String c rest =>
      match skip with
      | S k => Split_go sep k cur rest
      | 0 =>
          if String.prefix sep s
          then cur :: Split_go sep (String.length sep - 1) "" rest
          else Split_go sep 0 (cur +:+ String c "") rest
      end
  end.

Definition strings_Split (s sep : string) : list string := Split_go sep 0 "" s.

Definition Splitter : Type := string.
Definition NoSplit : Splitter := "".

Definition Mapper : Type := string -> string * Splitter.
Definition LookupFunc : Type := string -> string * bool.

(** What [env] asks of the operating system: opening a file gives its
    contents or an error, [errors.Is(err, fs.ErrNotExist)], and
    [envparse.Parse]. *)
Record OS : Type := mkOS {
  os_Open : string -> result string;
  is_ErrNotExist : error -> bool;
  envparse_Parse : string -> result (gmap string string)
}.

(** [envFile] is a pointer to a path that is read when the parser runs,
    out of whatever it points into. *)
Record options (X : Type) : Type := mkOptions {
  prefix : string;
  mapper : Mapper;
  lookupFunc : LookupFunc;
  envFile : option (X * Set' -> string);
  envFileOptional : bool
}.
Arguments mkOptions {X} _ _ _ _ _.
Arguments prefix {X} _.
Arguments mapper {X} _.
Arguments lookupFunc {X} _.
Arguments envFile {X} _.
Arguments envFileOptional {X} _.

Definition maybeParseEnvFile (os : OS) (path : string) (ignoreMissing : bool)
    : result (gmap string string) :=
  match os_Open os path with
  | Err err =>
      if ignoreMissing && is_ErrNotExist os err then Ok ∅ else Err err
  | Ok f => envparse_Parse os f
  end.

(** The loop over the pieces of a split value. *)
Fixpoint setEach (src : Source) (flag : string) (vals : list string) (set : Set')
    : Set' * option error :=
  match vals with
  | [] => (set, None)
  | val :: rest =>
      match Set_Set src flag val set with
      | (set, Some err) => (set, Some (Errorw "env: %w" [] err))
      | (set, None) => setEach src flag rest set
      end
  end.

(** The callback [env.Parse] gives to [VisitRemaining]. *)
Definition env_visit {X : Type} (o : options X) (fileData : gmap string string)
    : Callback X :=
  fun flag w =>
    let '(name, splitValBy) := mapper o (prefix o +:+ flag) in
    let src : Source := "env: " +:+ name in
    let '(val, ok) := lookupFunc o name in
    let '(val, ok, src) :=
      if negb ok then
        let '(val, ok) :=
          match fileData !! name with
          | Some v => (v, true)
          | None => ("", false)
          end in
        match envFile o with
        | Some path => (val, ok, "envfile[" +:+ path w +:+ "]: " +:+ name)
        | None => (val, ok, src)
        end
      else (val, ok, src) in
    if negb ok then (w, None)
    else if negb (bool_decide (splitValBy = ""))
    then
      let '(set, err) := setEach src flag (strings_Split val splitValBy) w.2 in
      ((w.1, set), err)
    else
      match Set_Set src flag val w.2 with
      | (set, Some err) => ((w.1, set), Some (Errorw "env: %w" [] err))
      | (set, None) => ((w.1, set), None)
      end.

Definition env_Parse {X : Type} (os : OS) (o : options X) : Parser X :=
  fun w =>
    let fileData :=
      match envFile o with
      | Some path =>
          match maybeParseEnvFile os (path w) (envFileOptional o) with
          | Err err =>
              Err (Errorw "env: unable to parse env file %q: %w" [path w] err)
          | Ok fd => Ok fd
          end
      | None => Ok ∅
      end in
    match fileData with
    | Err err => (w, Some err)
    | Ok fileData => Set_VisitRemaining (env_visit o fileData) w
    end.

(** ** Observing calls

    Which flags a callback was invoked on, and which parsers ran, is read
    off a log the closure keeps among its captured variables, the way the
    repository's tests observe it.  An entry holds what was invoked and
    the error it returned; for a parser, how its call ended and the
    policy of the registry at that moment. *)
Definition logged {X : Type} (fn : Callback X) : Callback (list (string * option error) * X) :=
  fun f '((log, x), set) =>
    let '((x, set), err) := fn f (x, set) in
    (((log ++ [(f, err)], x), set), err).

Definition Trace : Type := list (nat * outcome (option error) * ErrorHandling).

Definition traced {X : Type} (i : nat) (p : Pass X) : Pass (Trace * X) :=
  fun '((log, x), set) =>
    let '((x, set), o) := p (x, set) in
    (((log ++ [(i, o, errorHandling (fs set))], x), set), o).

Definition tracedAll {X : Type} (ps : list (Pass X)) : list (Pass (Trace * X)) :=
  imap traced ps.

(** Forgetting the log. *)
Definition unlog {L X A : Type} (r : (L * X) * Set' * A) : X * Set' * A :=
  ((r.1.1.2, r.1.2), r.2).

(** The log of a walk over [names] that stops at the first error: every
    name with a nil error when [err] is nil, else the names up to the one
    on which [err] was returned. *)
Definition shortCircuits {K : Type} (names : list K) (log : list (K * option error))
    (err : option error) : Prop :=
  match err with
  | None => log = (fun f => (f, None)) <$> names
  | Some e =>
      exists pre f post,
        names = pre ++ f :: post /\
        log = ((fun f => (f, None)) <$> pre) ++ [(f, Some e)]
  end.

(** The flags of a set that have not been set, in the order of a walk. *)
Definition remaining (set : Set') : list string :=
  filter (fun f => f ∉ actual (fs set)) (sortFlags (dom (formal (fs set)))).

(** Strictly increasing names. *)
Definition lexicographic (names : list string) : Prop :=
  StronglySorted (strict String.le) names.

(** The names the primary parse of [arguments] binds. *)
Definition primaryBound (f : FlagSet) (arguments : list string) : list string :=
  boundNames (S (length arguments))
    {| Name := Name f; parsed := true; actual := actual f; formal := formal f;
       args := arguments; errorHandling := errorHandling f; undef := undef f |}.

(** A callback that touches the set only by setting the flag it is
    visiting, any number of times. *)
Definition setsVisitedOnly {X : Type} (cb : Callback X) : Prop :=
  forall f w, exists calls : list (Source * string),
    (cb f w).1.2 = foldl (fun set c => (Set_Set c.1 f c.2 set).1) w.2 calls.

(** A call of [Set.Set]: the source, the name and the value; and the
    registry after a list of calls. *)
Definition SetCall : Type := Source * string * string.

Definition applyCalls (calls : list SetCall) (set : Set') : Set' :=
  foldl (fun set c => (Set_Set c.1.1 c.1.2 c.2 set).1) set calls.

(** A pass that finds the flags it sets through [VisitRemaining] only:
    on every input it either leaves the set alone or leaves it the way a
    [VisitRemaining] walk of such a callback does, whatever the callback
    captures and however the pass ends. *)
Definition remainingPass {X : Type} (p : Pass X) : Prop :=
  forall w,
    (p w).1.2 = w.2 \/
    exists (Y : Type) (cb : Callback Y) (y : Y),
      setsVisitedOnly cb /\ (p w).1.2 = (Set_VisitRemaining cb (y, w.2)).1.2.




(** ** A registry to run the definitions on

    The flags of the repository's walk test, with stock values that need
    no numeric parser, and an environment in which every flag has a
    variable. *)
Definition demoDecls : list (string * Getter) :=
  [("a", value_Getter (String_ "0"));
   ("b", value_Getter (String_ "0"));
   ("c", slice_Getter (Strings ["x"; "y"]));
   ("d", value_Getter (Bool false))].

Definition demoSet : Set' :=
  match declare zeroSet demoDecls with
  | Returned registry => registry
  | _ => zeroSet
  end.

(** The registry after a [Set.Set] of [a] that came before any [Parse]. *)
Definition demoPreset : Set' := (Set_Set "env: A" "a" "1" demoSet).1.

(** Two passes: one that returns an error and one that returns nil. *)
Definition demoFailing : Pass unit :=
  fun w => (w, Returned (Some (ErrorsNew "parser 0 failed"))).

Definition demoPassing : Pass unit := fun w => (w, Returned None).

Definition demoOS : OS :=
  {| os_Open := fun _ => Err (ErrorsNew "file does not exist");
     is_ErrNotExist := fun _ => true;
     envparse_Parse := fun _ => Ok ∅ |}.

Definition demoOptions : options unit :=
  {| prefix := "";
     mapper := fun flagName => (flagName, NoSplit);
     lookupFunc := fun _ => ("true", true);
     envFile := None;
     envFileOptional := false |}.

(** A heap with one array, a default slice over its first two elements,
    and a program that sets the flag three times while the caller
    overwrites the default. *)
Definition demoHeap : gmap nat (list string) := {[ 0 := ["x"; "y"; "spare"] ]}.

Definition demoDefault : Mem.sliceHdr :=
  {| Mem.arr := 0; Mem.off := 0; Mem.len := 2; Mem.cap := 3 |}.

Definition demoEvents : list (Mem.event (T := string)) :=
  [Mem.FlagSet "1"; Mem.CallerStore 0 0 "z"; Mem.FlagSet "2"; Mem.FlagSet "3";
   Mem.CallerStore 0 1 "w"].

Definition demoGrow (oldCap needed : nat) : nat := 2 * needed.

(** ** More of [flagr.Set]: what is left of the arguments, and the report *)

Definition Set_NFlag (set : Set') : nat := size (actual (fs set)).
Definition Set_Args (set : Set') : list string := args (fs set).
Definition Set_NArg (set : Set') : nat := length (args (fs set)).
Definition Set_Parsed (set : Set') : bool := parsed (fs set).

(** [Arg(i)]: the empty string when there is no such argument. *)
Definition Set_Arg (set : Set') (i : Z) : string :=
  if (i <? 0)%Z || (Z.of_nat (length (args (fs set))) <=? i)%Z then ""
  else nth (Z.to_nat i) (args (fs set)) "".

(** [len(p)] and [strings.Repeat(" ", n)]. *)
Definition spaces (n : nat) : string := string_of_list_ascii (replicate n " "%char).

(** The rows [PrintValues] collects while it walks all flags: the prefix
    ["  -name value"] and the suffix ["(source)\n"] of each line.
    [render] is [flag.Value.String()]; a flag without an entry in
    [provideMap] has the empty source. *)
Definition PrintValues_rows (render : Getter -> string) (set : Set')
    : list (string * string) :=
  FlagSet_VisitAll (fs set)
    (fun flag rows =>
       match formal (fs set) !! flag with
       | Some fl =>
           rows ++ [("  -" +:+ flag +:+ " " +:+ render (Value fl),
                     "(" +:+ default "" (provideMap set !! flag) +:+ ")" +:+ String "010" "")]
       | None => rows
       end)
    [].

(** The widest prefix. *)
Definition PrintValues_max (rows : list (string * string)) : nat :=
  foldl (fun max row => if decide (max < String.length row.1) then String.length row.1 else max)
        0 rows.

(** What [PrintValues] writes. *)
Definition PrintValues (render : Getter -> string) (set : Set') : string :=
  let name := Name (fs set) in
  let header :=
    if bool_decide (name = "") then "Current configuration:" +:+ String "010" ""
    else "Current configuration of " +:+ name +:+ ":" +:+ String "010" "" in
  let rows := PrintValues_rows render set in
  let max := PrintValues_max rows in
  foldl (fun out row =>
           out +:+ row.1 +:+ spaces (max - String.length row.1 + 1) +:+ row.2)
        header rows.

(** ** More of package [env]: [DefaultMapper] *)

(** A byte of [[a-zA-Z0-9_]]. *)
Definition isWordByte (c : ascii) : bool :=
  let n := N_of_ascii c in
  ((97 <=? n) && (n <=? 122) || (65 <=? n) && (n <=? 90) ||
   (48 <=? n) && (n <=? 57) || (n =? 95))%N.

(** [strings.ToUpper] on a byte of an ASCII string. *)
Definition toUpperByte (c : ascii) : ascii :=
  let n := N_of_ascii c in
  if ((97 <=? n) && (n <=? 122))%N then ascii_of_N (n - 32) else c.

Definition inRange (lo hi : N) (c : ascii) : bool :=
  ((lo <=? N_of_ascii c) && (N_of_ascii c <=? hi))%N.

(** The width of the first rune of a string that is not empty, as
    [utf8.DecodeRuneInString] finds it: the length of a well-formed UTF-8
    sequence, and 1 for an ASCII byte and for a byte that starts none. *)
Definition runeWidth (s : string) : nat :=
  match s with
  | EmptyString => 0
  | String s0 rest =>
      let two (lo hi : N) :=
        match rest with
        | String s1 _ => if inRange lo hi s1 then 2 else 1
        | _ => 1
        end in
      let three (lo hi : N) :=
        match rest with
        | String s1 (String s2 _) =>
            if inRange lo hi s1 && inRange 128 191 s2 then 3 else 1
        | _ => 1
        end in
      let four (lo hi : N) :=
        match rest with
        | String s1 (String s2 (String s3 _)) =>
            if inRange lo hi s1 && inRange 128 191 s2 && inRange 128 191 s3 then 4 else 1
        | _ => 1
        end in
      if inRange 194 223 s0 then two 128%N 191%N
      else if inRange 224 224 s0 then three 160%N 191%N
      else if inRange 225 236 s0 || inRange 238 239 s0 then three 128%N 191%N
      else if inRange 237 237 s0 then three 128%N 159%N
      else if inRange 240 240 s0 then four 144%N 191%N
      else if inRange 241 243 s0 then four 128%N 191%N
      else if inRange 244 244 s0 then four 128%N 143%N
      else 1
  end.

(** [defaultMapperRegex.ReplaceAllLiteralString(s, "_")]: every rune
    outside [[a-zA-Z0-9_]] becomes one underscore; [skip] counts the
    bytes of that rune still to pass over. *)
Fixpoint replaceNonWord (skip : nat) (s : string) : string :=
  match s with
  | EmptyString => EmptyString
  | String c rest =>
      match skip with
      | S k => replaceNonWord k rest
      | 0 =>
          if isWordByte c then String c (replaceNonWord 0 rest)
          else String "_" (replaceNonWord (runeWidth s - 1) rest)
      end
  end.

Fixpoint ToUpper_ascii (s : string) : string :=
  match s with
  | EmptyString => EmptyString
  | String c rest => String (toUpperByte c) (ToUpper_ascii rest)
  end.

Definition DefaultMapper (splitter : Splitter) : Mapper :=
  fun flagName => (ToUpper_ascii (replaceNonWord 0 flagName), splitter).

(** A byte of [[A-Z0-9_]]. *)
Definition isEnvByte (c : ascii) : bool :=
  let n := N_of_ascii c in
  ((65 <=? n) && (n <=? 90) || (48 <=? n) && (n <=? 57) || (n =? 95))%N.

Fixpoint allBytes (P : ascii -> bool) (s : string) : bool :=
  match s with
  | EmptyString => true
  | String c rest => P c && allBytes P rest
  end.

(** [env.Parse(opts...)]: the options applied in order to the defaults;
    [osLookupEnv] is [os.LookupEnv]. *)
Definition Option_ (X : Type) : Type := options X -> options X.

Definition WithLookupFunc {X : Type} (fn : LookupFunc) : Option_ X :=
  fun o => {| prefix := prefix o; mapper := mapper o; lookupFunc := fn;
              envFile := envFile o; envFileOptional := envFileOptional o |}.

Definition WithDotEnv {X : Type} (path : X * Set' -> string) (optional : bool) : Option_ X :=
  fun o => {| prefix := prefix o; mapper := mapper o; lookupFunc := lookupFunc o;
              envFile := Some path; envFileOptional := optional |}.

Definition WithStaticDotEnv {X : Type} (path : string) (optional : bool) : Option_ X :=
  WithDotEnv (fun _ => path) optional.

Definition WithMapper {X : Type} (fn : Mapper) : Option_ X :=
  fun o => {| prefix := prefix o; mapper := fn; lookupFunc := lookupFunc o;
              envFile := envFile o; envFileOptional := envFileOptional o |}.

Definition WithPrefix {X : Type} (s : string) : Option_ X :=
  fun o => {| prefix := s +:+ "_"; mapper := mapper o; lookupFunc := lookupFunc o;
              envFile := envFile o; envFileOptional := envFileOptional o |}.

Definition env_Parse_opts {X : Type} (os : OS) (osLookupEnv : LookupFunc)
    (opts : list (Option_ X)) : Parser X :=
  env_Parse os
    (foldl (fun o opt => opt o)
       {| prefix := ""; mapper := DefaultMapper ""; lookupFunc := osLookupEnv;
          envFile := None; envFileOptional := false |}
       opts).

(** ** Package [file]

    The decoded configuration is walked through [reflect]; [rvalue] is a
    [reflect.Value] as far as [find] and [stringify] look at it: the zero
    [Value] ([Invalid]), the kinds they tell apart, an interface or a
    pointer with what [Elem()] gives ([Invalid] when it is nil), and
    every other kind with the name of its type.  [RMap] is a map that a
    string can index (its keys are strings or interfaces); [F] stands for
    the floats. *)
Module file.
Section File.
Context {F : Type}.
(** [strconv.FormatFloat(x, 'f', -1, 64)], [errors.Is(err, fs.ErrNotExist)]
    and the primary file system [osFS]. *)
Variable FormatFloat : F -> string.
Variable is_ErrNotExist : error -> bool.

#[warnings="-register-all"]
Inductive rvalue : Type :=
| Invalid
| RBool (b : bool)
| RInt (z : Z)
| RUint (n : N)
| RFloat (x : F)
| RString (s : string)
| RSlice (elems : list rvalue)
| RMap (typ : string) (m : gmap string rvalue)
| RInterface (elem : rvalue)
| RPointer (elem : rvalue)
| ROther (typ : string).

Definition KeyPathSeparator : string := ".".

Definition KeyPath_Split (k : string) : list string := strings_Split k KeyPathSeparator.

Definition NoopMapper (flagName : string) : string := flagName.

Definition IsValid (rv : rvalue) : bool :=
  match rv with
  | Invalid => false
  | _ => true
  end.

Definition unwrap (rv : rvalue) : rvalue :=
  match rv with
  | RInterface elem | RPointer elem => elem
  | _ => rv
  end.

(** [rv.MapIndex(reflect.ValueOf(segment))]: the zero [Value] for a key
    that is not in the map, a panic on anything but a map. *)
Definition MapIndex (rv : rvalue) (segment : string) : outcome rvalue :=
  match rv with
  | RMap _ m => Returned (default Invalid (m !! segment))
  | _ => Panicked (ErrorsNew "reflect: call of reflect.Value.MapIndex on a Value that is no map")
  end.

Fixpoint find_loop (rv : rvalue) (segments : list string) : outcome (rvalue * bool) :=
  match segments with
  | [] => Returned (rv, true)
  | segment :: rest =>
      match MapIndex rv segment with
      | Returned elem =>
          let rv := unwrap elem in
          if negb (IsValid rv) then Returned (Invalid, false)
          else find_loop rv rest
      | Exited code => Exited code
      | Panicked p => Panicked p
      end
  end.

(** [root] is the [map[string]any] the decoder filled. *)
Definition find (root : gmap string rvalue) (key : string) : outcome (rvalue * bool) :=
  find_loop (unwrap (RMap "map[string]interface {}" root)) (KeyPath_Split key).

Definition FormatBool (b : bool) : string := if b then "true" else "false".

(** [stringify] appends to [*values], also before an error; it returns
    the list and the error.  [v.Type()] panics on the zero [Value]. *)
Fixpoint stringify (v : rvalue) (values : list string) : outcome (list string * option error) :=
  match v with
  | RBool b => Returned (values ++ [FormatBool b], None)
  | RInt z => Returned (values ++ [pretty z], None)
  | RUint n => Returned (values ++ [pretty n], None)
  | RFloat x => Returned (values ++ [FormatFloat x], None)
  | RInterface elem | RPointer elem => stringify elem values
  | RSlice elems =>
      (fix loop (elems : list rvalue) (values : list string)
         : outcome (list string * option error) :=
         match elems with
         | [] => Returned (values, None)
         | elem :: rest =>
             match stringify elem values with
             | Returned (values, None) => loop rest values
             | stop => stop
             end
         end) elems values
  | RString s => Returned (values ++ [s], None)
  | Invalid => Panicked (ErrorsNew "reflect: call of reflect.Value.Type on zero Value")
  | RMap typ _ | ROther typ => Returned (values, Some (Errorf "unsupported type %q" [typ]))
  end.

(** The loop of [stringify] over the elements of a slice. *)
Fixpoint stringify_elems (elems : list rvalue) (values : list string)
    : outcome (list string * option error) :=
  match elems with
  | [] => Returned (values, None)
  | elem :: rest =>
      match stringify elem values with
      | Returned (values, None) => stringify_elems rest values
      | stop => stop
      end
  end.

(** The errors of the package, by their [Error()] format and [Unwrap()]. *)
Definition ErrVal (Key : string) (Err : error) : error :=
  Errorw "file: invalid value for path %q: %s" [Key] Err.

Fixpoint joinExts (exts : list string) : string :=
  match exts with
  | [] => ""
  | [ext] => ext
  | ext :: rest => ext +:+ ", " +:+ joinExts rest
  end.

Definition ErrUnsupported (Ext : string) (Available : list string) : error :=
  Errorf "file: unsupported extension %q, must be one of: %s" [Ext; joinExts Available].

Definition ErrDecode (Err : error) : error :=
  Errorw "file: unable to decode: %s" [] Err.

(** [filepath.Ext] with ['/'] as the separator: from the last dot of the
    last element of the path; [cur] is the candidate found so far. *)
Fixpoint Ext_go (cur : string) (path : string) : string :=
  match path with
  | EmptyString => cur
  | String c rest =>
      if Ascii.eqb c "/" then Ext_go "" rest
      else if Ascii.eqb c "." then Ext_go path rest
      else Ext_go cur rest
  end.

Definition filepath_Ext (path : string) : string := Ext_go "" path.

(** An [fs.FS]: [Open] gives the file or an error, and the file what
    [io.ReadAll] reads from it or an error. *)
Record FS : Type := mkFS {
  Open : string -> result (result string)
}.

Variable osFS : FS.

Definition DecoderFunc : Type := string -> result (gmap string rvalue).

(** The keys of a [Mux], in the order its iteration gives them (which Go
    leaves open). *)
Definition supportedExts (m : gmap string DecoderFunc) : list string :=
  elements (dom m).

Record Options : Type := mkOptions {
  Mapper : string -> string;
  IgnoreMissingFile : bool;
  FS_ : option FS
}.

Definition WithMapper (n : string -> string) (o : Options) : Options :=
  {| Mapper := n; IgnoreMissingFile := IgnoreMissingFile o; FS_ := FS_ o |}.

Definition WithIgnoreMissingFile (o : Options) : Options :=
  {| Mapper := Mapper o; IgnoreMissingFile := true; FS_ := FS_ o |}.

Definition WithFS (fsys : FS) (o : Options) : Options :=
  {| Mapper := Mapper o; IgnoreMissingFile := IgnoreMissingFile o; FS_ := Some fsys |}.

(** The loop over the strings of a value; the error of [Set] is returned
    as it is. *)
Fixpoint setEach (flag : string) (vals : list string) (set : Set')
    : Set' * option error :=
  match vals with
  | [] => (set, None)
  | val :: rest =>
      match Set_Set "file TODO" flag val set with
      | (set, Some err) => (set, Some err)
      | (set, None) => setEach flag rest set
      end
  end.

(** The callback [Parse] gives to [VisitRemaining].  A panic of [find] or
    [stringify] unwinds through the walk: the closure keeps it in
    [panic] and stops the walk, which nothing follows. *)
Definition visit {X : Type} (opts : Options) (values : gmap string rvalue)
    : Callback (option error * X) :=
  fun f w =>
    let key := Mapper opts f in
    match find values key with
    | Returned (wrapper, ok) =>
        if negb ok then (w, None)
        else
          match stringify wrapper [] with
          | Returned (vals, Some err) => (w, Some (ErrVal key err))
          | Returned (vals, None) =>
              let '(set, err) := setEach f vals w.2 in ((w.1, set), err)
          | Exited _ => (w, None)
          | Panicked p => (((Some p, w.1.2), w.2), Some p)
          end
    | Exited _ => (w, None)
    | Panicked p => (((Some p, w.1.2), w.2), Some p)
    end.

(** The parser [Parse] returns, with the panics it can end in. *)
Definition run {X : Type} (path : X * Set' -> string) (mux : gmap string DecoderFunc)
    (opts : Options) (w : X * Set') : X * Set' * outcome (option error) :=
  match Open (default osFS (FS_ opts)) (path w) with
  | Err err =>
      if is_ErrNotExist err && IgnoreMissingFile opts then (w, Returned None)
      else (w, Returned (Some (Errorw "file: %w" [] err)))
  | Ok f =>
      match f with
      | Err err => (w, Returned (Some (Errorw "file: %w" [] err)))
      | Ok data =>
          let ext := filepath_Ext (path w) in
          match mux !! ext with
          | None => (w, Returned (Some (ErrUnsupported ext (supportedExts mux))))
          | Some decoder =>
              match decoder data with
              | Err err => (w, Returned (Some (ErrDecode err)))
              | Ok values =>
                  let r := Set_VisitRemaining (visit opts values) ((None, w.1), w.2) in
                  match r.1.1.1 with
                  | Some p => ((r.1.1.2, r.1.2), Panicked p)
                  | None => ((r.1.1.2, r.1.2), Returned r.2)
                  end
              end
          end
      end
  end.

(** [Parse(path, mux, options...)]: a nil [path] and an empty [mux]
    panic before any parser is made. *)
Definition Parse {X : Type} (path : option (X * Set' -> string))
    (mux : gmap string DecoderFunc) (options : list (Options -> Options))
    : outcome (X * Set' -> X * Set' * outcome (option error)) :=
  match path with
  | None => Panicked (ErrorsNew "file: path cannot be nil")
  | Some path =>
      let opts :=
        foldl (fun o opt => opt o)
          {| Mapper := NoopMapper; IgnoreMissingFile := false; FS_ := None |} options in
      if decide (size mux = 0) then Panicked (ErrorsNew "file: len(mux) cannot be 0")
      else Returned (run path mux opts)
  end.
End File.
End file.

(** ** What the properties of package [file] are stated with *)

(** [strings.Join(elems, sep)]. *)
Fixpoint strings_Join (elems : list string) (sep : string) : string :=
  match elems with
  | [] => ""
  | [e] => e
  | e :: rest => e +:+ sep +:+ strings_Join rest sep
  end.

(** A byte other than the separator of key paths. *)
Definition notSeparator (c : ascii) : bool := negb (Ascii.eqb c ".").

(** A configuration to run package [file] on: floats are kept as the
    text they are written with, the only file is [conf.json], and the
    decoder gives what [encoding/json] makes of

      { "a": "from the file", "c": ["p", ["q"]], "d": { "e": true },
        "n": null, "l": [1, null], "b": { "x": 1 } }  *)
Definition demoIsNotExist (err : error) : bool :=
  match err with
  | ErrorsNew "file does not exist" => true
  | _ => false
  end.

Definition demoFS : file.FS :=
  {| file.Open := fun name =>
       if bool_decide (name = "conf.json") then Ok (Ok "{ ... }")
       else if bool_decide (name = "conf.yaml") then Ok (Ok "...")
       else if bool_decide (name = "broken.json") then Ok (Ok "{")
       else if bool_decide (name = "dir.json") then Ok (Err (ErrorsNew "is a directory"))
       else Err (ErrorsNew "file does not exist") |}.

Definition demoObject (m : gmap string (file.rvalue (F := string))) : file.rvalue :=
  file.RInterface (file.RMap "map[string]interface {}" m).

Definition demoList (elems : list (file.rvalue (F := string))) : file.rvalue :=
  file.RInterface (file.RSlice elems).

Definition demoValues : gmap string (file.rvalue (F := string)) :=
  {[ "a" := file.RInterface (file.RString "from the file");
     "c" := demoList [file.RInterface (file.RString "p");
                      demoList [file.RInterface (file.RString "q")]];
     "d" := demoObject {[ "e" := file.RInterface (file.RBool true) ]};
     "n" := file.RInterface file.Invalid;
     "l" := demoList [file.RInterface (file.RFloat "1"); file.RInterface file.Invalid];
     "b" := demoObject {[ "x" := file.RInterface (file.RFloat "1") ]} ]}.

Definition demoMux : gmap string (file.DecoderFunc (F := string)) :=
  {[ ".json" := fun data =>
       if bool_decide (data = "{") then Err (ErrorsNew "unexpected end of JSON input")
       else Ok demoValues ]}.

Definition demoFileOptions : file.Options :=
  {| file.Mapper := file.NoopMapper; file.IgnoreMissingFile := false;
     file.FS_ := Some demoFS |}.

(** The parser [file.Parse] returns for [path] and [demoMux]. *)
Definition demoFileParser (path : string) (opts : file.Options)
    : unit * Set' -> unit * Set' * outcome (option error) :=
  file.run (fun x => x) demoIsNotExist demoFS (fun _ => path) demoMux opts.

(** * Properties *)

(** ** Typed values *)

Section ValueFacts.
Context {T : Type}.
Implicit Types (parse : ValParser T) (v : value T) (f : slice T).

Lemma set_rejects parse t s e : parse s = Err e -> set parse t s = (t, Some e).
Proof. unfold set. by intros ->. Qed.

Lemma set_accepts parse t s x : parse s = Ok x -> set parse t s = (x, None).
Proof. unfold set. by intros ->. Qed.

Lemma value_Set_Setter v s : value_Setter (value_Set v s).1 = value_Setter v.
Proof. unfold value_Set. by destruct (value_Setter v (value_Value v) s). Qed.

Lemma value_Set_rejects parse v s e :
  value_Setter v = set parse -> parse s = Err e -> value_Set v s = (v, Some e).
Proof.
  intros Hset Hparse. unfold value_Set.
  rewrite Hset, (set_rejects _ _ _ _ Hparse), <- Hset. by destruct v.
Qed.

Lemma slice_Set_written f s : slice_written (slice_Set f s).1 = true.
Proof.
  unfold slice_Set.
  destruct (slice_written f) eqn:Hw; simpl; destruct (slice_Parse f s); simpl; done.
Qed.

Lemma slice_Set_Parse f s : slice_Parse (slice_Set f s).1 = slice_Parse f.
Proof.
  unfold slice_Set.
  destruct (slice_written f); simpl; destruct (slice_Parse f s); simpl; done.
Qed.

(** The first call drops the stored sequence before it parses. *)
Lemma slice_Set_first f s :
  slice_written f = false ->
  slice_Set f s =
    match slice_Parse f s with
    | Err err => (mkSlice [] (slice_Parse f) true, Some err)
    | Ok x => (mkSlice [x] (slice_Parse f) true, None)
    end.
Proof. intros Hw. unfold slice_Set. rewrite Hw. simpl. by destruct (slice_Parse f s). Qed.

(** Every later call appends, or fails and leaves the box alone. *)
Lemma slice_Set_later f s :
  slice_written f = true ->
  slice_Set f s =
    match slice_Parse f s with
    | Err err => (f, Some err)
    | Ok x => (mkSlice (slice_Value f ++ [x]) (slice_Parse f) true, None)
    end.
Proof.
  intros Hw. unfold slice_Set. rewrite Hw. simpl.
  destruct (slice_Parse f s); [by rewrite Hw | done].
Qed.

Lemma slice_SetAll_later parse f raws vs :
  slice_written f = true ->
  slice_Parse f = parse ->
  Forall2 (fun r x => parse r = Ok x) raws vs ->
  slice_SetAll f raws = (mkSlice (slice_Value f ++ vs) parse true, None).
Proof.
  intros Hw Hp Hall. revert f Hw Hp.
  induction Hall as [|r x raws vs Hr _ IH]; intros f Hw Hp.
  - simpl. rewrite app_nil_r. destruct f; simpl in *; by subst.
  - simpl. rewrite (slice_Set_later _ _ Hw), Hp, Hr.
    rewrite IH; simpl; [by rewrite <- app_assoc | done..].
Qed.
End ValueFacts.

(** C5: a sequence flag declared with any default and provided [N >= 1]
    times with values that parse holds exactly those [N] elements, in the
    order of occurrence, and none of the default; provided zero times it
    holds the default. *)
Theorem slice_provided_N_times {T : Type} (parse : ValParser T)
    (defaults : list T) (raws : list string) (vs : list T) :
  Forall2 (fun r x => parse r = Ok x) raws vs ->
  (slice_SetAll (Slice defaults parse) raws).2 = None /\
  slice_Value (slice_SetAll (Slice defaults parse) raws).1
    = match raws with [] => defaults | _ :: _ => vs end /\
  (raws <> [] ->
   length (slice_Value (slice_SetAll (Slice defaults parse) raws).1) = length raws).
Proof.
  intros Hall. destruct Hall as [|r x raws vs Hr Hall].
  - by repeat split.
  - cbn [slice_SetAll]. rewrite slice_Set_first by done. cbn [Slice slice_Parse].
    rewrite Hr.
    rewrite (slice_SetAll_later parse _ raws vs) by done. simpl.
    repeat split. intros _. f_equal. symmetry. by eapply Forall2_length.
Qed.

Lemma slice_provided_N_times_witness :
  slice_Value (slice_SetAll (Strings ["x"; "y"]) ["1"; "2"; "3"]).1 = ["1"; "2"; "3"].
Proof.
  pose proof (slice_provided_N_times parseString ["x"; "y"] ["1"; "2"; "3"] ["1"; "2"; "3"]) as H.
  apply H. repeat constructor.
Defined.

(** C10: when the very first [Set] of a sequence flag is given a string
    that does not parse, it returns the parse error with the default
    already dropped: the value is empty, and a later [Set] that parses
    appends to that empty sequence. *)
Theorem slice_first_Set_error_drops_default {T : Type} (parse : ValParser T)
    (defaults : list T) (s : string) (e : error) :
  parse s = Err e ->
  (slice_Set (Slice defaults parse) s).2 = Some e /\
  slice_Value (slice_Set (Slice defaults parse) s).1 = [] /\
  forall s' x, parse s' = Ok x ->
    (slice_Set (slice_Set (Slice defaults parse) s).1 s').2 = None /\
    slice_Value (slice_Set (slice_Set (Slice defaults parse) s).1 s').1 = [x].
Proof.
  intros Hs. rewrite slice_Set_first by done. cbn [Slice slice_Parse]. rewrite Hs.
  split; [done | split; [done |]]. intros s' x Hx.
  rewrite slice_Set_later by done. cbn [slice_Parse fst snd]. by rewrite Hx.
Qed.

Lemma slice_first_Set_error_drops_default_witness :
  slice_Value (slice_Set (Bools [true; true]) "maybe").1 = [] /\
  slice_Value (slice_Set (slice_Set (Bools [true; true]) "maybe").1 "false").1 = [false].
Proof.
  pose proof (slice_first_Set_error_drops_default ParseBool [true; true] "maybe" _ eq_refl)
    as (_ & Hempty & Hnext).
  split; [exact Hempty | exact (proj2 (Hnext "false" false eq_refl))].
Defined.

(** ** The flag set *)

Section FlagSetFacts.
Implicit Types (f : FlagSet) (flag : Flag) (name value : string).

Lemma Flag_Value_Set_spec f name flag value :
  Flag_Value_Set f name flag value =
    (with_formal f
       (<[name := {| Usage := Usage flag; Value := (Getter_Set (Value flag) value).1 |}]>
          (formal f)),
     (Getter_Set (Value flag) value).2).
Proof. unfold Flag_Value_Set. by destruct (Getter_Set (Value flag) value). Qed.

Lemma FlagSet_Set_spec f name value :
  FlagSet_Set f name value =
    match formal f !! name with
    | None =>
        (with_undef f (<[name := Set_caller]> (undef f)),
         Some (Errorf "no such flag -%v" [name]))
    | Some flag =>
        let f' :=
          with_formal f
            (<[name := {| Usage := Usage flag;
                         Value := (Getter_Set (Value flag) value).1 |}]> (formal f)) in
        match (Getter_Set (Value flag) value).2 with
        | Some err => (f', Some err)
        | None => (with_actual f' ({[name]} ∪ actual f), None)
        end
    end.
Proof.
  unfold FlagSet_Set. destruct (formal f !! name) as [flag|]; [|done].
  rewrite Flag_Value_Set_spec. by destruct (Getter_Set (Value flag) value).2.
Qed.

Lemma FlagSet_Set_dom f name value :
  dom (formal (FlagSet_Set f name value).1) = dom (formal f).
Proof.
  rewrite FlagSet_Set_spec. destruct (formal f !! name) as [flag|] eqn:Hl; [|done].
  assert (name ∈ dom (formal f)) by (apply elem_of_dom; eauto).
  destruct (Getter_Set (Value flag) value).2; simpl; rewrite dom_insert_L;
    by apply subseteq_union_1_L, singleton_subseteq_l.
Qed.


Lemma FlagSet_Set_other f name value n :
  n <> name -> formal (FlagSet_Set f name value).1 !! n = formal f !! n.
Proof.
  intros Hn. rewrite FlagSet_Set_spec. destruct (formal f !! name) as [flag|]; [|done].
  destruct (Getter_Set (Value flag) value).2; simpl; by rewrite lookup_insert_ne.
Qed.


(** [sortFlags] lists a set once each, in increasing order. *)
Lemma sortFlags_Permutation (s : gset string) : sortFlags s ≡ₚ elements s.
Proof. apply merge_sort_Permutation. Qed.

Lemma elem_of_sortFlags (s : gset string) n : n ∈ sortFlags s <-> n ∈ s.
Proof. by rewrite sortFlags_Permutation, elem_of_elements. Qed.

Lemma NoDup_sortFlags (s : gset string) : NoDup (sortFlags s).
Proof. rewrite sortFlags_Permutation. apply NoDup_elements. Qed.

Lemma list_to_set_sortFlags (s : gset string) : list_to_set (sortFlags s) = s.
Proof. apply set_eq. intros n. by rewrite elem_of_list_to_set, elem_of_sortFlags. Qed.

Lemma StronglySorted_strict (l : list string) :
  StronglySorted String.le l -> NoDup l -> StronglySorted (strict String.le) l.
Proof.
  induction 1 as [|a l Hs IH Ha]; intros Hnd; [constructor|].
  apply NoDup_cons in Hnd as [Hnotin Hnd]. constructor; [by apply IH|].
  apply Forall_forall. intros b Hb. split.
  - by eapply Forall_forall in Ha.
  - intros Hba. assert (a = b); [|by subst].
    apply (anti_symm String.le); [|done]. by eapply Forall_forall in Ha.
Qed.

Lemma lexicographic_sortFlags (s : gset string) : lexicographic (sortFlags s).
Proof.
  apply StronglySorted_strict; [|apply NoDup_sortFlags].
  apply StronglySorted_merge_sort; apply _.
Qed.

Lemma lexicographic_filter (P : string -> Prop) `{forall x, Decision (P x)} l :
  lexicographic l -> lexicographic (filter P l).
Proof.
  unfold lexicographic. induction 1 as [|a l Hs IH Ha]; [constructor|].
  rewrite filter_cons. destruct (decide (P a)); [|done].
  constructor; [done|]. apply Forall_forall. intros b Hb.
  apply list_elem_of_filter in Hb as [_ Hb]. by eapply Forall_forall in Ha.
Qed.
End FlagSetFacts.

(** ** [Set.Set] *)

Lemma Set_Set_spec (src : Source) (name value : string) (set : Set') :
  Set_Set src name value set =
    match (FlagSet_Set (fs set) name value).2 with
    | Some err => (with_fs set (FlagSet_Set (fs set) name value).1, Some err)
    | None =>
        (with_provideMap (with_fs set (FlagSet_Set (fs set) name value).1)
           (<[name := src]> (provideMap set)), None)
    end.
Proof.
  unfold Set_Set. by destruct (FlagSet_Set (fs set) name value) as [f [err|]].
Qed.

Lemma Set_Set_fs (src : Source) (name value : string) (set : Set') :
  fs (Set_Set src name value set).1 = (FlagSet_Set (fs set) name value).1.
Proof. rewrite Set_Set_spec. by destruct (FlagSet_Set (fs set) name value).2. Qed.



(** C3: [Set.Set(src, name, raw)] either succeeds, and then the flag
    holds the state its own [Set] method, called on the state it had
    with [raw], has written, is among the set flags and
    [provideMap[name]] is [src]; or it fails, because [name] is not
    declared or because the flag's own [Set] method rejects [raw], and
    then it returns that very error and leaves the provenance map as it
    was (the flag keeps what its method wrote before it failed). *)
Theorem Set_Set_provenance (src : Source) (name raw : string) (set : Set') :
  match (Set_Set src name raw set).2 with
  | None =>
      exists flag,
        formal (fs set) !! name = Some flag /\
        (recv_Set (Value flag) (self (Value flag)) raw).2 = None /\
        formal (fs (Set_Set src name raw set).1) !! name
          = Some {| Usage := Usage flag;
                    Value := {| recv := recv (Value flag);
                                self := (recv_Set (Value flag) (self (Value flag)) raw).1;
                                recv_Set := recv_Set (Value flag);
                                recv_IsBoolFlag := recv_IsBoolFlag (Value flag) |} |} /\
        name ∈ actual (fs (Set_Set src name raw set).1) /\
        provideMap (Set_Set src name raw set).1 = <[name := src]> (provideMap set)
  | Some err =>
      provideMap (Set_Set src name raw set).1 = provideMap set /\
      ((formal (fs set) !! name = None /\ err = Errorf "no such flag -%v" [name] /\
        formal (fs (Set_Set src name raw set).1) = formal (fs set)) \/
       (exists flag,
          formal (fs set) !! name = Some flag /\
          (recv_Set (Value flag) (self (Value flag)) raw).2 = Some err /\
          formal (fs (Set_Set src name raw set).1) !! name
            = Some {| Usage := Usage flag;
                      Value := {| recv := recv (Value flag);
                                  self := (recv_Set (Value flag) (self (Value flag)) raw).1;
                                  recv_Set := recv_Set (Value flag);
                                  recv_IsBoolFlag := recv_IsBoolFlag (Value flag) |} |}))
  end.
Proof.
  rewrite Set_Set_spec, FlagSet_Set_spec.
  destruct (formal (fs set) !! name) as [flag|] eqn:Hflag; simpl.
  - unfold Getter_Set.
    destruct (recv_Set (Value flag) (self (Value flag)) raw) as [r [err|]] eqn:Hr; simpl.
    + split; [done|]. right. exists flag. rewrite lookup_insert_eq.
      split; [done|]. split; by rewrite Hr.
    + exists flag. rewrite lookup_insert_eq.
      split; [done|]. split; [by rewrite Hr|]. split; [by rewrite Hr|]. split; [|done].
      apply elem_of_union_l. by apply elem_of_singleton.
  - split; [done|]. by left.
Qed.

(** A stock scalar flag in the registry: a rejected string changes
    nothing at all. *)
Lemma Set_Set_stock_rejects {T : Type} `{GoKind T} (parse : ValParser T) (v : value T)
    (usage : string) (src : Source) (name raw : string) (e : error) (registry : Set') :
  formal (fs registry) !! name = Some {| Usage := usage; Value := value_Getter v |} ->
  value_Setter v = set parse ->
  parse raw = Err e ->
  Set_Set src name raw registry = (registry, Some e).
Proof.
  intros Hflag Hsetter Hparse. rewrite Set_Set_spec, FlagSet_Set_spec, Hflag. simpl.
  unfold Getter_Set. simpl. rewrite (value_Set_rejects parse v raw e) by done. simpl.
  destruct registry as [f pm], f as [nm p a fm ar eh un]; simpl in *.
  unfold with_fs, with_formal; simpl. by rewrite insert_id.
Qed.

(** C8: on a scalar flag built from a stock parser, [Set] with a string
    the parser rejects returns the parser's error and leaves the stored
    value as it was: the setter made by [set] writes only after the parse
    succeeded. *)
Theorem stock_Set_rejected_keeps_value {T : Type} (parse : ValParser T)
    (v : value T) (s : string) (e : error) :
  value_Setter v = set parse ->
  parse s = Err e ->
  value_Set v s = (v, Some e) /\ value_Val (value_Set v s).1 = value_Val v.
Proof.
  intros Hsetter Hparse. rewrite (value_Set_rejects parse v s e) by done. done.
Qed.

Lemma stock_Set_rejected_keeps_value_witness :
  value_Set (Bool true) "maybe"
    = (Bool true,
       Some (Errorw "strconv.%s: parsing %s: %v" ["ParseBool"; "maybe"]
               (ErrorsNew "invalid syntax"))).
Proof.
  exact (proj1 (stock_Set_rejected_keeps_value ParseBool (Bool true) "maybe" _
                  eq_refl eq_refl)).
Defined.

(** ** Walks *)

Section Walks.
Context {X : Type}.
Implicit Types (fn : Callback X) (names : list string).

Lemma walk_stopped fn names (w : X * Set') (e : error) :
  foldl (fun w f => visitClosure fn f w) (w, Some e) names = (w, Some e).
Proof. induction names as [|f names IH]; [done|]. simpl. apply IH. Qed.

Lemma walk_cons fn f names (w : X * Set') :
  foldl (fun w f => visitClosure fn f w) (w, None) (f :: names)
    = foldl (fun w f => visitClosure fn f w) (fn f w) names.
Proof. done. Qed.

(** A walk keeps what holds before it and is kept by every call of the
    callback on one of the names. *)
Lemma walk_invariant (I : X * Set' -> Prop) fn names (s : X * Set' * option error) :
  (forall f w, f ∈ names -> I w -> I (fn f w).1) ->
  I s.1 ->
  I (foldl (fun w f => visitClosure fn f w) s names).1.
Proof.
  revert s. induction names as [|f names IH]; intros [w verr] Hfn Hw; [done|].
  simpl. apply IH.
  - intros g w' Hg. apply Hfn. by right.
  - destruct verr; [done|]. apply Hfn; [by left | done].
Qed.

(** Skipping names in the callback is walking the names not skipped. *)
Lemma walk_skip (P : string -> Prop) `{forall f, Decision (P f)} fn names
    (s : X * Set' * option error) :
  foldl (fun w f => visitClosure (fun f w => if decide (P f) then (w, None) else fn f w) f w)
        s names
    = foldl (fun w f => visitClosure fn f w) s (filter (fun f => ~ P f) names).
Proof.
  revert s. induction names as [|f names IH]; intros [w verr]; [done|].
  rewrite filter_cons. destruct verr as [e|].
  - rewrite !walk_stopped. done.
  - simpl. destruct (decide (P f)) as [Hf|Hf].
    + rewrite decide_False by tauto. apply IH.
    + rewrite decide_True by done. simpl. apply IH.
Qed.

End Walks.

Section LoggedWalks.
Context {X : Type}.
Implicit Types (fn : Callback X) (names : list string).

Lemma logged_eq fn f log (x : X) (registry : Set') :
  logged fn f ((log, x), registry)
    = (((log ++ [(f, (fn f (x, registry)).2)], (fn f (x, registry)).1.1),
        (fn f (x, registry)).1.2), (fn f (x, registry)).2).
Proof. unfold logged. by destruct (fn f (x, registry)) as [[x' registry'] err]. Qed.

(** The log of a walk, and the walk without the log. *)
Lemma walk_logged fn names log (x : X) (registry : Set') :
  let r := foldl (fun w f => visitClosure (logged fn) f w)
                 (((log, x), registry), None) names in
  exists log',
    r.1.1.1 = log ++ log' /\
    shortCircuits names log' r.2 /\
    unlog r = foldl (fun w f => visitClosure fn f w) ((x, registry), None) names.
Proof.
  revert log x registry. induction names as [|f names IH]; intros log x registry.
  - exists []. simpl. by rewrite app_nil_r.
  - cbn zeta. rewrite !walk_cons, logged_eq.
    destruct (fn f (x, registry)) as [[x' registry'] [e|]] eqn:Hfn; cbn [fst snd].
    + rewrite !walk_stopped. exists [(f, Some e)]. simpl.
      split; [done|]. split; [|done]. by exists [], f, names.
    + destruct (IH (log ++ [(f, None)]) x' registry') as (log' & Hlog & Hshort & Hun).
      exists ((f, None) :: log'). split; [|split].
      * rewrite Hlog. by rewrite <- app_assoc.
      * unfold shortCircuits in *.
        destruct (foldl _ _ names).2 as [e|].
        -- destruct Hshort as (pre & g & post & -> & ->).
           by exists (f :: pre), g, post.
        -- by rewrite Hshort.
      * done.
Qed.
End LoggedWalks.

(** The first walk of [VisitRemaining] collects the set flags. *)
Lemma collect_visited (names : list string) (visited : gset string) (registry : Set') :
  foldl (fun w f =>
           visitClosure (X := gset string)
             (fun f '(visited, registry) => ({[f]} ∪ visited, registry, None)) f w)
        ((visited, registry), None) names
    = ((list_to_set names ∪ visited, registry), None).
Proof.
  revert visited. induction names as [|f names IH]; intros visited.
  - simpl. by rewrite (left_id_L ∅ (∪)).
  - simpl. rewrite IH. do 2 f_equal.
    by rewrite (assoc_L (∪)), (comm_L (∪) _ {[f]}).
Qed.

Section Visits.
Context {X : Type}.
Implicit Types (fn : Callback X) (w : X * Set').

Lemma Set_VisitAll_spec fn w :
  Set_VisitAll fn w
    = foldl (fun s f => visitClosure fn f s) (w, None) (sortFlags (dom (formal (fs w.2)))).
Proof. done. Qed.

Lemma Set_Visit_spec fn w :
  Set_Visit fn w
    = foldl (fun s f => visitClosure fn f s) (w, None) (sortFlags (actual (fs w.2))).
Proof. done. Qed.

Lemma Set_VisitRemaining_spec fn w :
  Set_VisitRemaining fn w
    = foldl (fun s f => visitClosure fn f s) (w, None) (remaining w.2).
Proof.
  unfold Set_VisitRemaining, Set_Visit, FlagSet_Visit. cbn [snd fst].
  rewrite collect_visited, list_to_set_sortFlags, (right_id_L ∅ (∪)).
  rewrite Set_VisitAll_spec. cbn [snd fst].
  rewrite (walk_skip (fun f => f ∈ actual (fs w.2))). unfold remaining.
  by destruct w.
Qed.

Lemma elem_of_remaining (registry : Set') f :
  f ∈ remaining registry
  <-> f ∈ dom (formal (fs registry)) /\ f ∉ actual (fs registry).
Proof. unfold remaining. rewrite list_elem_of_filter, elem_of_sortFlags. tauto. Qed.

Lemma lexicographic_remaining (registry : Set') : lexicographic (remaining registry).
Proof. apply lexicographic_filter, lexicographic_sortFlags. Qed.
End Visits.

Lemma fst_nil_errors {K : Type} (names : list K) :
  ((fun f => (f, @None error)) <$> names).*1 = names.
Proof. induction names as [|f names IH]; [done|]. simpl. by f_equal. Qed.

Lemma shortCircuits_prefix {K : Type} (names : list K) log err :
  shortCircuits names log err -> log.*1 `prefix_of` names.
Proof.
  unfold shortCircuits. destruct err as [e|].
  - intros (pre & f & post & -> & ->). exists post.
    rewrite fmap_app, fst_nil_errors. simpl. by rewrite <- app_assoc.
  - intros ->. exists []. by rewrite fst_nil_errors, app_nil_r.
Qed.

Lemma lexicographic_NoDup (names : list string) : lexicographic names -> NoDup names.
Proof.
  induction 1 as [|a l Hs IH Ha]; constructor; [|done].
  intros Hin. eapply Forall_forall in Ha; [|exact Hin]. destruct Ha as [Hle Hnle]. done.
Qed.

(** C7: each of [VisitAll], [Visit] and [VisitRemaining] calls the
    callback on its flags in lexicographical order of their names; when a
    call returns an error, the flags called are those up to and including
    that one and the method returns that very error; when no call does, it
    returns nil with every one of its flags called. *)
Theorem visits_short_circuit {X : Type} (fn : Callback X) (x : X) (registry : Set') :
  (shortCircuits (sortFlags (dom (formal (fs registry))))
     (Set_VisitAll (logged fn) (([], x), registry)).1.1.1
     (Set_VisitAll (logged fn) (([], x), registry)).2 /\
   unlog (Set_VisitAll (logged fn) (([], x), registry)) = Set_VisitAll fn (x, registry)) /\
  (shortCircuits (sortFlags (actual (fs registry)))
     (Set_Visit (logged fn) (([], x), registry)).1.1.1
     (Set_Visit (logged fn) (([], x), registry)).2 /\
   unlog (Set_Visit (logged fn) (([], x), registry)) = Set_Visit fn (x, registry)) /\
  (shortCircuits (remaining registry)
     (Set_VisitRemaining (logged fn) (([], x), registry)).1.1.1
     (Set_VisitRemaining (logged fn) (([], x), registry)).2 /\
   unlog (Set_VisitRemaining (logged fn) (([], x), registry))
     = Set_VisitRemaining fn (x, registry)) /\
  lexicographic (sortFlags (dom (formal (fs registry)))) /\
  lexicographic (sortFlags (actual (fs registry))) /\
  lexicographic (remaining registry) /\
  (forall f, f ∈ sortFlags (dom (formal (fs registry))) <-> is_Some (formal (fs registry) !! f)) /\
  (forall f, f ∈ sortFlags (actual (fs registry)) <-> f ∈ actual (fs registry)) /\
  (forall f, f ∈ remaining registry
             <-> is_Some (formal (fs registry) !! f) /\ f ∉ actual (fs registry)).
Proof.
  split; [|split; [|split]].
  - rewrite !Set_VisitAll_spec. cbn [fst snd].
    destruct (walk_logged fn (sortFlags (dom (formal (fs registry)))) [] x registry)
      as (log' & Hlog & Hshort & Hun).
    rewrite Hlog. done.
  - rewrite !Set_Visit_spec. cbn [fst snd].
    destruct (walk_logged fn (sortFlags (actual (fs registry))) [] x registry)
      as (log' & Hlog & Hshort & Hun).
    rewrite Hlog. done.
  - rewrite !Set_VisitRemaining_spec. cbn [fst snd].
    destruct (walk_logged fn (remaining registry) [] x registry)
      as (log' & Hlog & Hshort & Hun).
    rewrite Hlog. done.
  - split; [apply lexicographic_sortFlags|].
    split; [apply lexicographic_sortFlags|].
    split; [apply lexicographic_remaining|].
    split; [|split].
    + intros f. by rewrite elem_of_sortFlags, elem_of_dom.
    + intros f. apply elem_of_sortFlags.
    + intros f. by rewrite elem_of_remaining, elem_of_dom.
Qed.

(** C4: a call of [VisitRemaining] calls the callback on the declared
    flags that are not set when the call starts, in lexicographical order
    and whatever the callback sets meanwhile (up to the first error, as
    every walk); no flag is called twice in one call, and a flag that is
    set when the call is over is not called by any later call. *)
Theorem VisitRemaining_complement {X : Type} (fn fn' : Callback X) (x x' : X)
    (registry : Set') :
  let r := Set_VisitRemaining (logged fn) (([], x), registry) in
  let r' := Set_VisitRemaining (logged fn') (([], x'), r.1.2) in
  shortCircuits (remaining registry) r.1.1.1 r.2 /\
  (forall f, f ∈ remaining registry
             <-> is_Some (formal (fs registry) !! f) /\ f ∉ actual (fs registry)) /\
  lexicographic (remaining registry) /\
  NoDup r.1.1.1.*1 /\
  shortCircuits (remaining r.1.2) r'.1.1.1 r'.2 /\
  (forall f, f ∈ actual (fs r.1.2) -> f ∉ r'.1.1.1.*1).
Proof.
  intros r r'.
  assert (Hr : shortCircuits (remaining registry) r.1.1.1 r.2).
  { subst r. rewrite Set_VisitRemaining_spec. cbn [fst snd].
    destruct (walk_logged fn (remaining registry) [] x registry)
      as (log' & Hlog & Hshort & _).
    by rewrite Hlog. }
  assert (Hr' : shortCircuits (remaining r.1.2) r'.1.1.1 r'.2).
  { subst r'. rewrite Set_VisitRemaining_spec. cbn [fst snd].
    destruct (walk_logged fn' (remaining r.1.2) [] x' r.1.2)
      as (log' & Hlog & Hshort & _).
    by rewrite Hlog. }
  split; [done|]. split; [|split; [|split; [|split]]].
  - intros f. by rewrite elem_of_remaining, elem_of_dom.
  - apply lexicographic_remaining.
  - apply shortCircuits_prefix in Hr as [post Hpost].
    pose proof (lexicographic_NoDup _ (lexicographic_remaining registry)) as Hnd.
    rewrite Hpost in Hnd. by apply NoDup_app in Hnd as [? _].
  - done.
  - intros f Hset Hin. apply shortCircuits_prefix in Hr' as [post Hpost].
    assert (f ∈ remaining r.1.2) as Hrem.
    { rewrite Hpost. apply elem_of_app. by left. }
    apply elem_of_remaining in Hrem as [_ Hnot]. done.
Qed.

(** ** [Set.Parse] *)


Section ParseFacts.
Context {X : Type}.
Implicit Types (ps : list (Pass X)) (x : X) (registry : Set') (log : Trace).


End ParseFacts.


(** The claim as it is written fails for a policy that is none of the
    three constants: the first parser returns an error, the second runs
    all the same, and [Parse] returns nil. *)
Lemma Parse_fail_fast_counterexample :
  (Set_Parse [] (tracedAll [demoFailing; demoPassing])
     (([], tt), Set_Init demoSet "" (OtherHandling 3))).1.1.1
    = [(0, Returned (Some (ErrorsNew "parser 0 failed")), OtherHandling 3);
       (1, Returned None, OtherHandling 3)] /\
  (Set_Parse [] (tracedAll [demoFailing; demoPassing])
     (([], tt), Set_Init demoSet "" (OtherHandling 3))).2 = Ends (Returned None).
Proof. vm_compute. done. Qed.

(** ** The primary parse *)

Ltac fs_simpl :=
  cbn [fst snd formal actual args errorHandling parsed Name undef
       with_formal with_actual with_args with_undef length].

Lemma FlagSet_parseOne_spec (f : FlagSet) :
  dom (formal (FlagSet_parseOne f).1.1) = dom (formal f) /\
  errorHandling (FlagSet_parseOne f).1.1 = errorHandling f /\
  parsed (FlagSet_parseOne f).1.1 = parsed f /\
  if (FlagSet_parseOne f).1.2 then
    exists s rest name hv v,
      args f = s :: rest /\ tokenOf s = FlagTok name hv v /\
      name ∈ dom (formal f) /\
      actual (FlagSet_parseOne f).1.1 = {[name]} ∪ actual f /\
      length (args (FlagSet_parseOne f).1.1) < length (args f) /\
      (FlagSet_parseOne f).2 = None
  else actual (FlagSet_parseOne f).1.1 = actual f.
Proof.
  unfold FlagSet_parseOne.
  destruct (args f) as [|s rest] eqn:Hargs; [done|].
  destruct (tokenOf s) as [| | |name hv v] eqn:Htok; try done.
  cbn [formal with_args].
  destruct (formal f !! name) as [flag|] eqn:Hflag.
  2:{ by destruct (bool_decide (name = "help") || bool_decide (name = "h")). }
  assert (Hin : name ∈ dom (formal f)) by (apply elem_of_dom; eauto).
  assert (Hdom : forall g : Flag, dom (<[name := g]> (formal f)) = dom (formal f)).
  { intros g. rewrite dom_insert_L. by apply subseteq_union_1_L, singleton_subseteq_l. }
  rewrite !Flag_Value_Set_spec.
  destruct (Getter_IsBoolFlag (Value flag)).
  - destruct hv.
    + destruct (Getter_Set (Value flag) v).2; fs_simpl.
      * split; [apply Hdom | done].
      * split; [apply Hdom|]. repeat split.
        exists s, rest, name, true, v. repeat split; try done. lia.
    + destruct (Getter_Set (Value flag) "true").2; fs_simpl.
      * split; [apply Hdom | done].
      * split; [apply Hdom|]. repeat split.
        exists s, rest, name, false, v. repeat split; try done. lia.
  - destruct hv.
    + fs_simpl. cbn [negb]. rewrite Flag_Value_Set_spec.
      destruct (Getter_Set (Value flag) v).2; fs_simpl.
      * split; [apply Hdom | done].
      * split; [apply Hdom|]. repeat split.
        exists s, rest, name, true, v. repeat split; try done. lia.
    + destruct rest as [|next more]; fs_simpl; cbn [negb]; [done|].
      rewrite Flag_Value_Set_spec.
      destruct (Getter_Set (Value flag) next).2; fs_simpl.
      * split; [apply Hdom | done].
      * split; [apply Hdom|]. repeat split.
        exists s, (next :: more), name, false, v. repeat split; try done.
        simpl. lia.
Qed.







Lemma FlagSet_Parse_state (f : FlagSet) (arguments : list string) :
  (FlagSet_Parse f arguments).1
    = (FlagSet_parseLoop (S (length arguments))
         {| Name := Name f; parsed := true; actual := actual f; formal := formal f;
            args := arguments; errorHandling := errorHandling f; undef := undef f |}).1.
Proof. unfold FlagSet_Parse. by destruct (FlagSet_parseLoop _ _) as [f' [o|]]. Qed.



(** ** Stamping the provenance *)

Lemma stamp_fold (src : Source) (names : list string) (registry : Set') :
  let r := foldl (fun registry f =>
                    with_provideMap registry (<[f := src]> (provideMap registry)))
                 registry names in
  fs r = fs registry /\
  forall n, provideMap r !! n
            = if decide (n ∈ names) then Some src else provideMap registry !! n.
Proof.
  revert registry. induction names as [|f names IH]; intros registry.
  - cbn zeta. cbn [foldl]. split; [done|]. intros n.
    by destruct (decide (n ∈ [])) as [Hn%elem_of_nil|].
  - cbn zeta. cbn [foldl].
    destruct (IH (with_provideMap registry (<[f := src]> (provideMap registry))))
      as [Hfs Hpm].
    split; [by rewrite Hfs|]. intros n. rewrite Hpm. cbn [provideMap with_provideMap].
    destruct (decide (n ∈ names)) as [Hn|Hn].
    + rewrite decide_True; [done|]. by right.
    + destruct (decide (n = f)) as [->|Hnf].
      * rewrite lookup_insert_eq, decide_True; [done|]. by left.
      * rewrite lookup_insert_ne by done. rewrite decide_False; [done|].
        intros [?|?]%elem_of_cons; done.
Qed.

Lemma stampProvenance_spec (registry : Set') :
  fs (stampProvenance registry) = fs registry /\
  forall n, provideMap (stampProvenance registry) !! n
            = if decide (n ∈ actual (fs registry)) then Some SourceFlags
              else if decide (n ∈ dom (formal (fs registry))) then Some SourceDefaultVal
              else provideMap registry !! n.
Proof.
  unfold stampProvenance, FlagSet_VisitAll, FlagSet_Visit.
  destruct (stamp_fold SourceDefaultVal (sortFlags (dom (formal (fs registry)))) registry)
    as [Hfs1 Hpm1].
  set (r1 := foldl _ registry (sortFlags (dom (formal (fs registry))))) in *.
  destruct (stamp_fold SourceFlags (sortFlags (actual (fs r1))) r1) as [Hfs2 Hpm2].
  split; [by rewrite Hfs2|]. intros n. rewrite Hpm2, Hpm1, Hfs1.
  destruct (decide (n ∈ sortFlags (actual (fs registry)))) as [Hn|Hn];
    rewrite elem_of_sortFlags in Hn.
  - by rewrite decide_True.
  - rewrite (decide_False (P := n ∈ actual (fs registry))) by done.
    destruct (decide (n ∈ sortFlags (dom (formal (fs registry))))) as [Hd|Hd];
      rewrite elem_of_sortFlags in Hd.
    + by rewrite decide_True.
    + by rewrite decide_False.
Qed.

(** ** Declared sets *)

Lemma Add_spec (registry registry' : Set') (name : string) (value : Getter) (usage : string) :
  Add registry name value usage = Returned registry' ->
  actual (fs registry') = actual (fs registry) /\
  provideMap registry' = provideMap registry /\
  errorHandling (fs registry') = errorHandling (fs registry) /\
  formal (fs registry) !! name = None /\
  formal (fs registry')
    = <[name := {| Usage := usage; Value := value |}]> (formal (fs registry)).
Proof.
  unfold Add, FlagSet_Var.
  destruct (HasPrefix_minus name); [done|]. destruct (Contains_eq name); [done|].
  destruct (formal (fs registry) !! name);
    [by destruct (bool_decide (Name (fs registry) = ""))|].
  destruct (undef (fs registry) !! name); [done|]. intros [= <-]. done.
Qed.

Lemma declare_spec (decls : list (string * Getter)) (registry registry' : Set') :
  declare registry decls = Returned registry' ->
  actual (fs registry') = actual (fs registry) /\
  provideMap registry' = provideMap registry /\
  errorHandling (fs registry') = errorHandling (fs registry) /\
  dom (formal (fs registry')) = list_to_set decls.*1 ∪ dom (formal (fs registry)).
Proof.
  revert registry. induction decls as [|[name value] decls IH]; intros registry Hdecl.
  - simpl in Hdecl. injection Hdecl as <-. simpl. by rewrite (left_id_L ∅ (∪)).
  - simpl in Hdecl. destruct (Add registry name value "") as [r1| |] eqn:Hadd; try done.
    apply Add_spec in Hadd as (Hact & Hpm & Heh & _ & Hformal).
    apply IH in Hdecl as (Hact' & Hpm' & Heh' & Hdom').
    rewrite Hact', Hpm', Heh', Hdom', Hformal, dom_insert_L. simpl.
    repeat split; try done.
    by rewrite (assoc_L (∪)), (comm_L (∪) _ {[name]}).
Qed.



(** The claim as it is written fails on a registry with a flag that was
    set before [Parse] is called: the primary parse of no arguments
    consumes nothing, and the flag is tagged ["flags"] all the same. *)
Lemma Parse_stamps_provenance_counterexample :
  primaryBound (fs demoPreset) [] = [] /\
  (Set_Parse (X := unit) [] [] (tt, demoPreset)).2 = Ends (Returned None) /\
  provideMap (Set_Parse (X := unit) [] [] (tt, demoPreset)).1.2 !! "a" = Some SourceFlags.
Proof. vm_compute. done. Qed.

(** ** Passes that go through [VisitRemaining] *)





(** [env.Parse] is such a pass. *)
Lemma setEach_calls (src : Source) (flag : string) (vals : list string) (registry : Set') :
  exists calls : list (Source * string),
    (setEach src flag vals registry).1
      = foldl (fun registry c => (Set_Set c.1 flag c.2 registry).1) registry calls.
Proof.
  revert registry. induction vals as [|val vals IH]; intros registry.
  - by exists [].
  - simpl. destruct (Set_Set src flag val registry) as [registry' [err|]] eqn:Hset.
    + exists [(src, val)]. simpl. by rewrite Hset.
    + destruct (IH registry') as [calls Hcalls]. exists ((src, val) :: calls).
      simpl. by rewrite Hset.
Qed.

Lemma env_visit_setsVisitedOnly {X : Type} (o : options X) (fileData : gmap string string) :
  setsVisitedOnly (env_visit o fileData).
Proof.
  intros flag w. unfold env_visit.
  destruct (mapper o (prefix o +:+ flag)) as [name splitValBy].
  destruct (lookupFunc o name) as [val ok].
  set (found := if negb ok then _ else _). destruct found as [[val' ok'] src].
  destruct (negb ok'); [by exists []|].
  destruct (negb (bool_decide (splitValBy = ""))).
  - destruct (setEach_calls src flag (strings_Split val' splitValBy) w.2) as [calls Hcalls].
    exists calls. by destruct (setEach src flag (strings_Split val' splitValBy) w.2).
  - exists [(src, val')]. simpl.
    by destruct (Set_Set src flag val' w.2) as [registry' [err|]].
Qed.






(** The claim as it is written fails for a run whose primary parse
    fails: [-a] is bound from the command line, [-zz] is not defined,
    [Parse] returns the error before it stamps anything, and [a] is set
    without a provenance. *)
Lemma provenance_monotone_counterexample :
  primaryBound (fs demoSet) ["-a"; "1"; "-zz"] = ["a"] /\
  (Set_Parse ["-a"; "1"; "-zz"] [returning (env_Parse demoOS demoOptions)] (tt, demoSet)).2
    = Ends (Returned (Some (Errorf "flag provided but not defined: -%s" ["zz"]))) /\
  provideMap (Set_Parse ["-a"; "1"; "-zz"] [returning (env_Parse demoOS demoOptions)]
                (tt, demoSet)).1.2 !! "a" = None.
Proof. vm_compute. done. Qed.

(** ** Backing arrays: the list-valued [slice] is what the code computes,
    and the flag's array is never the caller's *)
Module MemTheory.
Section Backing.
Context {T : Type} (zero : T) (growslice : nat -> nat -> nat).
Implicit Types (h : gmap nat (list T)) (s d : Mem.sliceHdr) (f : Mem.slice (T := T)).

Lemma elems_length h s : Mem.valid h s -> length (Mem.elems h s) = Mem.len s.
Proof.
intros (l & Hl & _ & Hlen). unfold Mem.elems. rewrite Hl. simpl.
rewrite length_take, length_drop. lia.
Qed.

Lemma elems_frame h h' s : h' !! Mem.arr s = h !! Mem.arr s -> Mem.elems h' s = Mem.elems h s.
Proof. unfold Mem.elems. by intros ->. Qed.

Lemma valid_frame h h' s : h' !! Mem.arr s = h !! Mem.arr s -> Mem.valid h s -> Mem.valid h' s.
Proof. intros Heq (l & Hl & Hcap). exists l. by rewrite Heq. Qed.

Lemma store_other a a' i v h : a' <> a -> Mem.store a i v h !! a' = h !! a'.
Proof. intros Hne. unfold Mem.store. by rewrite lookup_alter_ne. Qed.

Lemma store_dom a i v h : dom (Mem.store a i v h) = dom h.
Proof. unfold Mem.store. apply dom_alter_L. Qed.

(** [s[:0]] *)
Lemma reslice0_spec h s :
Mem.valid h s ->
Mem.elems h (Mem.reslice0 s) = [] /\ Mem.valid h (Mem.reslice0 s) /\
Mem.arr (Mem.reslice0 s) = Mem.arr s.
Proof.
intros (l & Hl & Hcap & Hlen). split; [done|]. split; [|done].
exists l. simpl. repeat split; [done..|lia].
Qed.

(** [append]: one more element; only the slice's own array or a new one
    is written. *)
Lemma append_spec h s v :
Mem.valid h s ->
Mem.elems (Mem.append zero growslice s v h).2 (Mem.append zero growslice s v h).1
  = Mem.elems h s ++ [v] /\
Mem.valid (Mem.append zero growslice s v h).2 (Mem.append zero growslice s v h).1 /\
(forall a, a <> Mem.arr s -> a ∈ dom h ->
   (Mem.append zero growslice s v h).2 !! a = h !! a) /\
(Mem.arr (Mem.append zero growslice s v h).1 = Mem.arr s \/
 Mem.arr (Mem.append zero growslice s v h).1 ∉ dom h).
Proof.
intros Hvalid. pose proof (elems_length h s Hvalid) as Helems.
destruct Hvalid as (l & Hl & Hcap & Hlen). unfold Mem.append.
destruct (decide (Mem.len s < Mem.cap s)) as [Hroom|Hfull]; cbn [fst snd].
- split; [|split; [|split]].
  + unfold Mem.elems, Mem.store. cbn [Mem.arr Mem.off Mem.len].
    rewrite lookup_alter_eq, Hl. simpl.
    rewrite drop_insert_ge by lia.
    replace (Mem.off s + Mem.len s - Mem.off s) with (Mem.len s) by lia.
    rewrite (take_S_r _ _ v).
    * by rewrite take_insert_ge.
    * apply list_lookup_insert_eq. rewrite length_drop. lia.
  + exists (<[Mem.off s + Mem.len s := v]> l). unfold Mem.store. cbn [Mem.arr Mem.off Mem.len Mem.cap].
    rewrite lookup_alter_eq, Hl, length_insert. simpl. repeat split; [done|lia].
  + intros a Ha _. by apply store_other.
  + by left.
- pose proof (is_fresh (dom h)) as Hfresh.
  split; [|split; [|split]].
  + unfold Mem.elems at 1. cbn [Mem.arr Mem.off Mem.len].
    rewrite lookup_insert_eq. cbn [default]. rewrite drop_0, app_assoc.
    apply take_app_length'. rewrite length_app, Helems. simpl. lia.
  + eexists. cbn [Mem.arr Mem.off Mem.len Mem.cap]. rewrite lookup_insert_eq.
    split; [done|]. rewrite !length_app, length_replicate, Helems. simpl. lia.
  + intros a _ Ha. rewrite lookup_insert_ne; [done|]. intros <-. done.
  + by right.
Qed.

(** [Slice] copies: a new array that holds the elements of the default. *)
Lemma Slice_spec h d parse :
Mem.valid h d ->
(Mem_abs (Mem.Slice zero d parse h).2 (Mem.Slice zero d parse h).1
   = Slice (Mem.elems h d) parse) /\
Mem.valid (Mem.Slice zero d parse h).2 (Mem.Value (Mem.Slice zero d parse h).1) /\
(Mem.arr (Mem.Value (Mem.Slice zero d parse h).1) ∉ dom h) /\
(forall a, a ∈ dom h -> (Mem.Slice zero d parse h).2 !! a = h !! a).
Proof.
intros Hvalid. pose proof (elems_length h d Hvalid) as Helems.
pose proof (is_fresh (dom h)) as Hfresh.
assert (Mem.arr d <> fresh (dom h)) as Hne.
{ destruct Hvalid as (l & Hl & _). intros Heq. apply Hfresh. rewrite <- Heq.
  apply elem_of_dom. eauto. }
unfold Mem.Slice, Mem.make, Mem.copy. cbn [fst snd Mem.arr Mem.off Mem.len Mem.Value].
rewrite (elems_frame h (<[fresh (dom h) := replicate (Mem.len d) zero]> h) d)
  by (by rewrite lookup_insert_ne).
rewrite Nat.min_id, (take_ge (Mem.elems h d)) by lia.
set (data := Mem.elems h d) in *.
split; [|split; [|split]].
- unfold Mem_abs, Slice. cbn [Mem.Value Mem.Parse Mem.written]. f_equal.
  unfold Mem.elems. cbn [Mem.arr Mem.off Mem.len].
  rewrite lookup_alter_eq, lookup_insert_eq. simpl.
  rewrite drop_0, Helems, drop_ge by (rewrite length_replicate; lia).
  rewrite app_nil_r. apply take_ge. lia.
- eexists. cbn [Mem.arr Mem.off Mem.len Mem.cap].
  rewrite lookup_alter_eq, lookup_insert_eq. simpl. split; [done|].
  rewrite !length_app, length_drop, length_replicate, Helems. lia.
- done.
- intros a Ha. rewrite lookup_alter_ne, lookup_insert_ne; [done|..]; by intros <-.
Qed.

(** [slice.Set] over backing arrays computes [slice_Set] over lists. *)
Lemma slice_Set_refines h f raw :
Mem.valid h (Mem.Value f) ->
Mem_abs (Mem.slice_Set zero growslice f raw h).1.2 (Mem.slice_Set zero growslice f raw h).1.1
  = (slice_Set (Mem_abs h f) raw).1 /\
(Mem.slice_Set zero growslice f raw h).2 = (slice_Set (Mem_abs h f) raw).2 /\
Mem.valid (Mem.slice_Set zero growslice f raw h).1.2
  (Mem.Value (Mem.slice_Set zero growslice f raw h).1.1) /\
(forall a, a <> Mem.arr (Mem.Value f) -> a ∈ dom h ->
   (Mem.slice_Set zero growslice f raw h).1.2 !! a = h !! a) /\
(Mem.arr (Mem.Value (Mem.slice_Set zero growslice f raw h).1.1) = Mem.arr (Mem.Value f) \/
 Mem.arr (Mem.Value (Mem.slice_Set zero growslice f raw h).1.1) ∉ dom h).
Proof.
intros Hvalid. unfold Mem.slice_Set, slice_Set.
cbn [Mem_abs slice_written slice_Parse slice_Value].
set (f1 := if negb (Mem.written f) then _ else f).
assert (Hf1 : Mem.valid h (Mem.Value f1) /\ Mem.Parse f1 = Mem.Parse f /\
              Mem.arr (Mem.Value f1) = Mem.arr (Mem.Value f) /\
              Mem_abs h f1
              = (if negb (Mem.written f)
                 then {| slice_Value := take 0 (Mem.elems h (Mem.Value f));
                         slice_Parse := Mem.Parse f; slice_written := true |}
                 else Mem_abs h f)).
{ subst f1. destruct (Mem.written f); simpl; [done|].
  destruct (reslice0_spec h (Mem.Value f) Hvalid) as (Hnil & Hv & Harr).
  split; [done|]. split; [done|]. split; [done|].
  unfold Mem_abs. cbn [Mem.Value Mem.Parse Mem.written]. by rewrite Hnil, take_0. }
destruct Hf1 as (Hv1 & Hp1 & Harr1 & Habs1).
fold (Mem_abs h f). rewrite <- Habs1. cbn [Mem_abs slice_Parse slice_Value slice_written].
destruct (Mem.Parse f1 raw) as [v|err]; cbn [fst snd].
- destruct (append_spec h (Mem.Value f1) v Hv1) as (Happ & Hv' & Hframe & Hwhere).
  destruct (Mem.append zero growslice (Mem.Value f1) v h) as [hdr h'].
  cbn [fst snd Mem.Value Mem.Parse Mem.written] in *.
  split; [|split; [done|split; [done|split]]].
  + unfold Mem_abs. cbn [Mem.Value Mem.Parse Mem.written]. by rewrite Happ.
  + intros a Ha Hin. apply Hframe; [by rewrite Harr1 | done].
  + by rewrite <- Harr1.
- split; [done|]. split; [done|]. split; [done|]. split; [done|]. left. done.
Qed.
Lemma rawsOf_cons_FlagSet raw (evs : list (Mem.event (T := T))) :
Mem.rawsOf (Mem.FlagSet raw :: evs) = raw :: Mem.rawsOf evs.
Proof. done. Qed.

Lemma run_cons ev (evs : list (Mem.event (T := T))) st :
Mem.run zero growslice (ev :: evs) st
  = Mem.run zero growslice evs (Mem.step zero growslice st ev).
Proof. done. Qed.

Lemma callerOnly_cons ev (evs : list (Mem.event (T := T))) h :
Mem.callerOnly (ev :: evs) h
  = Mem.callerOnly evs
      match ev with
      | Mem.CallerStore a i v => Mem.store a i v h
      | Mem.FlagSet _ => h
      end.
Proof. done. Qed.

(** The flag and the caller do not see each other: along any sequence of
    caller stores and [Set] calls, the flag holds what the [Set] calls
    alone make of it, and the arrays of [h0] hold what the stores alone
    make of them. *)
Lemma run_separate h0 (evs : list Mem.event) f h hc :
Forall (Mem.callerEvent h0) evs ->
Mem.arr (Mem.Value f) ∉ dom h0 ->
Mem.valid h (Mem.Value f) ->
(forall a, a ∈ dom h0 -> h !! a = hc !! a /\ is_Some (hc !! a)) ->
Mem_abs (Mem.run zero growslice evs (f, h)).2 (Mem.run zero growslice evs (f, h)).1
  = foldl (fun fl raw => (slice_Set fl raw).1) (Mem_abs h f) (Mem.rawsOf evs) /\
(forall a, a ∈ dom h0 ->
   (Mem.run zero growslice evs (f, h)).2 !! a = Mem.callerOnly evs hc !! a).
Proof.
intros Hevs. revert f h hc.
induction Hevs as [|ev evs Hev _ IH]; intros f h hc Hfresh Hvalid Hagree.
- split; [done|]. intros a Ha. by apply Hagree.
- rewrite run_cons, callerOnly_cons.
  destruct ev as [a0 i v|raw]; cbn [Mem.step fst snd Mem.callerEvent] in *.
  + assert (Mem.arr (Mem.Value f) <> a0) as Hne
      by (intros Heq; by rewrite Heq in Hfresh).
    destruct (IH f (Mem.store a0 i v h) (Mem.store a0 i v hc)) as [Habs Hframe].
    * done.
    * eapply valid_frame; [|exact Hvalid]. by apply store_other.
    * intros a Ha. destruct (Hagree a Ha) as [Heq Hsome].
      destruct (decide (a = a0)) as [->|Hne'].
      -- unfold Mem.store. rewrite !lookup_alter_eq, Heq. split; [done|].
         by apply fmap_is_Some.
      -- by rewrite !store_other.
    * split; [|exact Hframe]. rewrite Habs. f_equal.
      unfold Mem_abs. f_equal. apply elems_frame. by apply store_other.
  + destruct (slice_Set_refines h f raw Hvalid) as (Habs & _ & Hvalid' & Hframe & Hwhere).
    rewrite rawsOf_cons_FlagSet. cbn [foldl].
    destruct (Mem.slice_Set zero growslice f raw h) as [[f' h'] err]. cbn [fst snd] in *.
    destruct (IH f' h' hc) as [Habs' Hframe'].
    * destruct Hwhere as [-> | Hnew]; [done|]. intros Hin. apply Hnew.
      destruct (Hagree _ Hin) as [Heq Hsome]. apply elem_of_dom. by rewrite Heq.
    * done.
    * intros a Ha. destruct (Hagree a Ha) as [Heq Hsome]. split; [|done].
      rewrite <- Heq. apply Hframe; [by intros -> |].
      apply elem_of_dom. by rewrite Heq.
    * split; [|exact Hframe']. by rewrite Habs', Habs.
Qed.

(** C6: [Slice] takes a copy of the caller's default slice.  Whatever
    the caller stores afterwards into the arrays it held at the
    declaration, the flag's value is what the default at the declaration
    and the [Set] calls alone give; and whatever is set, those arrays,
    the default's among them, hold what the caller's own stores alone
    give. *)
Theorem Slice_defensive_copy h0 d parse (evs : list Mem.event) :
Mem.valid h0 d ->
Forall (Mem.callerEvent h0) evs ->
(Mem.elems (Mem.run zero growslice evs (Mem.Slice zero d parse h0)).2
    (Mem.Value (Mem.run zero growslice evs (Mem.Slice zero d parse h0)).1)
  = slice_Value (foldl (fun fl raw => (slice_Set fl raw).1)
                  (Slice (Mem.elems h0 d) parse) (Mem.rawsOf evs))) /\
(forall a, a ∈ dom h0 ->
   (Mem.run zero growslice evs (Mem.Slice zero d parse h0)).2 !! a
     = Mem.callerOnly evs h0 !! a) /\
(Mem.elems (Mem.run zero growslice evs (Mem.Slice zero d parse h0)).2 d
  = Mem.elems (Mem.callerOnly evs h0) d).
Proof.
intros Hvalid Hevs.
destruct (Slice_spec h0 d parse Hvalid) as (Habs & Hvalid' & Hfresh & Hframe).
destruct (Mem.Slice zero d parse h0) as [f h1]. cbn [fst snd] in *.
destruct (run_separate h0 evs f h1 h0 Hevs Hfresh Hvalid') as [Hflag Hcaller].
{ intros a Ha. split; [by apply Hframe | by apply elem_of_dom]. }
split; [|split].
- rewrite <- Habs, <- Hflag. done.
- exact Hcaller.
- apply elems_frame, Hcaller. destruct Hvalid as (l & Hl & _). apply elem_of_dom. eauto.
Qed.
End Backing.
End MemTheory.

Lemma Slice_defensive_copy_witness :
  let r := Mem.run "" demoGrow demoEvents (Mem.Slice "" demoDefault parseString demoHeap) in
  Mem.elems r.2 (Mem.Value r.1) = ["1"; "2"; "3"] /\
  Mem.elems r.2 demoDefault = ["z"; "w"].
Proof.
  intros r.
  assert (Hin : 0 ∈ dom demoHeap).
  { apply elem_of_dom. exists ["x"; "y"; "spare"]. vm_compute. reflexivity. }
  assert (Hvalid : Mem.valid demoHeap demoDefault).
  { exists ["x"; "y"; "spare"]. split; [vm_compute; reflexivity | simpl; lia]. }
  assert (Hevs : Forall (Mem.callerEvent demoHeap) demoEvents).
  { unfold demoEvents. repeat (constructor; [simpl; done|]). constructor. }
  pose proof (MemTheory.Slice_defensive_copy "" demoGrow demoHeap demoDefault parseString
                demoEvents Hvalid Hevs) as (Hflag & _ & Hcaller).
  split.
  - subst r. rewrite Hflag. vm_compute. reflexivity.
  - subst r. rewrite Hcaller. vm_compute. reflexivity.
Defined.

(** ** The scenarios of the specification, run *)

(** A flag given on the command line has its value and the source
    ["flags"]. *)
Example scenario_command_line :
  let r := Set_Parse (X := unit) ["-a"; "5"] [] (tt, demoSet) in
  r.2 = Ends (Returned None) /\
  formal (fs r.1.2) !! "a" = Some {| Usage := ""; Value := value_Getter (String_ "5") |} /\
  provideMap r.1.2 !! "a" = Some SourceFlags.
Proof. vm_compute. repeat split. Qed.

(** A flag set by a pass has the source the pass gave. *)
Example scenario_pass_sets :
  let pass : Parser unit := fun w => ((w.1, (Set_Set "env:B" "b" "7" w.2).1), None) in
  let r := Set_Parse [] [returning pass] (tt, demoSet) in
  r.2 = Ends (Returned None) /\
  formal (fs r.1.2) !! "b" = Some {| Usage := ""; Value := value_Getter (String_ "7") |} /\
  provideMap r.1.2 !! "b" = Some "env:B".
Proof. vm_compute. repeat split. Qed.

(** Three occurrences of a list flag replace its default. *)
Example scenario_list_flag :
  let r := Set_Parse (X := unit) ["-c"; "1"; "-c"; "2"; "-c"; "3"] [] (tt, demoSet) in
  formal (fs r.1.2) !! "c"
    = Some {| Usage := "";
              Value := slice_Getter (mkSlice ["1"; "2"; "3"] parseString true) |}.
Proof. vm_compute. reflexivity. Qed.

(** The walks of the repository's test: [b] from the command line, [c]
    set by hand afterwards. *)
Example scenario_walks :
  let nop : Callback unit := fun _ w => (w, None) in
  let parsed := (Set_Parse (X := unit) ["-b"; "1"] [] (tt, demoSet)).1.2 in
  let registry := (Set_Set "" "c" "2" parsed).1 in
  (Set_VisitAll (logged nop) (([], tt), registry)).1.1.1.*1 = ["a"; "b"; "c"; "d"] /\
  (Set_Visit (logged nop) (([], tt), registry)).1.1.1.*1 = ["b"; "c"] /\
  (Set_VisitRemaining (logged nop) (([], tt), registry)).1.1.1.*1 = ["a"; "d"].
Proof. vm_compute. repeat split. Qed.

(** Two passes that each set one flag while they walk the remaining
    ones: the second does not see the flag the first has set. *)
Example scenario_two_passes :
  let pass (id flagToSet : string) : Parser (list (string * list string)) :=
    fun w =>
      let r := Set_VisitRemaining
                 (logged (fun f w' =>
                            if bool_decide (f = flagToSet)
                            then ((w'.1, (Set_Set id f "true" w'.2).1), None)
                            else (w', None)))
                 (([], w.1), w.2) in
      ((r.1.1.2 ++ [(id, r.1.1.1.*1)], r.1.2), r.2) in
  let r := Set_Parse ["-b"; "1"]
             [returning (pass "parser 1" "c"); returning (pass "parser 2" "d")]
             ([], demoSet) in
  r.1.1 = [("parser 1", ["a"; "c"; "d"]); ("parser 2", ["a"; "d"])] /\
  provideMap r.1.2 !! "c" = Some "parser 1" /\
  provideMap r.1.2 !! "d" = Some "parser 2".
Proof. vm_compute. repeat split. Qed.

(** An argument that is not a flag fails the run before any pass. *)
Example scenario_unknown_flag :
  let r := Set_Parse ["-notaflag"] (tracedAll [demoPassing]) (([], tt), demoSet) in
  r.2 = Ends (Returned (Some (Errorf "flag provided but not defined: -%s" ["notaflag"]))) /\
  r.1.1.1 = [].
Proof. vm_compute. repeat split. Qed.

(** Under a policy that is none of the three constants the primary
    parse goes on after an error, and does not end when an argument has
    the syntax of no flag. *)
Example scenario_other_policy :
  let registry := Set_Init demoSet "demo" (OtherHandling 7) in
  let r := Set_Parse (X := unit) ["-zz"; "-a"; "5"] [] (tt, registry) in
  let r' := Set_Parse (X := unit) ["-a"; "5"; "-=x"] [] (tt, registry) in
  r.2 = Ends (Returned None) /\
  provideMap r.1.2 !! "a" = Some SourceFlags /\
  r'.2 = Loops /\
  Set_Args r'.1.2 = ["-=x"].
Proof. vm_compute. repeat split. Qed.

(** The program of the heap example, run as it is. *)
Example scenario_heap :
  let r := Mem.run "" demoGrow demoEvents (Mem.Slice "" demoDefault parseString demoHeap) in
  Mem.elems r.2 (Mem.Value r.1) = ["1"; "2"; "3"] /\
  r.2 !! 0 = Some ["z"; "w"; "spare"].
Proof. vm_compute. repeat split. Qed.

(** A flag that a callback sets ahead of its turn is still called, once,
    in the walk that was under way, and not in the next walk. *)
Example scenario_set_ahead :
  let cb : Callback unit :=
    fun f w => if bool_decide (f = "a")
               then ((w.1, (Set_Set "ahead" "d" "true" w.2).1), None)
               else (w, None) in
  let first := Set_VisitRemaining (logged cb) (([], tt), demoSet) in
  let second := Set_VisitRemaining (logged cb) (([], tt), first.1.2) in
  first.1.1.1.*1 = ["a"; "b"; "c"; "d"] /\
  second.1.1.1.*1 = ["a"; "b"; "c"].
Proof. vm_compute. repeat split. Qed.

(** * More of the code *)

(** ** Values *)

Lemma slice_fold_later {T : Type} (parse : ValParser T) (f : slice T) (raws : list string) :
  slice_written f = true ->
  slice_Parse f = parse ->
  slice_Value (foldl (fun f r => (slice_Set f r).1) f raws)
    = slice_Value f
      ++ omap (fun r => match parse r with Ok v => Some v | Err _ => None end) raws.
Proof.
  revert f. induction raws as [|r raws IH]; intros f Hw Hp.
  - simpl. by rewrite app_nil_r.
  - cbn [foldl omap]. rewrite IH.
    + rewrite slice_Set_later by done. rewrite Hp.
      destruct (parse r) as [v|e] eqn:Hr; simpl; rewrite Hr;
        [by rewrite <- app_assoc | done].
    + apply slice_Set_written.
    + by rewrite slice_Set_Parse.
Qed.

(** X1: whatever strings a sequence flag is set with, one call each, it
    ends up holding the values of those that parse, in the order of the
    calls; the default survives only if it is never set, and a single
    rejected string is enough to lose it. *)
Theorem slice_holds_parsed_occurrences {T : Type} (parse : ValParser T)
    (defaults : list T) (raws : list string) :
  slice_Value (foldl (fun f r => (slice_Set f r).1) (Slice defaults parse) raws)
    = match raws with
      | [] => defaults
      | _ :: _ => omap (fun r => match parse r with Ok v => Some v | Err _ => None end) raws
      end.
Proof.
  destruct raws as [|r raws]; [done|].
  cbn [foldl]. rewrite (slice_fold_later parse).
  - rewrite slice_Set_first by done. cbn [Slice slice_Parse]. simpl.
    by destruct (parse r).
  - apply slice_Set_written.
  - by rewrite slice_Set_Parse.
Qed.

(** X2: the box never goes back to "not written": a second batch of
    occurrences (a second [Parse]) appends to what the first batch left
    instead of replacing it. *)
Theorem slice_second_batch_appends {T : Type} (parse : ValParser T)
    (defaults : list T) (raws1 raws2 : list string) (vs1 vs2 : list T) :
  raws1 <> [] ->
  Forall2 (fun r x => parse r = Ok x) raws1 vs1 ->
  Forall2 (fun r x => parse r = Ok x) raws2 vs2 ->
  slice_SetAll (slice_SetAll (Slice defaults parse) raws1).1 raws2
    = (mkSlice (vs1 ++ vs2) parse true, None).
Proof.
  intros Hne H1 H2. destruct H1 as [|r x raws1 vs1 Hr H1]; [done|].
  cbn [slice_SetAll]. rewrite slice_Set_first by done. cbn [Slice slice_Parse].
  rewrite Hr. rewrite (slice_SetAll_later parse _ raws1 vs1) by done. cbn [fst].
  by rewrite (slice_SetAll_later parse _ raws2 vs2).
Qed.

Lemma slice_second_batch_appends_witness :
  slice_SetAll (slice_SetAll (Strings ["x"; "y"]) ["1"; "2"]).1 ["3"]
    = (mkSlice ["1"; "2"; "3"] parseString true, None).
Proof.
  apply (slice_second_batch_appends parseString ["x"; "y"] ["1"; "2"] ["3"]
           ["1"; "2"] ["3"]).
  - discriminate.
  - repeat constructor.
  - repeat constructor.
Defined.

(** X3: a default given as a string is what setting that string on the
    flag would store: [MustVar] returns the box a [Set] of the default
    makes out of the zero value, and panics with the setter's error,
    wrapped, when that [Set] fails. *)
Theorem MustVar_is_Var_then_Set {T : Type} (zero : T) (defaultValue : string)
    (setter : ValSetter T) :
  MustVar zero defaultValue setter
    = match value_Set (Var zero setter) defaultValue with
      | (v, None) => Returned v
      | (_, Some err) =>
          Panicked (Errorw "flag: invalid default value %q: %w" [defaultValue] err)
      end.
Proof.
  unfold MustVar, value_Set, Var. cbn [value_Value value_Setter].
  by destruct (setter zero defaultValue) as [v [err|]].
Qed.

Lemma MustSlice_loop_ok {T : Type} (parse : ValParser T) (defaults : list string)
    (vs : list T) :
  Forall2 (fun r x => parse r = Ok x) defaults vs ->
  MustSlice_loop parse defaults = Returned vs.
Proof. induction 1 as [|r x rs vs Hr _ IH]; [done|]. simpl. by rewrite Hr, IH. Qed.

(** X4: [MustSlice] returns the box [Slice] makes of the parsed defaults
    when every default parses, and otherwise panics on the first one that
    does not, with that default and the parser's error in the panic. *)
Theorem MustSlice_all_or_first_failure {T : Type} (parse : ValParser T) :
  (forall defaults vs,
     Forall2 (fun r x => parse r = Ok x) defaults vs ->
     MustSlice defaults parse = Returned (Slice vs parse)) /\
  (forall pre vs bad post err,
     Forall2 (fun r x => parse r = Ok x) pre vs ->
     parse bad = Err err ->
     MustSlice (pre ++ bad :: post) parse
       = Panicked (Errorw "flag: invalid default value %q: %w" [bad] err)).
Proof.
  split.
  - intros defaults vs Hall. unfold MustSlice. by rewrite (MustSlice_loop_ok parse _ vs).
  - intros pre vs bad post err Hpre Hbad. unfold MustSlice.
    assert (MustSlice_loop parse (pre ++ bad :: post)
            = Panicked (Errorw "flag: invalid default value %q: %w" [bad] err)) as ->; [|done].
    induction Hpre as [|r x rs vs Hr _ IH]; simpl.
    + by rewrite Hbad.
    + by rewrite Hr, IH.
Qed.

Lemma MustSlice_all_or_first_failure_witness :
  MustSlice ["true"; "0"] ParseBool = Returned (Bools [true; false]) /\
  MustSlice ["true"; "maybe"; "0"] ParseBool
    = Panicked (Errorw "flag: invalid default value %q: %w" ["maybe"]
                  (Errorw "strconv.%s: parsing %s: %v" ["ParseBool"; "maybe"]
                     (ErrorsNew "invalid syntax"))).
Proof.
  destruct (MustSlice_all_or_first_failure ParseBool) as [Hok Hbad]. split.
  - apply (Hok ["true"; "0"] [true; false]). repeat constructor.
  - apply (Hbad ["true"] [true] "maybe" ["0"]); [repeat constructor | reflexivity].
Defined.

(** ** The registry *)



Lemma declare_NoDup (decls : list (string * Getter)) (registry registry' : Set') :
  declare registry decls = Returned registry' ->
  NoDup decls.*1 /\ (forall n, n ∈ decls.*1 -> formal (fs registry) !! n = None).
Proof.
  revert registry. induction decls as [|[name value] decls IH]; intros registry Hdecl.
  - split; [constructor|]. intros n Hn. by apply elem_of_nil in Hn.
  - simpl in Hdecl. destruct (Add registry name value "") as [r1| |] eqn:Hadd; try done.
    apply Add_spec in Hadd as (_ & _ & _ & Hnone & Hformal).
    apply IH in Hdecl as [Hnd Hfree]. simpl. split.
    + constructor; [|done]. intros Hin. specialize (Hfree name Hin).
      by rewrite Hformal, lookup_insert_eq in Hfree.
    + intros n [->|Hn]%elem_of_cons; [done|]. specialize (Hfree n Hn).
      rewrite Hformal in Hfree. apply lookup_insert_None in Hfree. tauto.
Qed.

(** X6: the order of the declarations does not show: [VisitAll] on a
    registry declared flag by flag calls exactly the declared names, each
    once, in increasing order. *)
Theorem declared_flags_visited_in_order (decls : list (string * Getter))
    (registry : Set') :
  declare zeroSet decls = Returned registry ->
  let names :=
    (Set_VisitAll (logged (fun _ (w : unit * Set') => (w, None)))
       (([], tt), registry)).1.1.1.*1 in
  names ≡ₚ decls.*1 /\ lexicographic names /\ NoDup decls.*1.
Proof.
  intros Hdecl names.
  destruct (declare_NoDup _ _ _ Hdecl) as [Hnd _].
  apply declare_spec in Hdecl as (_ & _ & _ & Hdom). simpl in Hdom.
  rewrite dom_empty_L, (right_id_L ∅ (∪)) in Hdom.
  assert (names = sortFlags (dom (formal (fs registry)))) as ->.
  { subst names. rewrite Set_VisitAll_spec. cbn [fst snd].
    destruct (walk_logged (fun _ (w : unit * Set') => (w, None))
                (sortFlags (dom (formal (fs registry)))) [] tt registry)
      as (log' & Hlog & Hshort & Hun).
    rewrite Hlog. cbn [app].
    assert ((foldl (fun w f => visitClosure (fun _ (w : unit * Set') => (w, None)) f w)
               ((tt, registry), None) (sortFlags (dom (formal (fs registry))))).2 = None)
      as Hnil.
    { generalize (sortFlags (dom (formal (fs registry)))). intros l.
      generalize (tt, registry). induction l as [|f l IH]; intros w; [done|]. apply IH. }
    unfold unlog in Hun. rewrite <- Hun in Hnil. cbn [snd] in Hnil.
    unfold shortCircuits in Hshort. rewrite Hnil in Hshort. rewrite Hshort.
    apply fst_nil_errors. }
  split; [|split; [apply lexicographic_sortFlags | done]].
  rewrite sortFlags_Permutation, Hdom. by apply elements_list_to_set.
Qed.

Lemma declared_flags_visited_in_order_witness :
  (Set_VisitAll (logged (fun _ (w : unit * Set') => (w, None)))
     (([], tt), demoSet)).1.1.1.*1 ≡ₚ demoDecls.*1.
Proof.
  apply (declared_flags_visited_in_order demoDecls demoSet). vm_compute. reflexivity.
Defined.

(** X7: [Set.Set] is what moves a flag from the remaining to the set
    ones.  After a [Set] that succeeds the flag is among those [Visit]
    walks and not among those [VisitRemaining] walks, and no other flag
    changes sides; after a [Set] that fails, nothing changes sides. *)
Theorem Set_Set_moves_flag (src : Source) (name raw : string) (registry : Set') :
  let after := (Set_Set src name raw registry).1 in
  match (Set_Set src name raw registry).2 with
  | None =>
      name ∈ sortFlags (actual (fs after)) /\
      (name ∉ remaining after) /\
      (forall n, n <> name -> (n ∈ remaining after <-> n ∈ remaining registry))
  | Some _ =>
      forall n, (n ∈ remaining after <-> n ∈ remaining registry) /\
                (n ∈ sortFlags (actual (fs after)) <-> n ∈ sortFlags (actual (fs registry)))
  end.
Proof.
  intros after. subst after.
  pose proof (Set_Set_fs src name raw registry) as Hfs.
  pose proof (FlagSet_Set_dom (fs registry) name raw) as Hdom.
  rewrite Set_Set_spec in *. rewrite FlagSet_Set_spec in *.
  destruct (formal (fs registry) !! name) as [flag|] eqn:Hflag; cbn [fst snd] in *.
  - destruct (Getter_Set (Value flag) raw).2 as [err|] eqn:Herr; cbn [fst snd] in *.
    + intros n. rewrite !elem_of_remaining, !elem_of_sortFlags. cbn [fs with_fs].
      cbn [formal actual with_formal] in *. rewrite Hdom. done.
    + rewrite !elem_of_remaining, !elem_of_sortFlags.
      cbn [fs with_fs with_provideMap formal actual with_formal with_actual] in *.
      split; [set_solver|]. split; [set_solver|].
      intros n Hn. rewrite !elem_of_remaining.
      cbn [fs with_fs with_provideMap formal actual with_formal with_actual].
      rewrite Hdom. set_solver.
  - done.
Qed.

(** ** What [Parse] leaves of the arguments *)

Lemma FlagSet_parseOne_rest (f : FlagSet) :
  args (FlagSet_parseOne f).1.1 `suffix_of` args f /\
  parsed (FlagSet_parseOne f).1.1 = parsed f.
Proof.
  split; [|apply FlagSet_parseOne_spec].
  unfold FlagSet_parseOne.
  destruct (args f) as [|s rest] eqn:Hargs; [cbn [fst snd]; by rewrite Hargs|].
  destruct (tokenOf s) as [| | |name hv v] eqn:Htok; cbn [fst snd args with_args];
    try (by rewrite Hargs); try (by apply suffix_cons_r).
  cbn [formal with_args].
  destruct (formal f !! name) as [flag|] eqn:Hflag.
  2:{ destruct (bool_decide (name = "help") || bool_decide (name = "h"));
        by apply suffix_cons_r. }
  rewrite !Flag_Value_Set_spec.
  destruct (Getter_IsBoolFlag (Value flag)).
  - destruct hv.
    + destruct (Getter_Set (Value flag) v).2; fs_simpl; by apply suffix_cons_r.
    + destruct (Getter_Set (Value flag) "true").2; fs_simpl; by apply suffix_cons_r.
  - destruct hv.
    + fs_simpl. cbn [negb]. rewrite Flag_Value_Set_spec.
      destruct (Getter_Set (Value flag) v).2; fs_simpl; by apply suffix_cons_r.
    + destruct rest as [|next more]; fs_simpl; cbn [negb]; [by apply suffix_cons_r|].
      rewrite Flag_Value_Set_spec.
      destruct (Getter_Set (Value flag) next).2; fs_simpl;
        by apply suffix_cons_r, suffix_cons_r.
Qed.

Lemma FlagSet_parseLoop_rest (fuel : nat) (f : FlagSet) :
  args (FlagSet_parseLoop fuel f).1 `suffix_of` args f /\
  parsed (FlagSet_parseLoop fuel f).1 = parsed f.
Proof.
  revert f. induction fuel as [|fuel IH]; intros f; [done|].
  simpl. destruct (FlagSet_parseOne_rest f) as [Hsuf Hparsed].
  destruct (FlagSet_parseOne f) as [[f1 seen] err]. cbn [fst snd] in *.
  destruct (IH f1) as [Hsuf' Hparsed'].
  assert (Hnext : args (FlagSet_parseLoop fuel f1).1 `suffix_of` args f /\
                  parsed (FlagSet_parseLoop fuel f1).1 = parsed f)
    by (split; [by etrans | congruence]).
  destruct seen; [done|].
  destruct err as [e|]; [|done]. by destruct (errorHandling f1).
Qed.

(** X8: however the parse of the arguments ends, the registry is marked
    parsed, and what [Args] returns is the tail of the argument list that
    the parse did not consume: [NArg] is its length, at most that of the
    arguments, and [Arg(i)] is its [i]-th element, or the empty string
    when [i] is negative or too large. *)
Theorem Parse_leaves_a_tail {X : Type} (arguments : list string) (x : X) (registry : Set') :
  let after := (Set_Parse arguments [] (x, registry)).1.2 in
  Set_Parsed after = true /\
  Set_Args after `suffix_of` arguments /\
  Set_NArg after = length (Set_Args after) /\
  Set_NArg after <= length arguments /\
  (forall i : nat, Set_Arg after (Z.of_nat i) = default "" (Set_Args after !! i)) /\
  (forall i : Z, (i < 0 \/ Z.of_nat (Set_NArg after) <= i)%Z -> Set_Arg after i = "").
Proof.
  intros after.
  assert (Hprimary : fs after = (FlagSet_Parse (fs registry) arguments).1).
  { subst after. unfold Set_Parse. cbn [fst snd].
    destruct (FlagSet_Parse (fs registry) arguments) as [f [[[e|]|c|e]|]]; try done.
    cbn [runParsers fst snd]. apply stampProvenance_spec. }
  unfold Set_Parsed, Set_Args, Set_NArg, Set_Arg. rewrite Hprimary. clear Hprimary after.
  rewrite FlagSet_Parse_state.
  set (f0 := {| Name := Name (fs registry); parsed := true; actual := actual (fs registry);
                formal := formal (fs registry); args := arguments;
                errorHandling := errorHandling (fs registry);
                undef := undef (fs registry) |}).
  destruct (FlagSet_parseLoop_rest (S (length arguments)) f0) as [Hsuf Hparsed].
  set (f' := (FlagSet_parseLoop (S (length arguments)) f0).1) in *.
  cbn [args parsed f0] in Hsuf, Hparsed.
  split; [done|]. split; [done|]. split; [done|].
  split; [by apply suffix_length|]. split.
  - intros i. destruct (decide (i < length (args f'))) as [Hi|Hi].
    + replace ((Z.of_nat i <? 0)%Z) with false by lia.
      replace ((Z.of_nat (length (args f')) <=? Z.of_nat i)%Z) with false by lia.
      cbn [orb]. rewrite Nat2Z.id. apply nth_lookup.
    + replace ((Z.of_nat (length (args f')) <=? Z.of_nat i)%Z) with true by lia.
      rewrite orb_true_r. rewrite (lookup_ge_None_2 (args f') i) by lia. done.
  - intros i [Hi|Hi].
    + by replace ((i <? 0)%Z) with true by lia.
    + replace ((Z.of_nat (length (args f')) <=? i)%Z) with true by lia.
      by rewrite orb_true_r.
Qed.

(** ** Boolean flags *)

(** X9: [IsBoolFlag] decides what a flag written without [=value] takes.
    A flag whose [IsBoolFlag] is true is set with ["true"] and leaves the
    next argument alone; any other flag is set with the next argument,
    which it consumes, and fails for want of one when there is none.
    [value] and [slice] answer true exactly for [bool] and [[]bool]. *)
Theorem IsBoolFlag_decides_the_argument (f : FlagSet) (s name : string)
    (rest : list string) (flag : Flag) :
  args f = s :: rest ->
  tokenOf s = FlagTok name false "" ->
  formal f !! name = Some flag ->
  (Getter_IsBoolFlag (Value flag) = true ->
     args (FlagSet_parseOne f).1.1 = rest /\
     formal (FlagSet_parseOne f).1.1 !! name
       = Some {| Usage := Usage flag; Value := (Getter_Set (Value flag) "true").1 |} /\
     (FlagSet_parseOne f).1.2 = bool_decide ((Getter_Set (Value flag) "true").2 = None)) /\
  (Getter_IsBoolFlag (Value flag) = false ->
     match rest with
     | next :: more =>
         args (FlagSet_parseOne f).1.1 = more /\
         formal (FlagSet_parseOne f).1.1 !! name
           = Some {| Usage := Usage flag; Value := (Getter_Set (Value flag) next).1 |} /\
         (FlagSet_parseOne f).1.2 = bool_decide ((Getter_Set (Value flag) next).2 = None)
     | [] =>
         FlagSet_parseOne f
           = (with_args f [], false, Some (Errorf "flag needs an argument: -%s" [name]))
     end) /\
  Getter_IsBoolFlag (value_Getter (Bool false)) = true /\
  Getter_IsBoolFlag (slice_Getter (Bools [])) = true /\
  Getter_IsBoolFlag (value_Getter (String_ "")) = false /\
  Getter_IsBoolFlag (slice_Getter (Strings [])) = false.
Proof.
  intros Hargs Htok Hflag. unfold FlagSet_parseOne. rewrite Hargs, Htok.
  cbn [formal with_args]. rewrite Hflag.
  split; [|split; [|done]].
  - intros ->. rewrite Flag_Value_Set_spec.
    destruct (Getter_Set (Value flag) "true").2; fs_simpl; by rewrite lookup_insert_eq.
  - intros ->. destruct rest as [|next more]; fs_simpl; cbn [negb]; [done|].
    rewrite Flag_Value_Set_spec.
    destruct (Getter_Set (Value flag) next).2; fs_simpl; by rewrite lookup_insert_eq.
Qed.

Lemma IsBoolFlag_decides_the_argument_witness :
  let f := with_args (fs demoSet) ["-d"; "-a"; "5"] in
  args (FlagSet_parseOne f).1.1 = ["-a"; "5"] /\
  formal (FlagSet_parseOne f).1.1 !! "d"
    = Some {| Usage := ""; Value := value_Getter (Bool true) |} /\
  args (FlagSet_parseOne (FlagSet_parseOne f).1.1).1.1 = [].
Proof.
  intros f.
  destruct (IsBoolFlag_decides_the_argument f "-d" "d" ["-a"; "5"]
              {| Usage := ""; Value := value_Getter (Bool false) |})
    as ((Hargs & Hformal & _) & _); [vm_compute; reflexivity..|].
  split; [exact Hargs|]. split; [rewrite Hformal; vm_compute; reflexivity|].
  vm_compute. reflexivity.
Defined.

(** ** The report of [PrintValues] *)

Lemma length_append (a b : string) :
  String.length (a +:+ b) = String.length a + String.length b.
Proof. induction a as [|c a IH]; [done|]. simpl. by rewrite IH. Qed.

Lemma length_spaces (n : nat) : String.length (spaces n) = n.
Proof. unfold spaces. induction n as [|n IH]; [done|]. simpl. by rewrite IH. Qed.

Lemma PrintValues_max_fold (rows : list (string * string)) (max0 : nat) :
  let max :=
    foldl (fun max row => if decide (max < String.length row.1)
                          then String.length row.1 else max) max0 rows in
  max0 <= max /\ Forall (fun row => String.length row.1 <= max) rows.
Proof.
  revert max0. induction rows as [|row rows IH]; intros max0; [by split|].
  cbn zeta. cbn [foldl].
  destruct (IH (if decide (max0 < String.length row.1)
                then String.length row.1 else max0)) as [Hle Hall].
  destruct (decide (max0 < String.length row.1)).
  - split; [lia|]. constructor; [lia | done].
  - split; [lia|]. constructor; [lia | done].
Qed.

Lemma PrintValues_max_attained (rows : list (string * string)) (max0 : nat) :
  let max :=
    foldl (fun max row => if decide (max < String.length row.1)
                          then String.length row.1 else max) max0 rows in
  max = max0 \/ exists row, row ∈ rows /\ String.length row.1 = max.
Proof.
  revert max0. induction rows as [|row rows IH]; intros max0; [by left|].
  cbn zeta. cbn [foldl].
  destruct (IH (if decide (max0 < String.length row.1)
                then String.length row.1 else max0)) as [Heq | (row' & Hin & Hlen)].
  - rewrite Heq. destruct (decide (max0 < String.length row.1)); [|by left].
    right. exists row. split; [by left | done].
  - right. exists row'. split; [by right | done].
Qed.

(** The rows are those of the declared names, in the order of the walk. *)
Lemma PrintValues_rows_fold (render : Getter -> string) (registry : Set')
    (names names0 : list string) (rows0 : list (string * string)) :
  let R := fun (n : string) (row : string * string) =>
    exists fl,
      formal (fs registry) !! n = Some fl /\
      row = ("  -" +:+ n +:+ " " +:+ render (Value fl),
             "(" +:+ default "" (provideMap registry !! n) +:+ ")" +:+ String "010" "") in
  Forall (fun n => is_Some (formal (fs registry) !! n)) names ->
  Forall2 R names0 rows0 ->
  Forall2 R (names0 ++ names)
    (foldl (fun rows flag =>
              match formal (fs registry) !! flag with
              | Some fl =>
                  rows ++ [("  -" +:+ flag +:+ " " +:+ render (Value fl),
                            "(" +:+ default "" (provideMap registry !! flag) +:+ ")"
                              +:+ String "010" "")]
              | None => rows
              end) rows0 names).
Proof.
  intros R Hall. revert names0 rows0.
  induction Hall as [|n names [fl Hfl] _ IH]; intros names0 rows0 H0.
  - simpl. by rewrite app_nil_r.
  - cbn [foldl]. rewrite Hfl. rewrite (cons_middle n names0 names), (assoc_L (++)).
    apply IH. apply Forall2_app; [done|]. constructor; [|constructor]. by exists fl.
Qed.

Lemma append_assoc (a b c : string) : (a +:+ b) +:+ c = a +:+ (b +:+ c).
Proof.
  induction a as [|x a IH]; [done|].
  change (String x ((a +:+ b) +:+ c) = String x (a +:+ (b +:+ c))). by rewrite IH.
Qed.

Lemma append_empty_r (a : string) : a +:+ "" = a.
Proof.
  induction a as [|x a IH]; [done|].
  change (String x (a +:+ "") = String x a). by rewrite IH.
Qed.

Lemma foldl_lines (line : string * string -> string) (rows : list (string * string))
    (out : string) :
  foldl (fun out row => out +:+ line row) out rows
    = out +:+ foldr (fun row rest => line row +:+ rest) "" rows.
Proof.
  revert out. induction rows as [|row rows IH]; intros out.
  - simpl. by rewrite append_empty_r.
  - cbn [foldl foldr]. by rewrite IH, append_assoc.
Qed.

(** X10: the report is the header, which names the set when it has a
    name, followed by one line per declared flag, in increasing order
    of the names.  The line of a flag is its prefix ["  -name value"],
    spaces, and its source in parentheses, and the sources line up:
    there is a width, the length of the longest prefix (0 when there is
    no flag), such that every prefix with its spaces is one longer than
    it, so that at least one space comes before a source. *)
Theorem PrintValues_aligns_sources (render : Getter -> string) (registry : Set') :
  let names := sortFlags (dom (formal (fs registry))) in
  exists (max : nat) (lines : list string),
    PrintValues render registry
      = (if bool_decide (Name (fs registry) = "")
         then "Current configuration:" +:+ String "010" ""
         else "Current configuration of " +:+ Name (fs registry) +:+ ":" +:+ String "010" "")
        +:+ foldr String.append "" lines /\
    lexicographic names /\
    (forall n, n ∈ names <-> is_Some (Set_Lookup registry n)) /\
    Forall2
      (fun n line =>
         exists fl,
           formal (fs registry) !! n = Some fl /\
           String.length ("  -" +:+ n +:+ " " +:+ render (Value fl)) <= max /\
           String.length
             (("  -" +:+ n +:+ " " +:+ render (Value fl))
              +:+ spaces (max - String.length ("  -" +:+ n +:+ " " +:+ render (Value fl)) + 1))
             = max + 1 /\
           line
             = ("  -" +:+ n +:+ " " +:+ render (Value fl))
               +:+ spaces (max - String.length ("  -" +:+ n +:+ " " +:+ render (Value fl)) + 1)
               +:+ "(" +:+ default "" (provideMap registry !! n) +:+ ")" +:+ String "010" "")
      names lines /\
    (names = [] -> max = 0) /\
    (names <> [] ->
     exists n fl,
       n ∈ names /\ formal (fs registry) !! n = Some fl /\
       String.length ("  -" +:+ n +:+ " " +:+ render (Value fl)) = max).
Proof.
  intros names.
  set (rows := PrintValues_rows render registry).
  set (max := PrintValues_max rows).
  assert (Hrows : Forall2
            (fun n row =>
               exists fl,
                 formal (fs registry) !! n = Some fl /\
                 row = ("  -" +:+ n +:+ " " +:+ render (Value fl),
                        "(" +:+ default "" (provideMap registry !! n) +:+ ")"
                          +:+ String "010" "")) names rows).
  { apply (PrintValues_rows_fold render registry names [] []); [|constructor].
    apply Forall_forall. intros n Hn. apply elem_of_sortFlags in Hn.
    by apply elem_of_dom. }
  assert (Hlex : lexicographic names) by apply lexicographic_sortFlags.
  assert (Hdom : forall n, n ∈ names <-> is_Some (Set_Lookup registry n)).
  { intros n. unfold names, Set_Lookup, FlagSet_Lookup.
    by rewrite elem_of_sortFlags, elem_of_dom. }
  assert (Hout : PrintValues render registry
      = (if bool_decide (Name (fs registry) = "")
         then "Current configuration:" +:+ String "010" ""
         else "Current configuration of " +:+ Name (fs registry) +:+ ":" +:+ String "010" "")
        +:+ foldr String.append ""
              ((fun row : string * string =>
                  row.1 +:+ spaces (max - String.length row.1 + 1) +:+ row.2) <$> rows)).
  { unfold PrintValues. fold rows. fold max. cbn zeta.
    rewrite (foldl_lines (fun row : string * string =>
               row.1 +:+ spaces (max - String.length row.1 + 1) +:+ row.2)).
    f_equal. generalize rows. intros l. induction l as [|row l IH]; [done|].
    cbn [foldr fmap list_fmap]. by rewrite <- IH. }
  assert (Hmax : Forall (fun row : string * string => String.length row.1 <= max) rows)
    by apply (PrintValues_max_fold rows 0).
  assert (Hatt : max = 0 \/ exists row, row ∈ rows /\ String.length row.1 = max)
    by apply (PrintValues_max_attained rows 0).
  assert (Hempty : rows = [] -> max = 0) by (by intros Hnil; unfold max; rewrite Hnil).
  clearbody max. clearbody rows. clearbody names.
  exists max, ((fun row : string * string =>
                  row.1 +:+ spaces (max - String.length row.1 + 1) +:+ row.2) <$> rows).
  split; [done|]. split; [done|]. split; [done|]. split; [|split].
  - apply Forall2_fmap_r. clear -Hrows Hmax.
    induction Hrows as [|n row names rows (fl & Hfl & ->) _ IH]; [constructor|].
    apply Forall_cons in Hmax as [Hrow Hmax]. constructor; [|by apply IH].
    exists fl. cbn [fst snd] in *. split; [done|]. split; [done|]. split; [|done].
    rewrite length_append, length_spaces. lia.
  - intros Hnil. rewrite Hnil in Hrows. apply Forall2_nil_inv_l in Hrows. auto.
  - intros Hne. destruct Hatt as [Hzero | (row & Hin & Hlen)].
    + destruct Hrows as [|n row names' rows' (fl & Hfl & ->) _]; [done|].
      apply Forall_cons in Hmax as [Hrow _]. cbn [fst] in Hrow.
      exists n, fl. split; [by left|]. split; [done|].
      assert (0 < String.length ("  -" +:+ n +:+ " " +:+ render (Value fl)))
        by (rewrite length_append; cbn; lia).
      lia.
    + apply list_elem_of_lookup in Hin as [i Hi].
      destruct (Forall2_lookup_r _ _ _ _ _ Hrows Hi) as (n & Hn & fl & Hfl & ->).
      exists n, fl. split; [by eapply list_elem_of_lookup_2|]. done.
Qed.

Example PrintValues_demo :
  PrintValues (fun _ => "?") (stampProvenance (Set_Init demoSet "demo" ContinueOnError))
    = "Current configuration of demo:" +:+ String "010" ""
      +:+ "  -a ? (default)" +:+ String "010" ""
      +:+ "  -b ? (default)" +:+ String "010" ""
      +:+ "  -c ? (default)" +:+ String "010" ""
      +:+ "  -d ? (default)" +:+ String "010" "".
Proof. vm_compute. reflexivity. Qed.

(** ** The [Set.Set] calls of a walk *)

Lemma applyCalls_app (calls1 calls2 : list SetCall) (registry : Set') :
  applyCalls (calls1 ++ calls2) registry = applyCalls calls2 (applyCalls calls1 registry).
Proof. apply foldl_app. Qed.


Lemma setsVisited_applyCalls (f : string) (calls : list (Source * string))
    (registry : Set') :
  foldl (fun registry c => (Set_Set c.1 f c.2 registry).1) registry calls
    = applyCalls ((fun c : Source * string => (c.1, f, c.2)) <$> calls) registry.
Proof.
  revert registry. induction calls as [|c calls IH]; intros registry; [done|].
  unfold applyCalls in *. cbn [foldl fmap list_fmap fst snd]. apply IH.
Qed.

(** What a walk does to the registry is a sequence of [Set.Set] calls,
    each on one of the names walked, and only on names for which the
    callback does not leave the registry alone. *)
Lemma walk_calls {X : Type} (fn : Callback X) (P : string -> Prop) (names : list string)
    (s : X * Set' * option error) :
  setsVisitedOnly fn ->
  (forall f w, P f \/ (fn f w).1.2 = w.2) ->
  exists calls : list SetCall,
    (foldl (fun w f => visitClosure fn f w) s names).1.2 = applyCalls calls s.1.2 /\
    Forall (fun c : SetCall => c.1.2 ∈ names /\ P c.1.2) calls.
Proof.
  intros Hfn HP. revert s. induction names as [|f names IH]; intros [w verr].
  - by exists [].
  - cbn [foldl]. destruct (IH (visitClosure fn f (w, verr))) as (calls & Heq & Hall).
    assert (Hall' : Forall (fun c : SetCall => c.1.2 ∈ f :: names /\ P c.1.2) calls).
    { eapply Forall_impl; [exact Hall|]. intros c [Hin Hc]. split; [by right | done]. }
    destruct verr as [e|]; [by exists calls|].
    cbn [visitClosure fst snd] in *.
    destruct (HP f w) as [Hf | Hsame].
    + destruct (Hfn f w) as [calls0 Hcalls0]. rewrite setsVisited_applyCalls in Hcalls0.
      exists (((fun c : Source * string => (c.1, f, c.2)) <$> calls0) ++ calls).
      rewrite applyCalls_app, <- Hcalls0. split; [done|].
      apply Forall_app. split; [|done].
      apply Forall_fmap, Forall_forall. intros c _. cbn. split; [by left | done].
    + exists calls. by rewrite <- Hsame.
Qed.

(** A walk that returns an error walked some names without one and
    stopped at the call that returned it. *)
Lemma walk_failure {X : Type} (fn : Callback X) (names : list string) (w : X * Set')
    (e : error) :
  (foldl (fun w f => visitClosure fn f w) (w, None) names).2 = Some e ->
  exists pre f post w1,
    names = pre ++ f :: post /\
    foldl (fun w f => visitClosure fn f w) (w, None) pre = (w1, None) /\
    fn f w1 = ((foldl (fun w f => visitClosure fn f w) (w, None) names).1, Some e).
Proof.
  revert w. induction names as [|f names IH]; intros w; [done|].
  rewrite walk_cons. destruct (fn f w) as [w' [e'|]] eqn:Hfn.
  - rewrite walk_stopped. cbn [fst snd]. intros [= <-].
    by exists [], f, names, w.
  - intros Hrest. destruct (IH w' Hrest) as (pre & g & post & w1 & -> & Hpre & Hg).
    exists (f :: pre), g, post, w1. split; [done|]. split; [|done].
    by rewrite walk_cons, Hfn.
Qed.

(** ** The [env] pass *)

Lemma walk_ext {X : Type} (fn fn' : Callback X) (names : list string)
    (s : X * Set' * option error) :
  (forall f w, fn f w = fn' f w) ->
  foldl (fun w f => visitClosure fn f w) s names
    = foldl (fun w f => visitClosure fn' f w) s names.
Proof.
  intros Hext. revert s. induction names as [|f names IH]; intros [w verr]; [done|].
  simpl. rewrite IH. by destruct verr; [|rewrite Hext].
Qed.

(** X11: the environment has precedence over the env file.  When the
    variable of a flag is defined in the environment, what the callback
    of [env.Parse] does does not depend on the env file, whether one is
    configured or what it holds; without a splitter it is one [Set] of
    the variable's value with the source ["env: NAME"], whose error, if
    any, comes back wrapped. *)
Theorem env_variable_beats_file {X : Type} (p : string) (m : Mapper) (l : LookupFunc)
    (file : option (X * Set' -> string)) (optional : bool)
    (fileData : gmap string string) (flag : string) (w : X * Set') :
  (l (m (p +:+ flag)).1).2 = true ->
  env_visit (mkOptions p m l file optional) fileData flag w
    = env_visit (mkOptions p m l None false) ∅ flag w /\
  ((m (p +:+ flag)).2 = NoSplit ->
   env_visit (mkOptions p m l file optional) fileData flag w
     = ((w.1, (Set_Set ("env: " +:+ (m (p +:+ flag)).1) flag
                 (l (m (p +:+ flag)).1).1 w.2).1),
        match (Set_Set ("env: " +:+ (m (p +:+ flag)).1) flag
                 (l (m (p +:+ flag)).1).1 w.2).2 with
        | Some err => Some (Errorw "env: %w" [] err)
        | None => None
        end)).
Proof.
  intros Hfound. unfold env_visit. cbn [prefix mapper lookupFunc envFile].
  destruct (m (p +:+ flag)) as [name splitValBy]. cbn [fst snd] in *.
  destruct (l name) as [val ok]. cbn [fst snd] in *. subst ok. cbn [negb].
  split; [done|]. intros ->. unfold NoSplit. cbn [negb].
  rewrite bool_decide_eq_true_2 by done. cbn [negb].
  by destruct (Set_Set ("env: " +:+ name) flag val w.2) as [registry [err|]].
Qed.

Lemma env_variable_beats_file_witness :
  env_visit (mkOptions "" (fun n => (n, NoSplit)) (fun _ => ("true", true))
               (Some (fun _ => ".env")) true) {[ "a" := "from the file" ]} "a" (tt, demoSet)
    = env_visit demoOptions ∅ "a" (tt, demoSet).
Proof.
  exact (proj1 (env_variable_beats_file "" (fun n => (n, NoSplit)) (fun _ => ("true", true))
                  (Some (fun _ => ".env")) true {[ "a" := "from the file" ]} "a"
                  (tt, demoSet) eq_refl)).
Defined.

(** X12: an env file that is optional and does not exist is as good as
    none: the pass does exactly what it does with no env file
    configured. *)
Theorem optional_missing_env_file_is_no_file {X : Type} (os : OS) (p : string)
    (m : Mapper) (l : LookupFunc) (path : X * Set' -> string) (w : X * Set')
    (err : error) :
  os_Open os (path w) = Err err ->
  is_ErrNotExist os err = true ->
  env_Parse os (mkOptions p m l (Some path) true) w
    = env_Parse os (mkOptions p m l None false) w.
Proof.
  intros Hopen Hmissing. unfold env_Parse, maybeParseEnvFile.
  cbn [envFile envFileOptional]. rewrite Hopen, Hmissing. cbn [andb].
  rewrite !Set_VisitRemaining_spec. apply walk_ext. intros f w'.
  unfold env_visit. cbn [prefix mapper lookupFunc envFile].
  destruct (m (p +:+ f)) as [name splitValBy]. destruct (l name) as [val [|]]; [done|].
  cbn [negb]. by rewrite lookup_empty.
Qed.

Lemma optional_missing_env_file_is_no_file_witness :
  env_Parse demoOS (mkOptions "" (fun n => (n, NoSplit)) (fun _ => ("true", true))
                      (Some (fun _ => ".env")) true) (tt, demoSet)
    = env_Parse demoOS demoOptions (tt, demoSet).
Proof.
  exact (optional_missing_env_file_is_no_file demoOS "" (fun n => (n, NoSplit))
           (fun _ => ("true", true)) (fun _ => ".env") (tt, demoSet) _ eq_refl eq_refl).
Defined.

(** X13: an env file that cannot be used fails the pass before any flag
    is looked at: a file that cannot be opened, unless it is missing and
    optional, and a file that does not parse, optional or not.  The
    error wraps the cause and names the path; the registry is as it
    was. *)
Theorem unusable_env_file_fails_first {X : Type} (os : OS) (o : options X)
    (path : X * Set' -> string) (w : X * Set') (err : error) :
  envFile o = Some path ->
  (os_Open os (path w) = Err err /\
   (envFileOptional o = false \/ is_ErrNotExist os err = false)) \/
  (exists data, os_Open os (path w) = Ok data /\ envparse_Parse os data = Err err) ->
  env_Parse os o w
    = (w, Some (Errorw "env: unable to parse env file %q: %w" [path w] err)).
Proof.
  intros Hfile Hbad. unfold env_Parse, maybeParseEnvFile. rewrite Hfile.
  destruct Hbad as [[Hopen Hwhy] | (data & Hopen & Hparse)]; rewrite Hopen.
  - destruct Hwhy as [-> | ->]; [done|]. by rewrite andb_false_r.
  - by rewrite Hparse.
Qed.

Lemma unusable_env_file_fails_first_witness :
  env_Parse demoOS (mkOptions "" (fun n => (n, NoSplit)) (fun _ => ("true", true))
                      (Some (fun _ => ".env")) false) (tt, demoSet)
    = ((tt, demoSet),
       Some (Errorw "env: unable to parse env file %q: %w" [".env"]
               (ErrorsNew "file does not exist"))).
Proof.
  apply (unusable_env_file_fails_first demoOS _ (fun _ => ".env") (tt, demoSet));
    [reflexivity|]. left. split; [reflexivity | by left].
Defined.


(** The callback does not touch what the caller captured. *)
Lemma env_visit_captured {X : Type} (o : options X) (fileData : gmap string string)
    (f : string) (w : X * Set') :
  (env_visit o fileData f w).1.1 = w.1.
Proof.
  unfold env_visit. destruct (mapper o (prefix o +:+ f)) as [name splitValBy].
  destruct (lookupFunc o name) as [val ok].
  set (found := if negb ok then _ else _). destruct found as [[val' ok'] src].
  destruct (negb ok'); [done|].
  destruct (negb (bool_decide (splitValBy = ""))).
  - by destruct (setEach src f (strings_Split val' splitValBy) w.2).
  - by destruct (Set_Set src f val' w.2) as [registry' [err|]].
Qed.



(** The loop over the pieces stops at the first [Set.Set] that fails,
    after those of the pieces before it. *)
Lemma setEach_failure (src : Source) (flag : string) (vals : list string)
    (registry final : Set') (e : error) :
  setEach src flag vals registry = (final, Some e) ->
  exists cause val pieces,
    e = Errorw "env: %w" [] cause /\
    val ∈ vals /\
    Forall (fun c : SetCall => c.1.2 = flag) pieces /\
    Set_Set src flag val (applyCalls pieces registry) = (final, Some cause).
Proof.
  revert registry. induction vals as [|val vals IH]; intros registry; [done|].
  cbn [setEach]. destruct (Set_Set src flag val registry) as [registry' [err|]] eqn:Hset.
  - intros [= <- <-]. exists err, val, []. split; [done|]. split; [by left|].
    split; [constructor | exact Hset].
  - intros Hrest.
    destruct (IH registry' Hrest) as (cause & val' & pieces & -> & Hin & Hall & Hfail).
    exists cause, val', ((src, flag, val) :: pieces).
    split; [done|]. split; [by right|]. split; [by constructor|].
    unfold applyCalls in *. cbn [foldl fst snd]. by rewrite Hset.
Qed.

(** A call of the callback that returns an error. *)
Lemma env_visit_failure {X : Type} (o : options X) (fileData : gmap string string)
    (flag : string) (w final : X * Set') (e : error) :
  env_visit o fileData flag w = (final, Some e) ->
  exists cause src raw val pieces,
    ((lookupFunc o (mapper o (prefix o +:+ flag)).1).2 = true /\
     raw = (lookupFunc o (mapper o (prefix o +:+ flag)).1).1 /\
     src = "env: " +:+ (mapper o (prefix o +:+ flag)).1 \/
     (lookupFunc o (mapper o (prefix o +:+ flag)).1).2 = false /\
     fileData !! (mapper o (prefix o +:+ flag)).1 = Some raw /\
     src = match envFile o with
           | Some path =>
               "envfile[" +:+ path w +:+ "]: " +:+ (mapper o (prefix o +:+ flag)).1
           | None => "env: " +:+ (mapper o (prefix o +:+ flag)).1
           end) /\
    (if decide ((mapper o (prefix o +:+ flag)).2 = "") then val = raw
     else val ∈ strings_Split raw (mapper o (prefix o +:+ flag)).2) /\
    Forall (fun c : SetCall => c.1.2 = flag) pieces /\
    e = Errorw "env: %w" [] cause /\
    Set_Set src flag val (applyCalls pieces w.2) = (final.2, Some cause).
Proof.
  assert (Hset : forall src raw splitValBy,
            (if negb (bool_decide (splitValBy = ""))
             then
               let '(set, err) := setEach src flag (strings_Split raw splitValBy) w.2 in
               ((w.1, set), err)
             else
               match Set_Set src flag raw w.2 with
               | (set, Some err) => ((w.1, set), Some (Errorw "env: %w" [] err))
               | (set, None) => ((w.1, set), None)
               end) = (final, Some e) ->
            exists cause val pieces,
              (if decide (splitValBy = "") then val = raw
               else val ∈ strings_Split raw splitValBy) /\
              Forall (fun c : SetCall => c.1.2 = flag) pieces /\
              e = Errorw "env: %w" [] cause /\
              Set_Set src flag val (applyCalls pieces w.2) = (final.2, Some cause)).
  { intros src raw splitValBy. destruct (decide (splitValBy = "")) as [Hs|Hs].
    - rewrite bool_decide_eq_true_2 by done. cbn [negb].
      destruct (Set_Set src flag raw w.2) as [registry' [err|]] eqn:Hcall; [|done].
      intros [= <- <-]. by exists err, raw, [].
    - rewrite bool_decide_eq_false_2 by done. cbn [negb].
      destruct (setEach src flag (strings_Split raw splitValBy) w.2) as [registry' err]
        eqn:Heach.
      intros [= <- ->].
      destruct (setEach_failure _ _ _ _ _ _ Heach) as (cause & val & pieces & -> & Hin & Hall & Hfail).
      by exists cause, val, pieces. }
  unfold env_visit. destruct (mapper o (prefix o +:+ flag)) as [name splitValBy].
  cbn [fst snd]. destruct (lookupFunc o name) as [val [|]]; cbn [fst snd negb].
  - intros Hrun. destruct (Hset _ _ _ Hrun) as (cause & val' & pieces & Hval & Hall & He & Hfail).
    exists cause, ("env: " +:+ name), val, val', pieces.
    split; [by left|]. done.
  - destruct (fileData !! name) as [raw|] eqn:Hfd.
    + destruct (envFile o) as [path|]; cbn [negb]; intros Hrun;
        destruct (Hset _ _ _ Hrun) as (cause & val' & pieces & Hval & Hall & He & Hfail).
      * exists cause, ("envfile[" +:+ path w +:+ "]: " +:+ name), raw, val', pieces.
        split; [by right|]. done.
      * exists cause, ("env: " +:+ name), raw, val', pieces.
        split; [by right|]. done.
    + by destruct (envFile o).
Qed.

(** X15: an error of the pass is about the env file, and then the pass
    has done nothing else, or it is the error of a [Set.Set] the pass
    made, wrapped with ["env: %w"], so that the cause stays within reach
    of [errors.Is] and [errors.As].  That [Set.Set] is the last thing
    the pass does: it follows the calls the pass made for flags walked
    before and for earlier pieces of the same value, it is made on a
    flag of the walk, with the source naming the variable and with the
    value of the variable or one of its pieces, and it leaves the
    registry as the pass leaves it. *)
Theorem env_errors_wrap_Set_errors {X : Type} (os : OS) (o : options X) (w : X * Set')
    (e : error) :
  (env_Parse os o w).2 = Some e ->
  (exists path cause,
     envFile o = Some path /\
     maybeParseEnvFile os (path w) (envFileOptional o) = Err cause /\
     e = Errorw "env: unable to parse env file %q: %w" [path w] cause /\
     (env_Parse os o w).1 = w) \/
  (exists fileData flag cause src raw val calls pieces,
     match envFile o with
     | Some path => maybeParseEnvFile os (path w) (envFileOptional o) = Ok fileData
     | None => fileData = ∅
     end /\
     flag ∈ remaining w.2 /\
     Forall (fun c : SetCall => c.1.2 ∈ remaining w.2) calls /\
     Forall (fun c : SetCall => c.1.2 = flag) pieces /\
     ((lookupFunc o (mapper o (prefix o +:+ flag)).1).2 = true /\
      raw = (lookupFunc o (mapper o (prefix o +:+ flag)).1).1 /\
      src = "env: " +:+ (mapper o (prefix o +:+ flag)).1 \/
      (lookupFunc o (mapper o (prefix o +:+ flag)).1).2 = false /\
      fileData !! (mapper o (prefix o +:+ flag)).1 = Some raw /\
      src = match envFile o with
            | Some path =>
                "envfile[" +:+ path (w.1, applyCalls calls w.2) +:+ "]: "
                  +:+ (mapper o (prefix o +:+ flag)).1
            | None => "env: " +:+ (mapper o (prefix o +:+ flag)).1
            end) /\
     (if decide ((mapper o (prefix o +:+ flag)).2 = "") then val = raw
      else val ∈ strings_Split raw (mapper o (prefix o +:+ flag)).2) /\
     e = Errorw "env: %w" [] cause /\
     Set_Set src flag val (applyCalls (calls ++ pieces) w.2)
       = ((env_Parse os o w).1.2, Some cause)).
Proof.
  assert (Hwalk : forall fileData,
            (Set_VisitRemaining (env_visit o fileData) w).2 = Some e ->
            exists flag cause src raw val calls pieces,
              flag ∈ remaining w.2 /\
              Forall (fun c : SetCall => c.1.2 ∈ remaining w.2) calls /\
              Forall (fun c : SetCall => c.1.2 = flag) pieces /\
              ((lookupFunc o (mapper o (prefix o +:+ flag)).1).2 = true /\
               raw = (lookupFunc o (mapper o (prefix o +:+ flag)).1).1 /\
               src = "env: " +:+ (mapper o (prefix o +:+ flag)).1 \/
               (lookupFunc o (mapper o (prefix o +:+ flag)).1).2 = false /\
               fileData !! (mapper o (prefix o +:+ flag)).1 = Some raw /\
               src = match envFile o with
                     | Some path =>
                         "envfile[" +:+ path (w.1, applyCalls calls w.2) +:+ "]: "
                           +:+ (mapper o (prefix o +:+ flag)).1
                     | None => "env: " +:+ (mapper o (prefix o +:+ flag)).1
                     end) /\
              (if decide ((mapper o (prefix o +:+ flag)).2 = "") then val = raw
               else val ∈ strings_Split raw (mapper o (prefix o +:+ flag)).2) /\
              e = Errorw "env: %w" [] cause /\
              Set_Set src flag val (applyCalls (calls ++ pieces) w.2)
                = ((Set_VisitRemaining (env_visit o fileData) w).1.2, Some cause)).
  { intros fileData. rewrite Set_VisitRemaining_spec. intros Hrun.
    destruct (walk_failure _ _ _ _ Hrun) as (pre & flag & post & w1 & Hnames & Hpre & Hcall).
    destruct (walk_calls (env_visit o fileData) (fun _ => True) pre (w, None))
      as (calls & Hcalls & Hall); [apply env_visit_setsVisitedOnly | by left |].
    rewrite Hpre in Hcalls. cbn [fst snd] in Hcalls.
    assert (Hcaptured : w1.1 = w.1).
    { pose proof (walk_invariant (fun w' : X * Set' => w'.1 = w.1)
                    (env_visit o fileData) pre (w, None)) as Hinv.
      rewrite Hpre in Hinv. apply Hinv; [|done].
      intros f w' _ <-. apply env_visit_captured. }
    destruct (env_visit_failure _ _ _ _ _ _ Hcall)
      as (cause & src & raw & val & pieces & Hsrc & Hval & Hpieces & He & Hfail).
    assert (Hw1 : w1 = (w.1, applyCalls calls w.2)).
    { destruct w1 as [x1 registry1]. cbn [fst snd] in *. by subst. }
    exists flag, cause, src, raw, val, calls, pieces.
    split; [rewrite Hnames; set_solver|].
    split. { eapply Forall_impl; [exact Hall|]. intros c [Hin _]. rewrite Hnames. set_solver. }
    split; [exact Hpieces|]. split; [by rewrite <- Hw1|]. split; [exact Hval|].
    split; [exact He|]. by rewrite applyCalls_app, <- Hcalls. }
  unfold env_Parse. destruct (envFile o) as [path|].
  - destruct (maybeParseEnvFile os (path w) (envFileOptional o)) as [fd|err] eqn:Hfd.
    + intros He. right.
      destruct (Hwalk fd He) as (flag & cause & src & raw & val & calls & pieces & H).
      by exists fd, flag, cause, src, raw, val, calls, pieces.
    + cbn [fst snd]. intros [= <-]. left. by exists path, err.
  - intros He. right.
    destruct (Hwalk ∅ He) as (flag & cause & src & raw & val & calls & pieces & H).
    by exists ∅, flag, cause, src, raw, val, calls, pieces.
Qed.

Lemma env_errors_wrap_Set_errors_witness :
  let o := mkOptions (X := unit) "" (fun n => (n, NoSplit)) (fun _ => ("7", true))
             None false in
  exists e cause src val calls flag,
    (env_Parse demoOS o (tt, demoSet)).2 = Some e /\
    flag ∈ remaining demoSet /\
    e = Errorw "env: %w" [] cause /\
    Set_Set src flag val (applyCalls calls demoSet)
      = ((env_Parse demoOS o (tt, demoSet)).1.2, Some cause).
Proof.
  intros o.
  assert (Hrun : (env_Parse demoOS o (tt, demoSet)).2
                 = Some (Errorw "env: %w" []
                           (Errorw "strconv.%s: parsing %s: %v" ["ParseBool"; "7"]
                              (ErrorsNew "invalid syntax"))))
    by (vm_compute; reflexivity).
  destruct (env_errors_wrap_Set_errors demoOS o (tt, demoSet) _ Hrun)
    as [(path & cause & Hpath & _) |
        (fd & flag & cause & src & raw & val & calls & pieces & _ & Hflag & _ & _ & _ & _
         & He & Hfail)].
  - discriminate Hpath.
  - eexists _, cause, src, val, (calls ++ pieces), flag.
    split; [exact Hrun|]. split; [exact Hflag|]. split; [exact He | exact Hfail].
Defined.

(** ** [DefaultMapper] *)

Lemma toUpperByte_word (c : ascii) : isWordByte c = true -> isEnvByte (toUpperByte c) = true.
Proof. destruct c as [[] [] [] [] [] [] [] []]; vm_compute; done. Qed.

Lemma toUpperByte_env (c : ascii) :
  isEnvByte c = true -> isWordByte c = true /\ toUpperByte c = c.
Proof. destruct c as [[] [] [] [] [] [] [] []]; vm_compute; done. Qed.

Lemma replaceNonWord_word (skip : nat) (s : string) :
  allBytes isWordByte (replaceNonWord skip s) = true.
Proof.
  revert skip. induction s as [|c s IH]; intros skip; [done|].
  simpl. destruct skip as [|k]; [|apply IH].
  destruct (isWordByte c) eqn:Hc; simpl; [by rewrite Hc, IH | apply IH].
Qed.

Lemma ToUpper_ascii_env (s : string) :
  allBytes isWordByte s = true -> allBytes isEnvByte (ToUpper_ascii s) = true.
Proof.
  induction s as [|c s IH]; [done|]. simpl. intros [Hc Hs]%andb_prop.
  by rewrite toUpperByte_word, IH.
Qed.

Lemma ToUpper_ascii_length (s : string) : String.length (ToUpper_ascii s) = String.length s.
Proof. induction s as [|c s IH]; [done|]. simpl. by rewrite IH. Qed.

Lemma DefaultMapper_fixes_env_names (s : string) :
  allBytes isEnvByte s = true -> ToUpper_ascii (replaceNonWord 0 s) = s.
Proof.
  induction s as [|c s IH]; [done|]. simpl. intros [Hc Hs]%andb_prop.
  destruct (toUpperByte_env c Hc) as [Hword Hup]. rewrite Hword. simpl.
  by rewrite Hup, IH.
Qed.

Lemma replaceNonWord_word_length (s : string) :
  allBytes isWordByte s = true -> String.length (replaceNonWord 0 s) = String.length s.
Proof.
  induction s as [|c s IH]; [done|]. simpl. intros [Hc Hs]%andb_prop.
  rewrite Hc. simpl. by rewrite IH.
Qed.

(** X16: the name [DefaultMapper] gives a flag is one an environment
    variable can have: it consists of the bytes [A-Z], [0-9] and [_]
    only, whatever bytes the flag name is made of.  A name that already
    is of this form maps to itself, so mapping twice changes nothing; a
    name of letters, digits and underscores keeps its length; and the
    splitter is handed through. *)
Theorem DefaultMapper_gives_env_names (splitter : Splitter) (flagName : string) :
  allBytes isEnvByte (DefaultMapper splitter flagName).1 = true /\
  (DefaultMapper splitter flagName).2 = splitter /\
  DefaultMapper splitter (DefaultMapper splitter flagName).1
    = DefaultMapper splitter flagName /\
  (allBytes isEnvByte flagName = true -> (DefaultMapper splitter flagName).1 = flagName) /\
  (allBytes isWordByte flagName = true ->
   String.length (DefaultMapper splitter flagName).1 = String.length flagName).
Proof.
  unfold DefaultMapper. cbn [fst snd].
  assert (Henv : allBytes isEnvByte (ToUpper_ascii (replaceNonWord 0 flagName)) = true)
    by apply ToUpper_ascii_env, replaceNonWord_word.
  split; [done|]. split; [done|]. split; [|split].
  - by rewrite DefaultMapper_fixes_env_names.
  - apply DefaultMapper_fixes_env_names.
  - intros Hword. by rewrite ToUpper_ascii_length, replaceNonWord_word_length.
Qed.

Lemma DefaultMapper_gives_env_names_witness :
  (DefaultMapper NoSplit "API_HTTP_ADDRESS").1 = "API_HTTP_ADDRESS" /\
  String.length (DefaultMapper NoSplit "api_http_address").1 = 16.
Proof.
  destruct (DefaultMapper_gives_env_names NoSplit "API_HTTP_ADDRESS") as (_ & _ & _ & Hfix & _).
  destruct (DefaultMapper_gives_env_names NoSplit "api_http_address") as (_ & _ & _ & _ & Hlen).
  split; [by apply Hfix | by apply Hlen].
Defined.

(** The cases of the repository's test of [DefaultMapper], and a name
    with a two-byte rune, a stray continuation byte and a three-byte
    rune. *)
Example DefaultMapper_test_cases :
  DefaultMapper NoSplit "" = ("", NoSplit) /\
  DefaultMapper NoSplit "asd" = ("ASD", NoSplit) /\
  DefaultMapper NoSplit
    ("asdASD123.,$=/_@'" +:+ String "034" (String "010" (String "009" "")))
    = ("ASDASD123___________", NoSplit) /\
  DefaultMapper ","
    (String "195" (String "169" (String "169" (String "226" (String "130" (String "172" "x"))))))
    = ("___X", ",").
Proof. vm_compute. repeat split. Qed.


(** ** [WithPrefix] and [DefaultMapper] *)

Ltac rune_cases :=
  cbv beta iota zeta;
  change (inRange 128 191 "_") with false;
  change (inRange 160 191 "_") with false;
  change (inRange 128 159 "_") with false;
  change (inRange 144 191 "_") with false;
  change (inRange 128 143 "_") with false;
  cbn [String.length andb]; cbv beta iota;
  repeat match goal with
         | |- context [inRange ?lo ?hi ?b] =>
             destruct (inRange lo hi b); cbn [andb orb]; cbv beta iota
         end;
  repeat match goal with
         | |- context [match ?x with EmptyString => _ | String _ _ => _ end] => destruct x
         end;
  split; lia.

Lemma runeWidth_underscore (c : ascii) (r f : string) :
  runeWidth (String c (r +:+ String "_" f)) = runeWidth (String c r) /\
  runeWidth (String c r) - 1 <= String.length r.
Proof.
  unfold runeWidth. destruct r as [|s1 [|s2 [|s3 r]]].
  - change ("" +:+ String "_" f) with (String "_" f). rune_cases.
  - change (String s1 "" +:+ String "_" f) with (String s1 (String "_" f)). rune_cases.
  - change (String s1 (String s2 "") +:+ String "_" f)
      with (String s1 (String s2 (String "_" f))).
    rune_cases.
  - change (String s1 (String s2 (String s3 r)) +:+ String "_" f)
      with (String s1 (String s2 (String s3 (r +:+ String "_" f)))).
    rune_cases.
Qed.

Lemma replaceNonWord_underscore (s f : string) (skip : nat) :
  skip <= String.length s ->
  replaceNonWord skip (s +:+ String "_" f)
    = replaceNonWord skip s +:+ String "_" (replaceNonWord 0 f).
Proof.
  revert skip. induction s as [|c r IH]; intros skip Hskip.
  - cbn [String.length] in Hskip. by replace skip with 0 by lia.
  - change (String c r +:+ String "_" f) with (String c (r +:+ String "_" f)).
    cbn [String.length] in Hskip. destruct skip as [|k].
    + cbn [replaceNonWord]. destruct (runeWidth_underscore c r f) as [-> Hwidth].
      destruct (isWordByte c); rewrite IH by lia; done.
    + cbn [replaceNonWord]. apply IH. lia.
Qed.

Lemma ToUpper_ascii_append (a b : string) :
  ToUpper_ascii (a +:+ b) = ToUpper_ascii a +:+ ToUpper_ascii b.
Proof.
  induction a as [|c a IH]; [done|].
  change (String c a +:+ b) with (String c (a +:+ b)). cbn [ToUpper_ascii].
  rewrite IH. done.
Qed.

(** X17: under [WithPrefix], the prefix and the name of the flag are
    mapped each on its own.  The name [DefaultMapper] gives to the
    prefixed name of a flag is the name it gives to the prefix, an
    underscore, and the name it gives to the flag: no rune of the prefix
    reaches over the underscore, whatever bytes the prefix ends in. *)
Theorem WithPrefix_maps_prefix_and_flag {X : Type} (splitter : Splitter) (s flagName : string)
    (o : options X) :
  DefaultMapper splitter (prefix (WithPrefix s o) +:+ flagName)
    = ((DefaultMapper splitter s).1 +:+ "_" +:+ (DefaultMapper splitter flagName).1,
       splitter).
Proof.
  unfold DefaultMapper, WithPrefix. cbn [prefix fst]. f_equal.
  rewrite append_assoc. change ("_" +:+ flagName) with (String "_" flagName).
  rewrite replaceNonWord_underscore by lia. rewrite ToUpper_ascii_append. done.
Qed.

Example WithPrefix_cases :
  DefaultMapper NoSplit (prefix (WithPrefix "my-app" demoOptions) +:+ "http.address")
    = ("MY_APP_HTTP_ADDRESS", NoSplit) /\
  DefaultMapper NoSplit (prefix (WithPrefix (String "195" "") demoOptions) +:+ "a")
    = ("__A", NoSplit).
Proof. vm_compute. repeat split. Qed.

(** ** Counting the flags that are set *)

Lemma FlagSet_Set_actual_eq (f : FlagSet) (name value : string) :
  actual (FlagSet_Set f name value).1
    = match (FlagSet_Set f name value).2 with
      | None => {[name]} ∪ actual f
      | Some _ => actual f
      end /\
  ((FlagSet_Set f name value).2 = None -> name ∈ dom (formal f)).
Proof.
  rewrite FlagSet_Set_spec. destruct (formal f !! name) as [flag|] eqn:Hflag; [|done].
  destruct (Getter_Set (Value flag) value).2; cbn [fst snd]; [done|].
  split; [done|]. intros _. apply elem_of_dom. eauto.
Qed.

Lemma length_remaining (registry : Set') :
  actual (fs registry) ⊆ dom (formal (fs registry)) ->
  Set_NFlag registry + length (remaining registry) = size (dom (formal (fs registry))).
Proof.
  intros Hsub. unfold Set_NFlag.
  assert (Hrem : list_to_set (remaining registry)
                 = dom (formal (fs registry)) ∖ actual (fs registry)).
  { apply set_eq. intros n. rewrite elem_of_list_to_set, elem_of_remaining. set_solver. }
  rewrite <- (size_list_to_set (C := gset string) (remaining registry)), Hrem.
  - rewrite size_difference by done.
    pose proof (subseteq_size _ _ Hsub). lia.
  - apply lexicographic_NoDup, lexicographic_remaining.
Qed.

(** X18: [NFlag] counts the flags that are set.  A [Set.Set] that
    succeeds adds one to it when the flag was not set and leaves it
    when the flag was; one that fails leaves it.  As long as only
    declared flags are set, which no [Set.Set] changes, [NFlag] and the
    number of flags [VisitRemaining] walks add up to the number of
    declared flags. *)
Theorem NFlag_counts_set_flags (src : Source) (name raw : string) (registry : Set') :
  let after := (Set_Set src name raw registry).1 in
  Set_NFlag after
    = match (Set_Set src name raw registry).2 with
      | None =>
          if decide (name ∈ actual (fs registry)) then Set_NFlag registry
          else S (Set_NFlag registry)
      | Some _ => Set_NFlag registry
      end /\
  (actual (fs registry) ⊆ dom (formal (fs registry)) ->
   actual (fs after) ⊆ dom (formal (fs after)) /\
   Set_NFlag registry + length (remaining registry) = size (dom (formal (fs registry))) /\
   Set_NFlag after + length (remaining after) = size (dom (formal (fs registry)))).
Proof.
  intros after. subst after.
  destruct (FlagSet_Set_actual_eq (fs registry) name raw) as [Hact Hdecl].
  assert (Herr : (Set_Set src name raw registry).2 = (FlagSet_Set (fs registry) name raw).2).
  { rewrite Set_Set_spec. by destruct (FlagSet_Set (fs registry) name raw).2. }
  rewrite <- Herr in Hact, Hdecl. rewrite <- Set_Set_fs with (src := src) in Hact.
  assert (Hdom : dom (formal (fs (Set_Set src name raw registry).1))
                 = dom (formal (fs registry)))
    by (by rewrite Set_Set_fs, FlagSet_Set_dom).
  clear Herr. set (r := Set_Set src name raw registry) in *. split.
  - unfold Set_NFlag. rewrite Hact. destruct r.2; [done|].
    destruct (decide (name ∈ actual (fs registry))) as [Hin|Hin].
    + f_equal. set_solver.
    + rewrite size_union by set_solver. by rewrite size_singleton.
  - intros Hsub.
    assert (Hsub' : actual (fs r.1) ⊆ dom (formal (fs r.1))).
    { rewrite Hact, Hdom. destruct r.2; [done|].
      apply union_subseteq. split; [|done]. by apply singleton_subseteq_l, Hdecl. }
    split; [done|]. split; [by apply length_remaining|].
    rewrite <- Hdom. by apply length_remaining.
Qed.

Lemma NFlag_counts_set_flags_witness :
  Set_NFlag demoSet + length (remaining demoSet) = size (dom (formal (fs demoSet))) /\
  Set_NFlag (Set_Set "test" "a" "1" demoSet).1 + length (remaining (Set_Set "test" "a" "1" demoSet).1)
    = size (dom (formal (fs demoSet))).
Proof.
  destruct (NFlag_counts_set_flags "test" "a" "1" demoSet) as [_ Hcount].
  destruct Hcount as (_ & Hbefore & Hafter).
  - apply (bool_decide_unpack _). vm_compute. exact I.
  - split; [exact Hbefore | exact Hafter].
Defined.

(** ** [Init] and the way [Parse] ends *)









(** A pass of package [file] that panics ends [Parse] with its panic
    under [ContinueOnError] too. *)
Example file_pass_panics_under_ContinueOnError :
  errorHandling (fs demoSet) = ContinueOnError /\
  exists p,
    (Set_Parse [] [demoFileParser "conf.json"
                     (file.WithMapper (fun f => f +:+ ".x") demoFileOptions)]
       (tt, demoSet)).2 = Ends (Panicked p).
Proof. split; [reflexivity|]. eexists. vm_compute. reflexivity. Qed.

(** ** Package [file]: key paths *)

Lemma prefix_separator (c : ascii) (rest : string) :
  String.prefix "." (String c rest) = negb (notSeparator c).
Proof.
  unfold notSeparator.
  change (String.prefix "." (String c rest))
    with (if ascii_dec "." c then String.prefix "" rest else false).
  destruct (ascii_dec "." c) as [<-|Hne].
  - by destruct rest.
  - rewrite (proj2 (Ascii.eqb_neq c ".")) by congruence. done.
Qed.

Lemma append_cons_r (cur : string) (c : ascii) (s : string) :
  (cur +:+ String c "") +:+ s = cur +:+ String c s.
Proof. by rewrite append_assoc. Qed.

Lemma Split_go_cons (cur : string) (c : ascii) (rest : string) :
  Split_go "." 0 cur (String c rest)
    = if notSeparator c then Split_go "." 0 (cur +:+ String c "") rest
      else cur :: Split_go "." 0 "" rest.
Proof. cbn [Split_go]. rewrite prefix_separator. by destruct (notSeparator c). Qed.

(** Splitting at the dots up to the first one. *)
Lemma Split_go_segment (cur a rest : string) :
  allBytes notSeparator a = true ->
  Split_go "." 0 cur (a +:+ String "." rest) = (cur +:+ a) :: Split_go "." 0 "" rest.
Proof.
  revert cur. induction a as [|c a IH]; intros cur.
  - intros _. change ("" +:+ String "." rest) with (String "." rest).
    by rewrite Split_go_cons, append_empty_r.
  - intros [Hc Ha]%andb_prop.
    change (String c a +:+ String "." rest) with (String c (a +:+ String "." rest)).
    rewrite Split_go_cons, Hc, IH by done. by rewrite append_cons_r.
Qed.

Lemma Split_go_last (cur a : string) :
  allBytes notSeparator a = true -> Split_go "." 0 cur a = [cur +:+ a].
Proof.
  revert cur. induction a as [|c a IH]; intros cur.
  - intros _. by rewrite append_empty_r.
  - intros [Hc Ha]%andb_prop. rewrite Split_go_cons, Hc, IH by done.
    by rewrite append_cons_r.
Qed.

Lemma Split_go_spec (cur s : string) :
  exists piece pieces,
    Split_go "." 0 cur s = (cur +:+ piece) :: pieces /\
    allBytes notSeparator piece = true /\
    Forall (fun p => allBytes notSeparator p = true) pieces /\
    strings_Join (piece :: pieces) "." = s.
Proof.
  revert cur. induction s as [|c s IH]; intros cur.
  - exists "", []. by rewrite append_empty_r.
  - rewrite Split_go_cons. destruct (notSeparator c) eqn:Hc.
    + destruct (IH (cur +:+ String c "")) as (piece & pieces & -> & Hpiece & Hpieces & Hjoin).
      exists (String c piece), pieces. rewrite append_cons_r.
      split; [done|]. split; [by simpl; rewrite Hc|]. split; [done|].
      rewrite <- Hjoin. by destruct pieces.
    + destruct (IH "") as (piece & pieces & -> & Hpiece & Hpieces & Hjoin).
      exists "", (piece :: pieces). rewrite append_empty_r.
      split; [done|]. split; [done|]. split; [by constructor|].
      unfold notSeparator in Hc. apply negb_false_iff in Hc.
      apply Ascii.eqb_eq in Hc as ->.
      change (strings_Join ("" :: piece :: pieces) ".")
        with ("" +:+ "." +:+ strings_Join (piece :: pieces) ".").
      by rewrite Hjoin.
Qed.

(** X20: [KeyPath.Split] cuts a key path at every dot and nowhere else:
    it gives at least one segment, no segment contains the separator,
    and joining the segments with the separator gives the key path
    back.  So the empty path is the one empty segment, and a dot at the
    start or the end, or two in a row, give an empty segment. *)
Theorem KeyPath_Split_cuts_at_dots (k : string) :
  file.KeyPath_Split k <> [] /\
  Forall (fun segment => allBytes notSeparator segment = true) (file.KeyPath_Split k) /\
  strings_Join (file.KeyPath_Split k) file.KeyPathSeparator = k.
Proof.
  unfold file.KeyPath_Split, strings_Split, file.KeyPathSeparator.
  destruct (Split_go_spec "" k) as (piece & pieces & -> & Hpiece & Hpieces & Hjoin).
  split; [done|]. split; [by constructor | done].
Qed.

Example KeyPath_Split_cases :
  file.KeyPath_Split "" = [""] /\
  file.KeyPath_Split "api_http_address" = ["api_http_address"] /\
  file.KeyPath_Split "api.http.address" = ["api"; "http"; "address"] /\
  file.KeyPath_Split ".a..b." = [""; "a"; ""; "b"; ""].
Proof. vm_compute. repeat split. Qed.

(** ** Package [file]: [find] *)

(** X21: [find] says that it found the key exactly when the value it
    returns is a valid one: what it reports as found is never the zero
    [Value], not even for a key the file gives as [null], and what it
    reports as not found is the zero [Value]. *)
Theorem find_found_is_valid {F : Type} (root : gmap string (file.rvalue (F := F)))
    (key : string) (v : file.rvalue) (ok : bool) :
  file.find root key = Returned (v, ok) -> file.IsValid v = ok.
Proof.
  unfold file.find.
  assert (Hroot : file.IsValid (file.unwrap (file.RMap "map[string]interface {}" root)) = true)
    by done.
  revert Hroot. generalize (file.unwrap (file.RMap "map[string]interface {}" root)).
  induction (file.KeyPath_Split key) as [|segment rest IH]; intros rv Hrv.
  - by intros [= <- <-].
  - cbn [file.find_loop]. destruct (file.MapIndex rv segment) as [elem| |]; [|done..].
    destruct (file.IsValid (file.unwrap elem)) eqn:Helem; cbn [negb].
    + by apply IH.
    + by intros [= <- <-].
Qed.

Lemma find_found_is_valid_witness :
  file.IsValid (file.RBool (F := string) true) = true /\
  file.IsValid (file.Invalid (F := string)) = false.
Proof.
  split.
  - apply (find_found_is_valid demoValues "d.e"). vm_compute. reflexivity.
  - apply (find_found_is_valid demoValues "n"). vm_compute. reflexivity.
Defined.

(** X22: [find] walks the key path one segment at a time.  A key
    without a dot is looked up in the root: it is found when the root
    has it with a value that is not [null].  For a key [a.rest], [find]
    goes on with [rest] in what the root has at [a] when this is a map;
    it reports not found when [a] is missing or [null]; and it panics
    when [a] holds anything else, a string or a list, say. *)
Theorem find_walks_the_path {F : Type} (root : gmap string (file.rvalue (F := F)))
    (a rest : string) :
  allBytes notSeparator a = true ->
  let v := file.unwrap (default file.Invalid (root !! a)) in
  file.find root a
    = Returned (if file.IsValid v then (v, true) else (file.Invalid, false)) /\
  file.find root (a +:+ "." +:+ rest)
    = match v with
      | file.Invalid => Returned (file.Invalid, false)
      | file.RMap _ m => file.find m rest
      | _ =>
          Panicked
            (ErrorsNew "reflect: call of reflect.Value.MapIndex on a Value that is no map")
      end.
Proof.
  intros Ha v. unfold file.find, file.KeyPath_Split, strings_Split, file.KeyPathSeparator.
  cbn [file.unwrap]. split.
  - rewrite Split_go_last by done. change ("" +:+ a) with a.
    cbn [file.find_loop file.MapIndex]. fold v. by destruct (file.IsValid v).
  - change (a +:+ "." +:+ rest) with (a +:+ String "." rest).
    rewrite Split_go_segment by done. change ("" +:+ a) with a.
    cbn [file.find_loop file.MapIndex]. fold v. destruct (Split_go_spec "" rest) as (piece & pieces & -> & _).
    by destruct v.
Qed.

Lemma find_walks_the_path_witness :
  file.find demoValues "d.e" = file.find {[ "e" := file.RInterface (file.RBool true) ]} "e" /\
  file.find demoValues "a.e"
    = Panicked (ErrorsNew "reflect: call of reflect.Value.MapIndex on a Value that is no map") /\
  file.find demoValues "n.e" = Returned (file.Invalid, false).
Proof.
  split; [|split].
  - exact (proj2 (find_walks_the_path demoValues "d" "e" eq_refl)).
  - exact (proj2 (find_walks_the_path demoValues "a" "e" eq_refl)).
  - exact (proj2 (find_walks_the_path demoValues "n" "e" eq_refl)).
Defined.

(** ** Package [file]: [stringify] *)

(** Induction on a value with the elements of a list at hand. *)
Lemma rvalue_slices_ind {F : Type} (P : file.rvalue (F := F) -> Prop) :
  P file.Invalid ->
  (forall b, P (file.RBool b)) ->
  (forall z, P (file.RInt z)) ->
  (forall n, P (file.RUint n)) ->
  (forall x, P (file.RFloat x)) ->
  (forall s, P (file.RString s)) ->
  (forall elems, Forall P elems -> P (file.RSlice elems)) ->
  (forall typ m, P (file.RMap typ m)) ->
  (forall elem, P elem -> P (file.RInterface elem)) ->
  (forall elem, P elem -> P (file.RPointer elem)) ->
  (forall typ, P (file.ROther typ)) ->
  forall v, P v.
Proof.
  intros HInvalid HBool HInt HUint HFloat HString HSlice HMap HInterface HPointer HOther.
  fix IH 1. intros [|b|z|n|x|s|elems|typ m|elem|elem|typ].
  - exact HInvalid.
  - apply HBool.
  - apply HInt.
  - apply HUint.
  - apply HFloat.
  - apply HString.
  - apply HSlice. revert elems. fix IHelems 1. intros [|elem elems].
    + constructor.
    + constructor; [apply IH | apply IHelems].
  - apply HMap.
  - apply HInterface, IH.
  - apply HPointer, IH.
  - apply HOther.
Qed.

Lemma stringify_RSlice {F : Type} (FormatFloat : F -> string) (elems : list file.rvalue)
    (values : list string) :
  file.stringify FormatFloat (file.RSlice elems) values
    = file.stringify_elems FormatFloat elems values.
Proof.
  revert values. induction elems as [|elem elems IH]; intros values; [done|].
  cbn [file.stringify file.stringify_elems].
  destruct (file.stringify FormatFloat elem values) as [[values' [err|]]| |]; [done| |done..].
  apply IH.
Qed.

(** X23: [stringify] only appends.  Called with strings already in the
    list, it returns them followed by what it returns when called with
    none, and the same error; a panic does not depend on them either. *)
Theorem stringify_only_appends {F : Type} (FormatFloat : F -> string) (v : file.rvalue)
    (values : list string) :
  file.stringify FormatFloat v values
    = match file.stringify FormatFloat v [] with
      | Returned (vs, err) => Returned (values ++ vs, err)
      | Exited code => Exited code
      | Panicked p => Panicked p
      end.
Proof.
  revert values.
  induction v as [|b|z|n|x|s|elems IH|typ m|elem IH|elem IH|typ] using rvalue_slices_ind;
    intros values;
    try (cbn [file.stringify app]; first [done | by rewrite (right_id_L [] (++))]).
  rewrite !stringify_RSlice.
  revert values. induction IH as [|elem elems Helem _ IH]; intros values.
  - cbn [file.stringify_elems]. by rewrite (right_id_L [] (++)).
  - cbn [file.stringify_elems]. rewrite (Helem values).
    destruct (file.stringify FormatFloat elem []) as [[vs [err|]]| |]; [done| |done..].
    rewrite (IH (values ++ vs)), (IH vs).
    destruct (file.stringify_elems FormatFloat elems []) as [[vs' err]| |]; [|done..].
    by rewrite (assoc_L (++)).
Qed.

Lemma stringify_elems_app {F : Type} (FormatFloat : F -> string) (xs ys : list file.rvalue)
    (values : list string) :
  file.stringify_elems FormatFloat (xs ++ ys) values
    = match file.stringify_elems FormatFloat xs values with
      | Returned (vs, None) => file.stringify_elems FormatFloat ys vs
      | stop => stop
      end.
Proof.
  revert values. induction xs as [|x xs IH]; intros values; [done|].
  cbn [app file.stringify_elems].
  destruct (file.stringify FormatFloat x values) as [[vs [err|]]| |]; [done| |done..].
  apply IH.
Qed.

(** X24: a list within a list is flattened.  [stringify] gives for a
    list whose first element is itself a list what it gives for the
    elements of that list followed by the others, and for two lists one
    after the other the strings of the first followed by those of the
    second, unless the first fails. *)
Theorem stringify_flattens {F : Type} (FormatFloat : F -> string) (xs ys : list file.rvalue)
    (values : list string) :
  file.stringify FormatFloat (file.RSlice (file.RInterface (file.RSlice xs) :: ys)) values
    = file.stringify FormatFloat (file.RSlice (xs ++ ys)) values /\
  file.stringify FormatFloat (file.RSlice (xs ++ ys)) values
    = match file.stringify FormatFloat (file.RSlice xs) values with
      | Returned (vs, None) => file.stringify FormatFloat (file.RSlice ys) vs
      | stop => stop
      end.
Proof.
  rewrite (stringify_RSlice _ (xs ++ ys)), (stringify_RSlice _ (_ :: ys)).
  rewrite stringify_elems_app. cbn [file.stringify_elems].
  change (file.stringify FormatFloat (file.RInterface (file.RSlice xs)) values)
    with (file.stringify FormatFloat (file.RSlice xs) values).
  rewrite (stringify_RSlice _ xs). split; [done|].
  by destruct (file.stringify_elems FormatFloat xs values) as [[vs [err|]]| |].
Qed.

Lemma stringify_outcome {F : Type} (FormatFloat : F -> string) (v : file.rvalue)
    (values : list string) :
  match file.stringify FormatFloat v values with
  | Returned (_, Some err) => exists typ, err = Errorf "unsupported type %q" [typ]
  | Returned (_, None) => True
  | Exited _ => False
  | Panicked p => p = ErrorsNew "reflect: call of reflect.Value.Type on zero Value"
  end.
Proof.
  revert values.
  induction v as [|b|z|n|x|s|elems IH|typ m|elem IH|elem IH|typ] using rvalue_slices_ind;
    intros values; try (cbn [file.stringify]; first [apply IH | by eauto]).
  rewrite stringify_RSlice. revert values.
  induction IH as [|elem elems Helem _ IH]; intros values; [done|].
  cbn [file.stringify_elems]. specialize (Helem values).
  destruct (file.stringify FormatFloat elem values) as [[vs [err|]]| |]; [done| |done..].
  apply IH.
Qed.

(** X25: [stringify] ends in one of three ways, and never leaves the
    program.  It returns nil; or it returns the error
    [unsupported type "T"] for the type [T] of a value that is neither
    a scalar, a string nor a list, a map for one; or it panics in
    [reflect.Value.Type], which is what a [null] inside a list or
    behind a pointer makes it do. *)
Theorem stringify_ends_in_three_ways {F : Type} (FormatFloat : F -> string)
    (v : file.rvalue) (values : list string) :
  match file.stringify FormatFloat v values with
  | Returned (_, Some err) => exists typ, err = Errorf "unsupported type %q" [typ]
  | Returned (_, None) => True
  | Exited _ => False
  | Panicked p => p = ErrorsNew "reflect: call of reflect.Value.Type on zero Value"
  end.
Proof. apply stringify_outcome. Qed.

Example stringify_cases :
  file.stringify (fun x : string => x) (demoList [file.RInterface (file.RString "p");
                            demoList [file.RInterface (file.RBool true);
                                      file.RInterface (file.RInt (-3))];
                            file.RInterface (file.RFloat "1.5")]) []
    = Returned (["p"; "true"; "-3"; "1.5"], None) /\
  file.stringify (fun x : string => x)
      (demoList [file.RInterface (file.RString "p"); demoObject ∅;
                 file.RInterface (file.RString "q")]) ["kept"]
    = Returned (["kept"; "p"], Some (Errorf "unsupported type %q" ["map[string]interface {}"])) /\
  file.stringify (fun x : string => x)
      (demoList [file.RInterface (file.RString "p"); file.RInterface file.Invalid]) []
    = Panicked (ErrorsNew "reflect: call of reflect.Value.Type on zero Value").
Proof. vm_compute. repeat split. Qed.

(** ** Package [file]: the pass *)

Lemma file_setEach_calls (flag : string) (vals : list string) (registry : Set') :
  exists calls : list (Source * string),
    (file.setEach flag vals registry).1
      = foldl (fun registry c => (Set_Set c.1 flag c.2 registry).1) registry calls.
Proof.
  revert registry. induction vals as [|val vals IH]; intros registry.
  - by exists [].
  - cbn [file.setEach].
    destruct (Set_Set "file TODO" flag val registry) as [registry' [err|]] eqn:Hset.
    + exists [("file TODO", val)]. simpl. by rewrite Hset.
    + destruct (IH registry') as [calls Hcalls]. exists (("file TODO", val) :: calls).
      simpl. by rewrite Hset.
Qed.

Lemma file_visit_setsVisitedOnly {F X : Type} (FormatFloat : F -> string)
    (opts : file.Options) (values : gmap string file.rvalue) :
  setsVisitedOnly (file.visit (X := X) FormatFloat opts values).
Proof.
  intros f w. unfold file.visit.
  destruct (file.find values (file.Mapper opts f)) as [[wrapper [|]]| |]; cbn [negb];
    try by exists [].
  destruct (file.stringify FormatFloat wrapper []) as [[vals [err|]]| |]; try by exists [].
  destruct (file_setEach_calls f vals w.2) as [calls Hcalls]. exists calls.
  by destruct (file.setEach f vals w.2).
Qed.

(** The pass leaves the registry alone or walks it with what the
    decoder made of the file. *)
Lemma file_run_cases {F X : Type} (FormatFloat : F -> string) (is_ErrNotExist : error -> bool)
    (osFS : file.FS) (path : X * Set' -> string) (mux : gmap string file.DecoderFunc)
    (opts : file.Options) (w : X * Set') :
  (file.run FormatFloat is_ErrNotExist osFS path mux opts w).1 = w \/
  exists data decoder values,
    file.Open (default osFS (file.FS_ opts)) (path w) = Ok (Ok data) /\
    mux !! file.filepath_Ext (path w) = Some decoder /\
    decoder data = Ok values /\
    (file.run FormatFloat is_ErrNotExist osFS path mux opts w).1.2
      = (Set_VisitRemaining (file.visit FormatFloat opts values) ((None, w.1), w.2)).1.2.
Proof.
  unfold file.run.
  destruct (file.Open (default osFS (file.FS_ opts)) (path w)) as [[data|err]|err].
  - destruct (mux !! file.filepath_Ext (path w)) as [decoder|] eqn:Hmux; [|by left].
    destruct (decoder data) as [values|err] eqn:Hdecode; [|by left].
    right. exists data, decoder, values. repeat split; [done..|].
    by destruct (Set_VisitRemaining _ _).1.1.1.
  - by left.
  - left. by destruct (is_ErrNotExist err && file.IgnoreMissingFile opts).
Qed.



(** The parser of package [file] is a pass that goes through
    [VisitRemaining]. *)
Lemma file_run_remainingPass {F X : Type} (FormatFloat : F -> string)
    (is_ErrNotExist : error -> bool) (osFS : file.FS) (path : X * Set' -> string)
    (mux : gmap string file.DecoderFunc) (opts : file.Options) :
  remainingPass (file.run FormatFloat is_ErrNotExist osFS path mux opts).
Proof.
  intros w.
  destruct (file_run_cases FormatFloat is_ErrNotExist osFS path mux opts w)
    as [-> | (data & decoder & values & _ & _ & _ & ->)]; [by left|].
  right. exists (option error * X)%type, (file.visit FormatFloat opts values), (None, w.1).
  split; [apply file_visit_setsVisitedOnly | done].
Qed.





(** The loop over the strings of a value stops at the first [Set.Set]
    that fails, after those of the strings before it. *)
Lemma file_setEach_failure (flag : string) (vals : list string) (registry final : Set')
    (e : error) :
  file.setEach flag vals registry = (final, Some e) ->
  exists val pieces,
    val ∈ vals /\
    Forall (fun c : SetCall => c.1.2 = flag) pieces /\
    Set_Set "file TODO" flag val (applyCalls pieces registry) = (final, Some e).
Proof.
  revert registry. induction vals as [|val vals IH]; intros registry; [done|].
  cbn [file.setEach].
  destruct (Set_Set "file TODO" flag val registry) as [registry' [err|]] eqn:Hset.
  - intros [= <- <-]. exists val, []. split; [by left|]. split; [constructor | exact Hset].
  - intros Hrest. destruct (IH registry' Hrest) as (val' & pieces & Hin & Hall & Hfail).
    exists val', (("file TODO", flag, val) :: pieces).
    split; [by right|]. split; [by constructor|].
    unfold applyCalls in *. cbn [foldl fst snd]. by rewrite Hset.
Qed.

(** The callback catches a panic only as the error it returns. *)
Lemma file_visit_panic {F X : Type} (FormatFloat : F -> string) (opts : file.Options)
    (values : gmap string file.rvalue) (f : string) (w : (option error * X) * Set') :
  w.1.1 = None ->
  let r := file.visit FormatFloat opts values f w in
  match r.1.1.1 with
  | Some p => r.2 = Some p
  | None => True
  end /\
  (r.2 = None -> r.1.1.1 = None).
Proof.
  intros Hw. unfold file.visit.
  destruct (file.find values (file.Mapper opts f)) as [[wrapper [|]]| |];
    cbn [negb fst snd]; rewrite ?Hw; try done.
  destruct (file.stringify FormatFloat wrapper []) as [[vals [err|]]| |];
    cbn [fst snd]; rewrite ?Hw; try done.
  destruct (file.setEach f vals w.2) as [registry err]. cbn [fst snd]. by rewrite Hw.
Qed.

(** So does the walk. *)
Lemma file_walk_panic {F X : Type} (FormatFloat : F -> string) (opts : file.Options)
    (values : gmap string file.rvalue) (names : list string)
    (w : (option error * X) * Set') :
  w.1.1 = None ->
  let r := foldl (fun w f => visitClosure (file.visit FormatFloat opts values) f w)
                 (w, None) names in
  match r.1.1.1 with
  | Some p => r.2 = Some p
  | None => True
  end /\
  (r.2 = None -> r.1.1.1 = None).
Proof.
  revert w. induction names as [|f names IH]; intros w Hw; [by cbn; rewrite Hw|].
  cbn zeta. rewrite walk_cons.
  pose proof (file_visit_panic FormatFloat opts values f w Hw) as [Hpanic Hnil].
  cbn zeta in Hpanic, Hnil.
  destruct (file.visit FormatFloat opts values f w) as [w' [e|]].
  - rewrite walk_stopped. by cbn [fst snd] in *.
  - apply IH. by apply Hnil.
Qed.

(** A call of the callback that returns an error. *)
Lemma file_visit_failure {F X : Type} (FormatFloat : F -> string) (opts : file.Options)
    (values : gmap string file.rvalue) (flag : string)
    (w final : (option error * X) * Set') (e : error) :
  w.1.1 = None ->
  file.visit FormatFloat opts values flag w = (final, Some e) ->
  match final.1.1 with
  | Some p =>
      p = e /\ final.2 = w.2 /\
      (file.find values (file.Mapper opts flag) = Panicked p \/
       exists v,
         file.find values (file.Mapper opts flag) = Returned (v, true) /\
         file.stringify FormatFloat v [] = Panicked p)
  | None =>
      (exists v vals typ,
         file.find values (file.Mapper opts flag) = Returned (v, true) /\
         file.stringify FormatFloat v []
           = Returned (vals, Some (Errorf "unsupported type %q" [typ])) /\
         e = file.ErrVal (file.Mapper opts flag) (Errorf "unsupported type %q" [typ]) /\
         final.2 = w.2) \/
      (exists v vals val pieces,
         file.find values (file.Mapper opts flag) = Returned (v, true) /\
         file.stringify FormatFloat v [] = Returned (vals, None) /\
         val ∈ vals /\
         Forall (fun c : SetCall => c.1.2 = flag) pieces /\
         Set_Set "file TODO" flag val (applyCalls pieces w.2) = (final.2, Some e))
  end.
Proof.
  intros Hw. unfold file.visit.
  destruct (file.find values (file.Mapper opts flag)) as [[wrapper [|]]| |] eqn:Hfind;
    cbn [negb]; [|done|done|].
  2: { intros [= <- <-]. cbn. split; [done|]. split; [done|]. by left. }
  pose proof (stringify_outcome FormatFloat wrapper []) as Hstr.
  destruct (file.stringify FormatFloat wrapper []) as [[vals [err|]]| |] eqn:Hrun;
    [| |done|].
  - intros [= <- <-]. rewrite Hw. destruct Hstr as [typ ->]. left.
    by exists wrapper, vals, typ.
  - destruct (file.setEach flag vals w.2) as [registry err] eqn:Heach.
    intros [= <- ->]. cbn [fst snd]. rewrite Hw. right.
    destruct (file_setEach_failure _ _ _ _ _ Heach) as (val & pieces & Hin & Hall & Hfail).
    by exists wrapper, vals, val, pieces.
  - intros [= <- <-]. cbn. split; [done|]. split; [done|]. right. by exists wrapper.
Qed.

(** X28: how the pass can end.  It never leaves the program.  An error
    it returns is one of: the error of opening or reading the file,
    wrapped with ["file: %w"]; [ErrUnsupported] with the extension of
    the path and those of the mux, when the mux has no decoder for it;
    [ErrDecode] with the decoder's error; or it comes from a flag of
    the walk over what the decoder made of the file, and then it is
    [ErrVal] with the key of that flag and the [unsupported type] error
    [stringify] gave for its value, or the error of a [Set.Set] of that
    flag with the source ["file TODO"] and one of the strings of its
    value, returned as it is; that [Set.Set] follows the calls the pass
    made before and leaves the registry as the pass leaves it.  A panic
    is a panic of [find] or of [stringify] on the key of a flag of the
    walk. *)
Theorem file_pass_ends {F X : Type} (FormatFloat : F -> string)
    (is_ErrNotExist : error -> bool) (osFS : file.FS) (path : X * Set' -> string)
    (mux : gmap string file.DecoderFunc) (opts : file.Options) (w : X * Set') :
  let r := file.run FormatFloat is_ErrNotExist osFS path mux opts w in
  let decoded := fun values =>
    exists data decoder,
      file.Open (default osFS (file.FS_ opts)) (path w) = Ok (Ok data) /\
      mux !! file.filepath_Ext (path w) = Some decoder /\
      decoder data = Ok values in
  match r.2 with
  | Returned None => True
  | Returned (Some e) =>
      (exists cause,
         (file.Open (default osFS (file.FS_ opts)) (path w) = Err cause \/
          file.Open (default osFS (file.FS_ opts)) (path w) = Ok (Err cause)) /\
         e = Errorw "file: %w" [] cause) \/
      (exists data,
         file.Open (default osFS (file.FS_ opts)) (path w) = Ok (Ok data) /\
         mux !! file.filepath_Ext (path w) = None /\
         e = file.ErrUnsupported (file.filepath_Ext (path w)) (file.supportedExts mux)) \/
      (exists data decoder cause,
         file.Open (default osFS (file.FS_ opts)) (path w) = Ok (Ok data) /\
         mux !! file.filepath_Ext (path w) = Some decoder /\
         decoder data = Err cause /\
         e = file.ErrDecode cause) \/
      (exists values flag v vals typ,
         decoded values /\ flag ∈ remaining w.2 /\
         file.find values (file.Mapper opts flag) = Returned (v, true) /\
         file.stringify FormatFloat v []
           = Returned (vals, Some (Errorf "unsupported type %q" [typ])) /\
         e = file.ErrVal (file.Mapper opts flag) (Errorf "unsupported type %q" [typ])) \/
      (exists values flag v vals val calls,
         decoded values /\ flag ∈ remaining w.2 /\
         file.find values (file.Mapper opts flag) = Returned (v, true) /\
         file.stringify FormatFloat v [] = Returned (vals, None) /\
         val ∈ vals /\
         Forall (fun c : SetCall => c.1.2 ∈ remaining w.2) calls /\
         Set_Set "file TODO" flag val (applyCalls calls w.2) = (r.1.2, Some e))
  | Exited _ => False
  | Panicked p =>
      exists values flag,
        decoded values /\ flag ∈ remaining w.2 /\
        (file.find values (file.Mapper opts flag) = Panicked p \/
         exists v,
           file.find values (file.Mapper opts flag) = Returned (v, true) /\
           file.stringify FormatFloat v [] = Panicked p)
  end.
Proof.
  intros r decoded. subst r. unfold file.run.
  destruct (file.Open (default osFS (file.FS_ opts)) (path w)) as [[data|err]|err] eqn:Hopen;
    cbn [snd].
  2: { left. exists err. split; [by right | done]. }
  2: { destruct (is_ErrNotExist err && file.IgnoreMissingFile opts); cbn [snd]; [done|].
       left. exists err. split; [by left | done]. }
  destruct (mux !! file.filepath_Ext (path w)) as [decoder|] eqn:Hmux; cbn [snd];
    [|right; left; by exists data].
  destruct (decoder data) as [values|err] eqn:Hdecode; cbn [snd];
    [|right; right; left; by exists data, decoder, err].
  assert (Hdecoded : decoded values) by (by exists data, decoder).
  rewrite Set_VisitRemaining_spec. cbn [snd].
  pose proof (file_walk_panic FormatFloat opts values (remaining w.2) ((None, w.1), w.2)
                eq_refl) as [Hpanic Hnil].
  cbn zeta in Hpanic, Hnil.
  set (r := foldl _ _ _) in *.
  destruct r.2 as [e|] eqn:Herr.
  - destruct (walk_failure _ _ _ _ Herr) as (pre & flag & post & w1 & Hnames & Hpre & Hcall).
    fold r in Hcall.
    assert (Hflag : flag ∈ remaining w.2) by (rewrite Hnames; set_solver).
    destruct (walk_calls (file.visit FormatFloat opts values) (fun _ => True) pre
                (((None, w.1), w.2), None))
      as (calls & Hcalls & Hall); [apply file_visit_setsVisitedOnly | by left |].
    assert (Hall' : Forall (fun c : SetCall => c.1.2 ∈ remaining w.2) calls).
    { eapply Forall_impl; [exact Hall|]. intros c [Hin _]. rewrite Hnames. set_solver. }
    assert (Hw1 : w1.1.1 = None).
    { pose proof (file_walk_panic FormatFloat opts values pre ((None, w.1), w.2) eq_refl)
        as [_ Hnil1].
      cbn zeta in Hnil1. rewrite Hpre in Hnil1. by apply Hnil1. }
    rewrite Hpre in Hcalls. cbn [fst snd] in Hcalls.
    pose proof (file_visit_failure FormatFloat opts values flag w1 r.1 e Hw1 Hcall) as Hend.
    destruct r.1.1.1 as [p|]; cbn [snd].
    + destruct Hend as (-> & _ & Horigin). by exists values, flag.
    + destruct Hend as [(v & vals & typ & Hfind & Hstr & -> & _)
                       | (v & vals & val & pieces & Hfind & Hstr & Hin & Hpieces & Hfail)].
      * right; right; right; left. by exists values, flag, v, vals, typ.
      * right; right; right; right.
        exists values, flag, v, vals, val, (calls ++ pieces).
        split; [done|]. split; [done|]. split; [done|]. split; [done|]. split; [done|].
        split. { apply Forall_app. split; [done|]. eapply Forall_impl; [exact Hpieces|].
                 by intros c ->. }
        by rewrite applyCalls_app, <- Hcalls.
  - by rewrite Hnil.
Qed.

Example file_pass_ends_cases :
  (demoFileParser "conf.json" demoFileOptions (tt, demoSet)).2
    = Returned (Some (file.ErrVal "b"
                        (Errorf "unsupported type %q" ["map[string]interface {}"]))) /\
  (exists p,
     (demoFileParser "conf.json" (file.WithMapper (fun f => f +:+ ".x") demoFileOptions)
        (tt, demoSet)).2 = Panicked p).
Proof. split; [vm_compute; reflexivity|]. eexists. vm_compute. reflexivity. Qed.

(** X29: a file that cannot be used ends the pass before any flag is
    looked at.  When the file cannot be opened or read, its extension
    is not in the mux, or the decoder fails, the registry and what the
    caller captured are as they were, and the pass returns nil in one
    case only: the file could not be opened, the error says that it
    does not exist, and [IgnoreMissingFile] is set. *)
Theorem file_fails_before_any_flag {F X : Type} (FormatFloat : F -> string)
    (is_ErrNotExist : error -> bool) (osFS : file.FS) (path : X * Set' -> string)
    (mux : gmap string file.DecoderFunc) (opts : file.Options) (w : X * Set') :
  (forall data decoder values,
     file.Open (default osFS (file.FS_ opts)) (path w) = Ok (Ok data) ->
     mux !! file.filepath_Ext (path w) = Some decoder ->
     decoder data <> Ok values) ->
  let r := file.run FormatFloat is_ErrNotExist osFS path mux opts w in
  r.1 = w /\
  (exists e, r.2 = Returned e) /\
  (r.2 = Returned None <->
   file.IgnoreMissingFile opts = true /\
   exists err,
     file.Open (default osFS (file.FS_ opts)) (path w) = Err err /\
     is_ErrNotExist err = true).
Proof.
  intros Hbad r. subst r. unfold file.run.
  destruct (file.Open (default osFS (file.FS_ opts)) (path w)) as [[data|err]|err].
  - destruct (mux !! file.filepath_Ext (path w)) as [decoder|] eqn:Hmux.
    + destruct (decoder data) as [values|err] eqn:Hdecode.
      * by destruct (Hbad data decoder values).
      * cbn [fst snd]. split; [done|]. split; [by eexists|].
        split; [done | by intros [_ [? [? _]]]].
    + cbn [fst snd]. split; [done|]. split; [by eexists|].
      split; [done | by intros [_ [? [? _]]]].
  - cbn [fst snd]. split; [done|]. split; [by eexists|].
    split; [done | by intros [_ [? [? _]]]].
  - destruct (is_ErrNotExist err) eqn:Hmissing, (file.IgnoreMissingFile opts) eqn:Hignore;
      cbn [andb fst snd]; (split; [done|]); (split; [by eexists|]).
    + split; [|done]. intros _. split; [done|]. by exists err.
    + split; [done | by intros [? _]].
    + split; [done|]. intros [_ (err' & [= <-] & Hmissing')]. congruence.
    + split; [done | by intros [? _]].
Qed.

Lemma file_fails_before_any_flag_witness :
  (demoFileParser "none.json" demoFileOptions (tt, demoSet)).1 = (tt, demoSet) /\
  (demoFileParser "dir.json" (file.WithIgnoreMissingFile demoFileOptions) (tt, demoSet)).1
    = (tt, demoSet).
Proof.
  split.
  - apply (file_fails_before_any_flag (fun x => x) demoIsNotExist demoFS
             (fun _ => "none.json") demoMux demoFileOptions (tt, demoSet)).
    intros data decoder values Hopen. vm_compute in Hopen. discriminate Hopen.
  - apply (file_fails_before_any_flag (fun x => x) demoIsNotExist demoFS
             (fun _ => "dir.json") demoMux (file.WithIgnoreMissingFile demoFileOptions)
             (tt, demoSet)).
    intros data decoder values Hopen. vm_compute in Hopen. discriminate Hopen.
Defined.

(** One [Set.Set] of a sequence flag that parses. *)
Lemma Set_Set_slice {T : Type} `{GoKind T} (src : Source) (f u raw : string) (s : slice T)
    (registry : Set') :
  formal (fs registry) !! f = Some {| Usage := u; Value := slice_Getter s |} ->
  (slice_Set s raw).2 = None ->
  let after := Set_Set src f raw registry in
  after.2 = None /\
  formal (fs after.1) !! f = Some {| Usage := u; Value := slice_Getter (slice_Set s raw).1 |} /\
  f ∈ actual (fs after.1) /\
  provideMap after.1 !! f = Some src.
Proof.
  intros Hf Hset after. subst after.
  unfold Set_Set, FlagSet_Set. rewrite Hf. unfold Flag_Value_Set, Getter_Set.
  cbn [Value Usage slice_Getter recv_Set self recv recv_IsBoolFlag].
  destruct (slice_Set s raw) as [s' [err|]]; [done|].
  cbn [fst snd fs provideMap with_fs with_provideMap with_actual with_formal formal actual].
  rewrite !lookup_insert_eq. repeat split. set_solver.
Qed.

Lemma file_setEach_slice {T : Type} `{GoKind T} (f u : string) (vals : list string)
    (s : slice T) (registry : Set') :
  formal (fs registry) !! f = Some {| Usage := u; Value := slice_Getter s |} ->
  (slice_SetAll s vals).2 = None ->
  vals <> [] ->
  let after := file.setEach f vals registry in
  after.2 = None /\
  formal (fs after.1) !! f
    = Some {| Usage := u; Value := slice_Getter (slice_SetAll s vals).1 |} /\
  f ∈ actual (fs after.1) /\
  provideMap after.1 !! f = Some "file TODO".
Proof.
  revert s registry. induction vals as [|val vals IH]; intros s registry Hf Hall Hne; [done|].
  cbn [file.setEach slice_SetAll] in *.
  destruct (slice_Set s val) as [s' [err|]] eqn:Hset; [done|].
  destruct (Set_Set_slice "file TODO" f u val s registry Hf) as (Hnil & Hf' & Hact & Hpm);
    [by rewrite Hset|].
  rewrite Hset in Hf'. cbn [fst] in Hf'.
  destruct (Set_Set "file TODO" f val registry) as [registry' err]. cbn [fst snd] in *.
  subst err. destruct vals as [|val' vals]; [done|]. by apply IH.
Qed.

(** X30: a list in the file replaces the defaults of a sequence flag.
    When the value found for a flag that is not set gives the strings
    [vals], all of which parse, the callback of the pass returns nil
    and leaves the flag holding the parsed values and nothing of its
    defaults, counted as set, with the provenance ["file TODO"].  An
    empty list is no value: the flag keeps its defaults and stays
    unset. *)
Theorem file_list_replaces_defaults {F X T : Type} `{GoKind T} (FormatFloat : F -> string)
    (opts : file.Options) (values : gmap string file.rvalue) (f u : string)
    (w : (option error * X) * Set') (parse : ValParser T) (defaults ts : list T)
    (v : file.rvalue) (vals : list string) :
  file.find values (file.Mapper opts f) = Returned (v, true) ->
  file.stringify FormatFloat v [] = Returned (vals, None) ->
  Forall2 (fun raw t => parse raw = Ok t) vals ts ->
  formal (fs w.2) !! f = Some {| Usage := u; Value := slice_Getter (Slice defaults parse) |} ->
  let r := file.visit FormatFloat opts values f w in
  r.2 = None /\
  r.1.1 = w.1 /\
  match vals with
  | [] => r.1.2 = w.2
  | _ :: _ =>
      formal (fs r.1.2) !! f
        = Some {| Usage := u; Value := slice_Getter (mkSlice ts parse true) |} /\
      f ∈ actual (fs r.1.2) /\
      provideMap r.1.2 !! f = Some "file TODO"
  end.
Proof.
  intros Hfind Hstr Hparse Hf r. subst r. unfold file.visit.
  rewrite Hfind, Hstr. cbn [negb].
  destruct Hparse as [|val t vals ts Hval Hvals]; [done|].
  assert (Hall : slice_SetAll (Slice defaults parse) (val :: vals)
                 = (mkSlice (t :: ts) parse true, None)).
  { cbn [slice_SetAll]. rewrite slice_Set_first by done. cbn [Slice slice_Parse].
    rewrite Hval. by rewrite (slice_SetAll_later parse _ vals ts). }
  destruct (file_setEach_slice f u (val :: vals) (Slice defaults parse) w.2 Hf)
    as (Hnil & Hf' & Hact & Hpm); [by rewrite Hall|done|].
  rewrite Hall in Hf'.
  by destruct (file.setEach f (val :: vals) w.2) as [registry err].
Qed.

Lemma file_list_replaces_defaults_witness :
  let r := file.visit (X := unit) (fun x : string => x) demoFileOptions demoValues "c"
             ((None, tt), demoSet) in
  formal (fs r.1.2) !! "c"
    = Some {| Usage := ""; Value := slice_Getter (mkSlice ["p"; "q"] parseString true) |} /\
  provideMap r.1.2 !! "c" = Some "file TODO".
Proof.
  intros r.
  destruct (file_list_replaces_defaults (X := unit) (fun x : string => x) demoFileOptions
              demoValues "c" "" ((None, tt), demoSet) parseString ["x"; "y"] ["p"; "q"]
              (file.RSlice [file.RInterface (file.RString "p");
                            demoList [file.RInterface (file.RString "q")]])
              ["p"; "q"])
    as (_ & _ & Hf & _ & Hpm).
  - vm_compute. reflexivity.
  - vm_compute. reflexivity.
  - repeat constructor.
  - reflexivity.
  - split; [exact Hf | exact Hpm].
Defined.
